(** * Query-plan optimisation drivers (optimizeTree.cpp)

    A shallow embedding of the two tree walkers of
    [src/Processors/QueryPlan/Optimizations/optimizeTree.cpp]:
    [optimizeTreeFirstPass] (fixpoint rewriting with bounded re-descent and a
    global budget) and [optimizeTreeSecondPass] (ordered structural phases).

    The plan is an arena of nodes addressed by stable identifiers (the C++
    code holds [QueryPlan::Node *] into a [std::list<Node>]); rewrite rules
    are state transformers on the arena.  Loops are run with fuel. *)

From stdpp Require Import gmap strings list.
From Stdlib Require Import NArith Lia.

Set Warnings "-clear-no-such-hyp".

(** ** Machine integers *)

(** [size_t] is modelled as [N]; the two operations that may wrap are written
    with their 64-bit wrap-around. *)
Definition size_t_modulus : N := (2 ^ 64)%N.

(** [++x] on a [size_t]. *)
Definition size_incr (x : N) : N := ((x + 1) mod size_t_modulus)%N.

(** [--x] on a [size_t]. *)
Definition size_decr (x : N) : N := ((x + (size_t_modulus - 1)) mod size_t_modulus)%N.

(** ** Plan tree *)

(** A [QueryPlan::Node *]: nodes are never destroyed during optimisation, so
    a pointer is a stable identifier. *)
Definition NodeId := nat.

(** The concrete step classes this file downcasts to with [typeid_cast];
    every other operator is [OtherStep]. *)
Inductive StepKind :=
| ReadFromMergeTree
| ReadFromLocalParallelReplicaStep
| OtherStep.

Global Instance StepKind_eq_dec : EqDecision StepKind.
Proof. solve_decision. Defined.

(** Modelled from the spec: the polymorphic step payload (IQueryPlanStep.h is
    not among the sources).  A step is its dynamic class, which rules read by
    downcasting, and an opaque payload that stands for the identity and
    contents of the operator. *)
Record Step := mkStep { step_kind : StepKind; step_payload : N }.

Global Instance Step_eq_dec : EqDecision Step.
Proof. solve_decision. Defined.

(** Modelled from the spec: [QueryPlan::Node] (QueryPlan.h is not among the
    sources), which owns one [step] and holds the ordered [children]. *)
Record Node := mkNode { step : Step; children : list NodeId }.

Global Instance Node_eq_dec : EqDecision Node.
Proof. solve_decision. Defined.

(** [QueryPlan::Nodes], the arena.  An identifier outside the arena stands
    for no C++ object; [children_of] gives it no children. *)
Abbreviation Nodes := (gmap NodeId Node).

Definition children_of (nodes : Nodes) (n : NodeId) : list NodeId :=
  match nodes !! n with
  | Some nd => children nd
  | None => []
  end.

(** [children[i]] under the test [i < children.size()]. *)
Definition child_at (children : list NodeId) (i : N) : option NodeId :=
  if (i <? N.of_nat (length children))%N then children !! N.to_nat i else None.

Definition step_kind_of (nodes : Nodes) (n : NodeId) : option StepKind :=
  step_kind ∘ step <$> nodes !! n.

(** ** Settings *)

(** Modelled from the spec: [Optimization::ExtraSettings] (Optimizations.h is
    not among the sources), the read-only snapshot of four values copied from
    the settings at lines 50-55.  Numeric limits are [N] and the strategy enum
    is kept as its ordinal. *)
Record ExtraSettings := mkExtraSettings {
  extra_max_limit_for_vector_search_queries : N;
  extra_vector_search_filter_strategy : N;
  extra_use_index_for_in_with_subqueries_max_values : N;
  extra_network_transfer_limits : N;
}.

(** Modelled from the spec: [QueryPlanOptimizationSettings]
    (QueryPlanOptimizationSettings.h is not among the sources), the settings
    surface restricted to the members this file reads by name.  The per-rule
    enablement flags, which it reads only through the pointer-to-member
    stored in each [Optimization], are kept in [rule_flags] by field name. *)
Record QueryPlanOptimizationSettings := mkSettings {
  optimize_plan : bool;
  max_optimizations_to_apply : N;
  is_explain : bool;
  max_limit_for_vector_search_queries : N;
  vector_search_filter_strategy : N;
  use_index_for_in_with_subqueries_max_values : N;
  network_transfer_limits : N;
  optimize_prewhere : bool;
  read_in_order : bool;
  distinct_in_order : bool;
  merge_expressions : bool;
  remove_redundant_sorting : bool;
  optimize_projection : bool;
  optimize_use_implicit_projections : bool;
  aggregation_in_order : bool;
  optimize_lazy_materialization : bool;
  max_limit_for_lazy_materialization : N;
  force_use_projection : bool;
  force_projection_name : string;
  query_plan_join_shard_by_pk_ranges : bool;
  rule_flags : string → bool;
}.

Definition with_max_optimizations (k : N) (s : QueryPlanOptimizationSettings)
  : QueryPlanOptimizationSettings :=
  mkSettings (optimize_plan s) k (is_explain s)
    (max_limit_for_vector_search_queries s) (vector_search_filter_strategy s)
    (use_index_for_in_with_subqueries_max_values s) (network_transfer_limits s)
    (optimize_prewhere s) (read_in_order s) (distinct_in_order s)
    (merge_expressions s) (remove_redundant_sorting s) (optimize_projection s)
    (optimize_use_implicit_projections s) (aggregation_in_order s)
    (optimize_lazy_materialization s) (max_limit_for_lazy_materialization s)
    (force_use_projection s) (force_projection_name s)
    (query_plan_join_shard_by_pk_ranges s) (rule_flags s).

Definition with_is_explain (b : bool) (s : QueryPlanOptimizationSettings)
  : QueryPlanOptimizationSettings :=
  mkSettings (optimize_plan s) (max_optimizations_to_apply s) b
    (max_limit_for_vector_search_queries s) (vector_search_filter_strategy s)
    (use_index_for_in_with_subqueries_max_values s) (network_transfer_limits s)
    (optimize_prewhere s) (read_in_order s) (distinct_in_order s)
    (merge_expressions s) (remove_redundant_sorting s) (optimize_projection s)
    (optimize_use_implicit_projections s) (aggregation_in_order s)
    (optimize_lazy_materialization s) (max_limit_for_lazy_materialization s)
    (force_use_projection s) (force_projection_name s)
    (query_plan_join_shard_by_pk_ranges s) (rule_flags s).

Definition extra_settings_of (s : QueryPlanOptimizationSettings) : ExtraSettings :=
  mkExtraSettings
    (max_limit_for_vector_search_queries s)
    (vector_search_filter_strategy s)
    (use_index_for_in_with_subqueries_max_values s)
    (network_transfer_limits s).

(** ** Errors *)

Inductive ErrorCode :=
| INCORRECT_DATA
| TOO_MANY_QUERY_PLAN_OPTIMIZATIONS
| PROJECTION_NOT_USED.

Global Instance ErrorCode_eq_dec : EqDecision ErrorCode.
Proof. solve_decision. Defined.

(** ** Optimisation registry *)

(** A pointer to a [bool] member of the settings: one of the members named
    above, or a per-rule flag. *)
Inductive BoolMember :=
| member_optimize_plan
| member_is_explain
| member_optimize_prewhere
| member_read_in_order
| member_distinct_in_order
| member_merge_expressions
| member_remove_redundant_sorting
| member_optimize_projection
| member_optimize_use_implicit_projections
| member_aggregation_in_order
| member_optimize_lazy_materialization
| member_force_use_projection
| member_query_plan_join_shard_by_pk_ranges
| member_rule_flag (field : string).

(** [settings.*member]. *)
Definition read_member (s : QueryPlanOptimizationSettings) (m : BoolMember) : bool :=
  match m with
  | member_optimize_plan => optimize_plan s
  | member_is_explain => is_explain s
  | member_optimize_prewhere => optimize_prewhere s
  | member_read_in_order => read_in_order s
  | member_distinct_in_order => distinct_in_order s
  | member_merge_expressions => merge_expressions s
  | member_remove_redundant_sorting => remove_redundant_sorting s
  | member_optimize_projection => optimize_projection s
  | member_optimize_use_implicit_projections => optimize_use_implicit_projections s
  | member_aggregation_in_order => aggregation_in_order s
  | member_optimize_lazy_materialization => optimize_lazy_materialization s
  | member_force_use_projection => force_use_projection s
  | member_query_plan_join_shard_by_pk_ranges => query_plan_join_shard_by_pk_ranges s
  | member_rule_flag field => rule_flags s field
  end.

(** Modelled from the spec: the optimization descriptor (enablement-flag
    accessor, apply function, name) of Optimizations.h, one entry of
    [getOptimizations()].  [apply] is a function pointer that may be null; it
    mutates the arena and returns the update depth.  [is_enabled] is the
    pointer-to-member read as
    [optimization_settings.*(optimization.is_enabled)]. *)
Record Optimization := mkOptimization {
  apply : option (NodeId → Nodes → ExtraSettings → N * Nodes);
  name : string;
  is_enabled : BoolMember;
}.

(** ** First pass *)

(** The local [struct Frame] of [optimizeTreeFirstPass]. *)
Record Frame := mkFrame {
  node : NodeId;
  depth_limit : N;
  next_child : N;
}.

(** Observation of a run, kept beside the program state: [EvVisit n] when the
    walker reaches the rule loop for node [n], [EvApply r n d] when rule [r]
    was called on [n] and reported update depth [d]. *)
Inductive Event :=
| EvVisit (n : NodeId)
| EvApply (rule : string) (n : NodeId) (update_depth : N).

Global Instance Event_eq_dec : EqDecision Event.
Proof. solve_decision. Defined.

(** Program state of the first pass: the explicit stack (top first), the
    arena, the budget counter, and the observation trace. *)
Record State := mkState {
  stack : list Frame;
  nodes : Nodes;
  total_applied_optimizations : N;
  trace : list Event;
}.

(** How a loop iteration or the whole function ends. *)
Inductive Outcome :=
| Continue (s : State)
| Return (s : State)
| Throw (code : ErrorCode) (s : State).

(** Result of the [for] loop over the registry (lines 82-107). *)
Inductive LoopResult :=
| LoopDone (max_update_depth : N) (nodes : Nodes) (total : N) (tr : list Event)
| LoopReturn (nodes : Nodes) (total : N) (tr : list Event)
| LoopThrow (code : ErrorCode) (nodes : Nodes) (total : N) (tr : list Event).

(** An entry reaches the budget test and the call when its flag is set and
    its function pointer is not null. *)
Definition active (st : QueryPlanOptimizationSettings) (o : Optimization) : bool :=
  read_member st (is_enabled o) && bool_decide (is_Some (apply o)).

(** The budget test of line 91. *)
Definition budget_exceeded (st : QueryPlanOptimizationSettings) (total : N) : bool :=
  negb (max_optimizations_to_apply st =? 0)%N && (max_optimizations_to_apply st <? total)%N.

Fixpoint apply_optimizations (st : QueryPlanOptimizationSettings)
    (optimizations : list Optimization) (n : NodeId)
    (max_update_depth : N) (nodes : Nodes) (total : N) (tr : list Event) : LoopResult :=
  match optimizations with
  | [] => LoopDone max_update_depth nodes total tr
  | optimization :: rest =>
    if negb (read_member st (is_enabled optimization)) then
      apply_optimizations st rest n max_update_depth nodes total tr
    else
      match apply optimization with
      | None => apply_optimizations st rest n max_update_depth nodes total tr
      | Some f =>
        if budget_exceeded st total then
          if is_explain st then LoopReturn nodes total tr
          else LoopThrow TOO_MANY_QUERY_PLAN_OPTIMIZATIONS nodes total tr
        else
          let '(update_depth, nodes') := f n nodes (extra_settings_of st) in
          let total' := if (update_depth =? 0)%N then total else size_incr total in
          apply_optimizations st rest n (N.max max_update_depth update_depth)
            nodes' total' (tr ++ [EvApply (name optimization) n update_depth])
      end
  end.

(** The child to descend into, if the frame descends: lines 63-70. *)
Definition next_unvisited_child (nodes : Nodes) (frame : Frame) : option NodeId :=
  if (depth_limit frame =? 1)%N then None
  else child_at (children_of nodes (node frame)) (next_child frame).

(** The frame pushed for a child: line 71. *)
Definition child_frame (frame : Frame) (child : NodeId) : Frame :=
  mkFrame child
    (if (depth_limit frame =? 0)%N then 0%N else (depth_limit frame - 1)%N)
    0%N.

(** One iteration of the [while (!stack.empty())] loop (lines 57-119).
    [++frame.next_child] cannot wrap: it runs under
    [next_child < children.size()]. *)
Definition step_first_pass (st : QueryPlanOptimizationSettings)
    (optimizations : list Optimization) (s : State) : Outcome :=
  match stack s with
  | [] => Return s
  | frame :: below =>
    match next_unvisited_child (nodes s) frame with
    | Some child =>
      Continue (mkState
        (child_frame frame child
          :: mkFrame (node frame) (depth_limit frame) (next_child frame + 1)%N
          :: below)
        (nodes s) (total_applied_optimizations s) (trace s))
    | None =>
      match apply_optimizations st optimizations (node frame) 0%N (nodes s)
              (total_applied_optimizations s) (trace s ++ [EvVisit (node frame)]) with
      | LoopReturn nodes' total' tr' => Return (mkState (stack s) nodes' total' tr')
      | LoopThrow code nodes' total' tr' => Throw code (mkState (stack s) nodes' total' tr')
      | LoopDone max_update_depth nodes' total' tr' =>
        if (max_update_depth =? 0)%N then
          Continue (mkState below nodes' total' tr')
        else
          Continue (mkState (mkFrame (node frame) max_update_depth 0%N :: below)
                      nodes' total' tr')
      end
    end
  end.

(** Result of a run with fuel. *)
Inductive Result :=
| Returned (s : State)
| Thrown (code : ErrorCode) (s : State)
| OutOfFuel (s : State).

Fixpoint run_first_pass (st : QueryPlanOptimizationSettings)
    (optimizations : list Optimization) (fuel : nat) (s : State) : Result :=
  match fuel with
  | O => OutOfFuel s
  | S fuel' =>
    match step_first_pass st optimizations s with
    | Continue s' => run_first_pass st optimizations fuel' s'
    | Return s' => Returned s'
    | Throw code s' => Thrown code s'
    end
  end.

(** The state entered at line 44-47. *)
Definition initial_state (root : NodeId) (nodes : Nodes) : State :=
  mkState [mkFrame root 0%N 0%N] nodes 0%N [].

(** [optimizeTreeFirstPass]; the registry returned by [getOptimizations()] is
    an argument.  The test of line 26 comes before the loop and uses no fuel. *)
Definition optimizeTreeFirstPass (optimizations : list Optimization)
    (st : QueryPlanOptimizationSettings) (root : NodeId) (nodes : Nodes)
    (fuel : nat) : Result :=
  if negb (optimize_plan st) then Returned (mkState [] nodes 0%N [])
  else run_first_pass st optimizations fuel (initial_state root nodes).

(** ** Second pass *)

Module Second.

(** Modelled from the spec: [struct Frame] and [Stack] of Optimizations.h
    (not among the sources), as this file uses them: a node reference and the
    index of the next child to visit.  The back of the vector is the head of
    the list. *)
Record Frame := mkFrame {
  node : NodeId;
  next_child : N;
}.

Abbreviation Stack := (list Frame).

(** Observation of a run of the second pass. *)
Inductive Event :=
| EvReplaceNodeWithPlan (n : NodeId)
| EvRemoveRedundantSorting (root : NodeId)
| EvAggregateProjection (n : NodeId) (applied : option string)
| EvNormalProjection (applied : option string)
| EvLazyMaterialization (n : NodeId) (applied : bool).

Global Instance Event_eq_dec : EqDecision Event.
Proof. solve_decision. Defined.

(** The functions of the optimisation library that the second pass calls and
    that are not among the sources, taken as parameters.  Each is a
    transformer of what it receives by mutable reference: the arena for those
    given a node, the stack as well for those given the stack.  [optimize] is
    [QueryPlan::optimize] on an extracted local plan, which can throw. *)
Record Collaborators := mkCollaborators {
  LocalPlan : Type;
  RhsEstimation : Type;
  optimizePrimaryKeyConditionAndLimit : Stack → Nodes → Nodes;
  updateQueryConditionCache : Stack → QueryPlanOptimizationSettings → Nodes → Nodes;
  optimizePrewhere : Stack → Nodes → Stack * Nodes;
  calculateHashTableCacheKeys : NodeId → Nodes → Nodes;
  optimizeJoinLogical :
    NodeId → Nodes → QueryPlanOptimizationSettings → RhsEstimation * Nodes;
  convertLogicalJoinToPhysical :
    NodeId → Nodes → QueryPlanOptimizationSettings → RhsEstimation → bool * Nodes;
  optimizeJoinLegacy : NodeId → Nodes → QueryPlanOptimizationSettings → Nodes;
  optimizeReadInOrder : NodeId → Nodes → Nodes;
  optimizeDistinctInOrder : NodeId → Nodes → Nodes;
  extractQueryPlan : Step → LocalPlan;
  optimize : QueryPlanOptimizationSettings → LocalPlan → ErrorCode + LocalPlan;
  replaceNodeWithPlan : NodeId → LocalPlan → Nodes → Nodes;
  tryMergeExpressions : NodeId → Nodes → N * Nodes;
  tryRemoveRedundantSorting : NodeId → Nodes → Nodes;
  optimizeUseAggregateProjections : NodeId → Nodes → bool → option string * Nodes;
  optimizeAggregationInOrder : NodeId → Nodes → Nodes;
  optimizeUseNormalProjections : Stack → Nodes → option string * Stack * Nodes;
  optimizeLazyMaterialization : NodeId → Stack → Nodes → N → bool * Stack * Nodes;
  applyOrder : QueryPlanOptimizationSettings → NodeId → Nodes → Nodes;
  optimizeJoinByShards : NodeId → Nodes → Nodes;
}.

(** Program state: the stack, the arena, and the three locals that live
    across phases, with the observation trace. *)
Record State := mkState {
  stack : Stack;
  nodes : Nodes;
  applied_projection_names : gset string;
  has_reading_from_mt : bool;
  read_from_local_parallel_replica_plan : bool;
  trace : list Event;
}.

Definition set_stack (stk : Stack) (s : State) : State :=
  mkState stk (nodes s) (applied_projection_names s) (has_reading_from_mt s)
    (read_from_local_parallel_replica_plan s) (trace s).

Definition set_nodes (nds : Nodes) (s : State) : State :=
  mkState (stack s) nds (applied_projection_names s) (has_reading_from_mt s)
    (read_from_local_parallel_replica_plan s) (trace s).

Definition add_event (e : Event) (s : State) : State :=
  mkState (stack s) (nodes s) (applied_projection_names s) (has_reading_from_mt s)
    (read_from_local_parallel_replica_plan s) (trace s ++ [e]).

Definition insert_name (o : option string) (s : State) : State :=
  match o with
  | Some nm =>
    mkState (stack s) (nodes s) ({[nm]} ∪ applied_projection_names s)
      (has_reading_from_mt s) (read_from_local_parallel_replica_plan s) (trace s)
  | None => s
  end.

(** How one loop iteration ends: [continue] or falling to the loop test,
    leaving the loop, or throwing. *)
Inductive Outcome :=
| Continue (s : State)
| Break (s : State)
| Throw (code : ErrorCode) (s : State).

Inductive Result :=
| Finished (s : State)
| Thrown (code : ErrorCode) (s : State)
| OutOfFuel (s : State).

(** A [while (!stack.empty())] loop whose body is [body]. *)
Fixpoint run_loop (body : State → Outcome) (fuel : nat) (s : State) : Result :=
  match stack s with
  | [] => Finished s
  | _ :: _ =>
    match fuel with
    | O => OutOfFuel s
    | S fuel' =>
      match body s with
      | Continue s' => run_loop body fuel' s'
      | Break s' => Finished s'
      | Throw code s' => Thrown code s'
      end
    end
  end.

(** The block under "Traverse all children first": the state after pushing
    the next child, if there is one.  As in the first pass the increment of
    [next_child] runs under [next_child < children.size()]. *)
Definition push_next_child (s : State) : option State :=
  match stack s with
  | [] => None
  | frame :: below =>
    match child_at (children_of (nodes s) (node frame)) (next_child frame) with
    | Some child =>
      Some (set_stack (mkFrame child 0%N
                        :: mkFrame (node frame) (next_child frame + 1)%N
                        :: below) s)
    | None => None
    end
  end.

(** [stack.pop_back()]. *)
Definition pop_back (s : State) : State := set_stack (tail (stack s)) s.

(** [stack.push_back({.node = &root})]. *)
Definition push_root (root : NodeId) (s : State) : State :=
  set_stack (mkFrame root 0%N :: stack s) s.

Section Drivers.
Context (ext : Collaborators).
Context (st : QueryPlanOptimizationSettings).
Context (root : NodeId).

(** Lines 132-155. *)
Definition body_primary_key (s : State) : Outcome :=
  let s1 := set_nodes (optimizePrimaryKeyConditionAndLimit ext (stack s) (nodes s)) s in
  let s2 := set_nodes (updateQueryConditionCache ext (stack s1) st (nodes s1)) s1 in
  let s3 :=
    if optimize_prewhere st then
      let '(stk, nds) := optimizePrewhere ext (stack s2) (nodes s2) in
      set_nodes nds (set_stack stk s2)
    else s2 in
  match push_next_child s3 with
  | Some s4 => Continue s4
  | None => Continue (pop_back s3)
  end.

(** Lines 160-188. *)
Definition body_joins (s : State) : Outcome :=
  match stack s with
  | [] => Break s
  | frame :: _ =>
    let s1 :=
      if (next_child frame =? 0)%N then
        let '(rhs_estimation, nds1) := optimizeJoinLogical ext (node frame) (nodes s) st in
        let '(has_join_logical, nds2) :=
          convertLogicalJoinToPhysical ext (node frame) nds1 st rhs_estimation in
        let nds3 :=
          if negb has_join_logical then optimizeJoinLegacy ext (node frame) nds2 st
          else nds2 in
        let nds4 :=
          if read_in_order st then optimizeReadInOrder ext (node frame) nds3 else nds3 in
        let nds5 :=
          if distinct_in_order st then optimizeDistinctInOrder ext (node frame) nds4
          else nds4 in
        set_nodes nds5 s
      else s in
    match push_next_child s1 with
    | Some s2 => Continue s2
    | None => Continue (pop_back s1)
    end
  end.

(** Lines 193-222. *)
Definition body_local_replica (s : State) : Outcome :=
  match push_next_child s with
  | Some s1 => Continue s1
  | None =>
    match stack s with
    | [] => Break s
    | frame :: _ =>
      match nodes s !! node frame with
      | Some nd =>
        if decide (step_kind (step nd) = ReadFromLocalParallelReplicaStep) then
          let s1 :=
            mkState (stack s) (nodes s) (applied_projection_names s)
              (has_reading_from_mt s) true (trace s) in
          match optimize ext st (extractQueryPlan ext (step nd)) with
          | inl code => Throw code s1
          | inr local_plan =>
            let s2 :=
              add_event (EvReplaceNodeWithPlan (node frame))
                (set_nodes (replaceNodeWithPlan ext (node frame) local_plan (nodes s1)) s1) in
            let s3 :=
              if merge_expressions st then
                set_nodes (snd (tryMergeExpressions ext (node frame) (nodes s2))) s2
              else s2 in
            Continue (pop_back s3)
          end
        else Continue (pop_back s)
      | None => Continue (pop_back s)
      end
    end
  end.

(** Lines 224-225. *)
Definition remove_redundant_sorting_after_splice (s : State) : State :=
  if read_from_local_parallel_replica_plan s && remove_redundant_sorting st then
    add_event (EvRemoveRedundantSorting root)
      (set_nodes (tryRemoveRedundantSorting ext root (nodes s)) s)
  else s.

(** The size of [applied_projection_names] against the limit, line 269. *)
Definition projection_budget_exceeded (names : gset string) : bool :=
  negb (max_optimizations_to_apply st =? 0)%N
  && (max_optimizations_to_apply st <? N.of_nat (size names))%N.

(** [--stack.back().next_child], line 280. *)
Definition decrement_back (s : State) : State :=
  match stack s with
  | [] => s
  | frame :: below =>
    set_stack (mkFrame (node frame) (size_decr (next_child frame)) :: below) s
  end.

(** Lines 236-250: the work done on a frame when [next_child == 0]. *)
Definition first_visit_projections (frame : Frame) (s : State) : State :=
  let is_mt :=
    bool_decide (step_kind_of (nodes s) (node frame) = Some ReadFromMergeTree) in
  let s1 :=
    mkState (stack s) (nodes s) (applied_projection_names s)
      (has_reading_from_mt s || is_mt) (read_from_local_parallel_replica_plan s)
      (trace s) in
  let s2 :=
    if optimize_projection st then
      let '(applied_projection, nds) :=
        optimizeUseAggregateProjections ext (node frame) (nodes s1)
          (optimize_use_implicit_projections st) in
      insert_name applied_projection
        (add_event (EvAggregateProjection (node frame) applied_projection)
          (set_nodes nds s1))
    else s1 in
  if aggregation_in_order st then
    set_nodes (optimizeAggregationInOrder ext (node frame) (nodes s2)) s2
  else s2.

(** Lines 230-286. *)
Definition body_projections (s : State) : Outcome :=
  match stack s with
  | [] => Break s
  | frame :: _ =>
    let s1 := if (next_child frame =? 0)%N then first_visit_projections frame s else s in
    match push_next_child s1 with
    | Some s2 => Continue s2
    | None =>
      if optimize_projection st then
        let '(applied_projection, stk, nds) :=
          optimizeUseNormalProjections ext (stack s1) (nodes s1) in
        let s2 :=
          add_event (EvNormalProjection applied_projection)
            (set_nodes nds (set_stack stk s1)) in
        match applied_projection with
        | Some _ =>
          let s3 := insert_name applied_projection s2 in
          if projection_budget_exceeded (applied_projection_names s3) then
            if negb (is_explain st) then Throw TOO_MANY_QUERY_PLAN_OPTIMIZATIONS s3
            else Continue (decrement_back s3)
          else Continue (decrement_back s3)
        | None => Continue (pop_back s2)
        end
      else Continue (pop_back s1)
    end
  end.

(** Lines 294-314. *)
Definition body_lazy_materialization (s : State) : Outcome :=
  match stack s with
  | [] => Break s
  | frame :: _ =>
    let attempt :=
      if (next_child frame =? 0)%N then
        let '(applied, stk, nds) :=
          optimizeLazyMaterialization ext root (stack s) (nodes s)
            (max_limit_for_lazy_materialization st) in
        (applied,
         add_event (EvLazyMaterialization (node frame) applied)
           (set_nodes nds (set_stack stk s)))
      else (false, s) in
    if attempt.1 then Break attempt.2
    else
      match push_next_child attempt.2 with
      | Some s2 => Continue s2
      | None => Continue (pop_back attempt.2)
      end
  end.

(** Lines 317-326: the two requirement checks, in order. *)
Definition check_forced_projection (s : State) : option ErrorCode :=
  if force_use_projection st && has_reading_from_mt s
     && bool_decide (applied_projection_names s = ∅) then
    Some PROJECTION_NOT_USED
  else if negb (String.eqb (force_projection_name st) "") && has_reading_from_mt s
          && negb (bool_decide (force_projection_name st ∈ applied_projection_names s)) then
    Some INCORRECT_DATA
  else None.

(** Lines 329-332. *)
Definition apply_order_and_shards (s : State) : State :=
  let s1 := set_nodes (applyOrder ext st root (nodes s)) s in
  if query_plan_join_shard_by_pk_ranges st then
    set_nodes (optimizeJoinByShards ext root (nodes s1)) s1
  else s1.

(** Sequencing of phases: the next phase runs on the state the previous one
    finished with. *)
Definition and_then (r : Result) (k : State → Result) : Result :=
  match r with
  | Finished s => k s
  | Thrown code s => Thrown code s
  | OutOfFuel s => OutOfFuel s
  end.

(** Lines 290-315. *)
Definition phase_lazy_materialization (fuel : nat) (s : State) : Result :=
  if optimize_lazy_materialization st then
    run_loop body_lazy_materialization fuel (push_root root s)
  else Finished s.

(** Lines 228-286. *)
Definition phase_projections (fuel : nat) (s : State) : Result :=
  run_loop body_projections fuel (push_root root s).

(** Lines 190-225; the flag is declared, false, at line 191. *)
Definition phase_local_replica (fuel : nat) (s : State) : Result :=
  let s0 :=
    mkState (stack s) (nodes s) (applied_projection_names s)
      (has_reading_from_mt s) false (trace s) in
  and_then (run_loop body_local_replica fuel (push_root root s0))
    (λ s', Finished (remove_redundant_sorting_after_splice s')).

(** Lines 317-332. *)
Definition finish_second_pass (s : State) : Result :=
  match check_forced_projection s with
  | Some code => Thrown code s
  | None => Finished (apply_order_and_shards s)
  end.

(** Lines 125-315: the traversals, every loop with [fuel] iterations. *)
Definition traversal_phases (nds : Nodes) (fuel : nat) : Result :=
  let s0 := mkState [mkFrame root 0%N] nds ∅ false false [] in
  and_then (run_loop body_primary_key fuel s0) (λ s1,
  let s2 := set_nodes (calculateHashTableCacheKeys ext root (nodes s1)) s1 in
  and_then (run_loop body_joins fuel (push_root root s2)) (λ s3,
  and_then (phase_local_replica fuel s3) (λ s4,
  and_then (phase_projections fuel s4)
    (phase_lazy_materialization fuel)))).

(** [optimizeTreeSecondPass]. *)
Definition optimizeTreeSecondPass (nds : Nodes) (fuel : nat) : Result :=
  and_then (traversal_phases nds fuel) finish_second_pass.

End Drivers.

End Second.

(** ** Finite trees, runs and traces *)

(** A finite ordered tree of node identifiers. *)
Unset Elimination Schemes.
Inductive PlanTree := PNode (id : NodeId) (subtrees : list PlanTree).
Set Elimination Schemes.

Definition tree_root (t : PlanTree) : NodeId :=
  match t with PNode n _ => n end.

(** The arena holds the tree [t] below [tree_root t]: at every node of [t]
    the children list of the arena is the list of the roots of the subtrees,
    in order. *)
Fixpoint represents (nodes : Nodes) (t : PlanTree) : bool :=
  match t with
  | PNode n ts =>
    bool_decide (children_of nodes n = map tree_root ts) && forallb (represents nodes) ts
  end.

(** Children before their parent, siblings left to right. *)
Fixpoint postorder (t : PlanTree) : list NodeId :=
  match t with
  | PNode n ts => flat_map postorder ts ++ [n]
  end.

(** The nodes of a tree, parent first. *)
Fixpoint tree_nodes (t : PlanTree) : list NodeId :=
  match t with
  | PNode n ts => n :: flat_map tree_nodes ts
  end.

(** The pairs (parent, child) of a tree. *)
Fixpoint tree_edges (t : PlanTree) : list (NodeId * NodeId) :=
  match t with
  | PNode n ts => map (λ c, (n, tree_root c)) ts ++ flat_map tree_edges ts
  end.

(** Every node of the arena unfolds to a finite tree: no cycle is reachable
    through [children]. *)
Definition finite_plan (nodes : Nodes) : Prop :=
  ∀ n, ∃ t, tree_root t = n ∧ represents nodes t = true.

(** The state after [k] iterations that all reached the loop test again. *)
Fixpoint run_steps (st : QueryPlanOptimizationSettings)
    (optimizations : list Optimization) (k : nat) (s : State) : option State :=
  match k with
  | O => Some s
  | S k' =>
    match step_first_pass st optimizations s with
    | Continue s' => run_steps st optimizations k' s'
    | _ => None
    end
  end.

(** The nodes whose rule loop was entered, in order. *)
Definition visits (tr : list Event) : list NodeId :=
  flat_map (λ e, match e with EvVisit n => [n] | EvApply _ _ _ => [] end) tr.

(** The update depths reported, in order. *)
Definition reported_depths (tr : list Event) : list N :=
  flat_map (λ e, match e with EvVisit _ => [] | EvApply _ _ d => [d] end) tr.

(** The number of rule applications that reported a change. *)
Definition changes (tr : list Event) : nat :=
  length (List.filter (λ d, negb (d =? 0)%N) (reported_depths tr)).

(** The largest update depth reported, 0 if none. *)
Definition max_reported (tr : list Event) : N :=
  foldr N.max 0%N (reported_depths tr).

(** The rule loop of one visit in the spec's words, the budget set aside:
    each entry whose flag is set and whose function is initialised is applied
    to the node, in registry order, on the arena the entries before it left.
    The result lists what each applied rule reported and gives the arena
    after the last of them. *)
Fixpoint applied_rules (st : QueryPlanOptimizationSettings)
    (optimizations : list Optimization) (n : NodeId) (nodes : Nodes)
  : list Event * Nodes :=
  match optimizations with
  | [] => ([], nodes)
  | optimization :: rest =>
    match (if read_member st (is_enabled optimization) then apply optimization else None) with
    | Some f =>
      let reported := f n nodes (extra_settings_of st) in
      let later := applied_rules st rest n reported.2 in
      (EvApply (name optimization) n reported.1 :: later.1, later.2)
    | None => applied_rules st rest n nodes
    end
  end.

(** The budget counter after the reports of [evs]: one increment for each
    nonzero update depth. *)
Definition counted (total : N) (evs : list Event) : N :=
  foldl (λ t d, if (d =? 0)%N then t else size_incr t) total (reported_depths evs).

(** What a visit of [n] records when every active rule reports 0. *)
Definition quiet_events (st : QueryPlanOptimizationSettings)
    (optimizations : list Optimization) (n : NodeId) : list Event :=
  EvVisit n :: map (λ o, EvApply (name o) n 0%N) (List.filter (active st) optimizations).

Fixpoint postorder_events (st : QueryPlanOptimizationSettings)
    (optimizations : list Optimization) (t : PlanTree) : list Event :=
  match t with
  | PNode n ts =>
    flat_map (postorder_events st optimizations) ts ++ quiet_events st optimizations n
  end.

(** The state a result carries. *)
Definition final_state (r : Result) : State :=
  match r with
  | Returned s | Thrown _ s | OutOfFuel s => s
  end.

(** The pass came to an end: by emptying the stack, or by the budget test
    (which needs a nonzero limit). *)
Definition halted (st : QueryPlanOptimizationSettings) (r : Result) : Prop :=
  match r with
  | Returned s => stack s = [] ∨ (max_optimizations_to_apply st ≠ 0%N ∧ is_explain st = true)
  | Thrown code _ =>
    code = TOO_MANY_QUERY_PLAN_OPTIMIZATIONS
    ∧ max_optimizations_to_apply st ≠ 0%N ∧ is_explain st = false
  | OutOfFuel _ => False
  end.

(** The contract of a rule set on the arenas it can meet: a rule keeps the
    plan a finite tree, and leaves the arena as it is when it reports 0. *)
Definition rule_contract (st : QueryPlanOptimizationSettings)
    (optimizations : list Optimization) : Prop :=
  ∀ o f n nds,
    o ∈ optimizations → apply o = Some f → finite_plan nds →
    finite_plan (f n nds (extra_settings_of st)).2
    ∧ ((f n nds (extra_settings_of st)).1 = 0%N → (f n nds (extra_settings_of st)).2 = nds).

(** In the run from [root] on [nds] the rules report a nonzero update depth
    at most [bound] times: from some point on every rule reports 0 at every
    node. *)
Definition changes_bounded (st : QueryPlanOptimizationSettings)
    (optimizations : list Optimization) (root : NodeId) (nds : Nodes) (bound : nat) : Prop :=
  ∀ k s,
    run_steps st optimizations k (initial_state root nds) = Some s →
    changes (trace s) ≤ bound.

(** A sufficient condition on the rules alone: besides the contract, every
    nonzero report lowers the potential [mu]. *)
Definition well_behaved (st : QueryPlanOptimizationSettings)
    (optimizations : list Optimization) (mu : Nodes → nat) : Prop :=
  ∀ o f n nds,
    o ∈ optimizations → apply o = Some f → finite_plan nds →
    finite_plan (f n nds (extra_settings_of st)).2
    ∧ ((f n nds (extra_settings_of st)).1 = 0%N → (f n nds (extra_settings_of st)).2 = nds)
    ∧ ((f n nds (extra_settings_of st)).1 ≠ 0%N →
       mu (f n nds (extra_settings_of st)).2 < mu nds).

(** Every active rule reports 0 on the arena [nds], at every node, and leaves
    it as it is. *)
Definition all_report_zero (st : QueryPlanOptimizationSettings)
    (optimizations : list Optimization) (nds : Nodes) : Prop :=
  ∀ o f n,
    o ∈ optimizations → active st o = true → apply o = Some f →
    f n nds (extra_settings_of st) = (0%N, nds).

(** [x] occurs in [l] at an earlier position than some occurrence of [y]. *)
Definition processed_before (x y : NodeId) (l : list NodeId) : Prop :=
  ∃ l1 l2 l3, l = l1 ++ x :: l2 ++ y :: l3.

(** What the budget test of the first pass leaves behind when it fires: one
    change more than the limit, and a return in explain mode, the exception
    otherwise. *)
Definition stopped_by_budget (st : QueryPlanOptimizationSettings) (r : Result) : Prop :=
  ∃ s, N.of_nat (changes (trace s)) = (max_optimizations_to_apply st + 1)%N
       ∧ r = if is_explain st then Returned s
             else Thrown TOO_MANY_QUERY_PLAN_OPTIMIZATIONS s.

(** The invariant of a run under a nonzero limit: the counter is the number
    of recorded changes, it is at most one above the limit, and when it is
    above the limit some entry is active and the top frame is in a bounded
    descent. *)
Definition within_budget (st : QueryPlanOptimizationSettings)
    (optimizations : list Optimization) (s : State) : Prop :=
  total_applied_optimizations s = N.of_nat (changes (trace s))
  ∧ (total_applied_optimizations s ≤ max_optimizations_to_apply st + 1)%N
  ∧ (total_applied_optimizations s = (max_optimizations_to_apply st + 1)%N →
     existsb (active st) optimizations = true
     ∧ ∃ frame below, stack s = frame :: below ∧ depth_limit frame ≠ 0%N).

(** ** A small plan and a rule that changes each node once *)

(** A two-node plan: an expression step (node 0) over a merge-tree scan
    (node 1). *)
Definition example_plan : Nodes :=
  <[0 := mkNode (mkStep OtherStep 0%N) [1]]>
    (<[1 := mkNode (mkStep ReadFromMergeTree 0%N) []]> ∅).

Definition example_tree : PlanTree := PNode 0 [PNode 1 []].

(** Settings with the plan optimised, no limit, every flag set and no forced
    projection. *)
Definition example_settings : QueryPlanOptimizationSettings :=
  mkSettings true 0%N false 0%N 0%N 0%N 0%N true true true true true true true true
    true 10%N false "" false (λ _, true).

(** A rule that rewrites the step of a node the first time it meets it
    (payload 0 becomes 1), reporting update depth 1, and reports 0 on a node
    it has already rewritten. *)
Definition mark_once (n : NodeId) (nds : Nodes) (_ : ExtraSettings) : N * Nodes :=
  match nds !! n with
  | Some nd =>
    if (step_payload (step nd) =? 0)%N then
      (1%N, <[n := mkNode (mkStep (step_kind (step nd)) 1%N) (children nd)]> nds)
    else (0%N, nds)
  | None => (0%N, nds)
  end.

Definition mark_rule : Optimization :=
  mkOptimization (Some mark_once) "markOnce" (member_rule_flag "mark_once").

(** A rule that rewrites a node [mark_once] has rewritten (payload 1 becomes
    2), reporting update depth 3, and reports 0 on any other node. *)
Definition mark_deep (n : NodeId) (nds : Nodes) (_ : ExtraSettings) : N * Nodes :=
  match nds !! n with
  | Some nd =>
    if (step_payload (step nd) =? 1)%N then
      (3%N, <[n := mkNode (mkStep (step_kind (step nd)) 2%N) (children nd)]> nds)
    else (0%N, nds)
  | None => (0%N, nds)
  end.

Definition deep_rule : Optimization :=
  mkOptimization (Some mark_deep) "markDeep" (member_rule_flag "mark_deep").

(** A rule that never changes anything. *)
Definition idle_rule : Optimization :=
  mkOptimization (Some (λ _ nds _, (0%N, nds))) "idle" (member_rule_flag "idle").

(** The number of nodes [mark_once] has not rewritten yet. *)
Definition unmarked (nds : Nodes) : nat :=
  size (filter (λ kv : NodeId * Node, step_payload (step kv.2) = 0%N) nds).

(** The example settings with a limit of one optimisation, in normal and in
    explain mode. *)
Definition limit_one_settings : QueryPlanOptimizationSettings :=
  with_max_optimizations 1%N example_settings.

Definition limit_one_explain_settings : QueryPlanOptimizationSettings :=
  with_is_explain true limit_one_settings.

(** From [s] the walker gets the top frame off the stack (reaching [target])
    with the arena, the counter and the number of changes as they were, or
    some rule reports a change, or the pass ends. *)
Definition advances (st : QueryPlanOptimizationSettings)
    (optimizations : list Optimization) (s : State) (target : list Frame) : Prop :=
  ∃ k,
    (∃ s', run_steps st optimizations k s = Some s'
           ∧ stack s' = target ∧ nodes s' = nodes s
           ∧ total_applied_optimizations s' = total_applied_optimizations s
           ∧ changes (trace s') = changes (trace s))
    ∨ (∃ s', run_steps st optimizations k s = Some s'
             ∧ finite_plan (nodes s') ∧ changes (trace s) < changes (trace s'))
    ∨ halted st (run_first_pass st optimizations k s).

(** The example settings with the master switch off, and with every per-rule
    flag off. *)
Definition plan_off_settings : QueryPlanOptimizationSettings :=
  mkSettings false 0%N false 0%N 0%N 0%N 0%N true true true true true true true true
    true 10%N false "" false (λ _, true).

Definition rules_off_settings : QueryPlanOptimizationSettings :=
  mkSettings true 0%N false 0%N 0%N 0%N 0%N true true true true true true true true
    true 10%N false "" false (λ _, false).

(** ** Vocabulary for the second pass *)

Module SecondSpec.
Import Second.

Definition outcome_state (o : Outcome) : State :=
  match o with
  | Continue s | Break s | Throw _ s => s
  end.

Definition final_state (r : Result) : State :=
  match r with
  | Finished s | Thrown _ s | OutOfFuel s => s
  end.

(** The phase that records an event: 4 the local-replica phase, 5 the
    projection phase, 6 lazy materialization. *)
Definition phase_of (e : Event) : nat :=
  match e with
  | EvReplaceNodeWithPlan _ | EvRemoveRedundantSorting _ => 4
  | EvAggregateProjection _ _ | EvNormalProjection _ => 5
  | EvLazyMaterialization _ _ => 6
  end.

(** The answers of [optimizeLazyMaterialization], in order. *)
Definition lazy_attempts (tr : list Event) : list bool :=
  flat_map (λ e, match e with EvLazyMaterialization _ b => [b] | _ => [] end) tr.

(** How many times the lazy-materialization rewrite was applied. *)
Definition lazy_applications (tr : list Event) : nat :=
  length (List.filter id (lazy_attempts tr)).

Global Arguments lazy_applications : simpl never.

(** Some local-replica read was replaced by its plan. *)
Definition spliced (tr : list Event) : bool :=
  existsb (λ e, match e with EvReplaceNodeWithPlan _ => true | _ => false end) tr.

(** The extra pass of [tryRemoveRedundantSorting] ran. *)
Definition sorting_removed (tr : list Event) : bool :=
  existsb (λ e, match e with EvRemoveRedundantSorting _ => true | _ => false end) tr.

(** The normal projections applied, in order. *)
Definition normal_projections (tr : list Event) : list string :=
  flat_map (λ e, match e with EvNormalProjection (Some nm) => [nm] | _ => [] end) tr.

(** Collaborators that change nothing: no projection, no lazy
    materialization; a local plan is the step payload it was extracted from,
    and splicing it puts a plain leaf step in place of the read. *)
Definition idle_collaborators : Collaborators :=
  mkCollaborators N unit
    (λ _ nds, nds) (λ _ _ nds, nds) (λ stk nds, (stk, nds)) (λ _ nds, nds)
    (λ _ nds _, (tt, nds)) (λ _ nds _ _, (false, nds)) (λ _ nds _, nds)
    (λ _ nds, nds) (λ _ nds, nds)
    step_payload (λ _ p, inr p)
    (λ n p nds, <[n := mkNode (mkStep OtherStep p) []]> nds)
    (λ _ nds, (0%N, nds)) (λ _ nds, nds)
    (λ _ nds _, (None, nds)) (λ _ nds, nds)
    (λ stk nds, (None, stk, nds))
    (λ _ stk nds _, (false, stk, nds))
    (λ _ _ nds, nds) (λ _ nds, nds).

(** A normal-projection collaborator for the root of the example plan: each
    time the root frame has walked its child it applies the next of three
    projections, counted in the payload of the root step. *)
Definition three_projections (stk : Stack) (nds : Nodes) : option string * Stack * Nodes :=
  match stk with
  | frame :: _ =>
    match nds !! node frame with
    | Some nd =>
      if decide (node frame = 0 ∧ (step_payload (step nd) < 3)%N) then
        (Some (String.append "p" (if (step_payload (step nd) =? 0)%N then "0"
                                  else if (step_payload (step nd) =? 1)%N then "1"
                                  else "2")),
         stk,
         <[node frame := mkNode (mkStep (step_kind (step nd)) (step_payload (step nd) + 1)%N)
                           (children nd)]> nds)
      else (None, stk, nds)
    | None => (None, stk, nds)
    end
  | [] => (None, stk, nds)
  end.

Definition projecting_collaborators : Collaborators :=
  mkCollaborators N unit
    (λ _ nds, nds) (λ _ _ nds, nds) (λ stk nds, (stk, nds)) (λ _ nds, nds)
    (λ _ nds _, (tt, nds)) (λ _ nds _ _, (false, nds)) (λ _ nds _, nds)
    (λ _ nds, nds) (λ _ nds, nds)
    step_payload (λ _ p, inr p)
    (λ n p nds, <[n := mkNode (mkStep OtherStep p) []]> nds)
    (λ _ nds, (0%N, nds)) (λ _ nds, nds)
    (λ _ nds _, (None, nds)) (λ _ nds, nds)
    three_projections
    (λ _ stk nds _, (false, stk, nds))
    (λ _ _ nds, nds) (λ _ nds, nds).

(** Collaborators whose lazy materialization succeeds when the frame on top
    is for node 1. *)
Definition lazy_collaborators : Collaborators :=
  mkCollaborators N unit
    (λ _ nds, nds) (λ _ _ nds, nds) (λ stk nds, (stk, nds)) (λ _ nds, nds)
    (λ _ nds _, (tt, nds)) (λ _ nds _ _, (false, nds)) (λ _ nds _, nds)
    (λ _ nds, nds) (λ _ nds, nds)
    step_payload (λ _ p, inr p)
    (λ n p nds, <[n := mkNode (mkStep OtherStep p) []]> nds)
    (λ _ nds, (0%N, nds)) (λ _ nds, nds)
    (λ _ nds _, (None, nds)) (λ _ nds, nds)
    (λ stk nds, (None, stk, nds))
    (λ _ stk nds _,
       (match stk with frame :: _ => bool_decide (node frame = 1) | [] => false end, stk, nds))
    (λ _ _ nds, nds) (λ _ nds, nds).

(** The projection phase about to apply its second projection under a limit
    of one: the root frame has walked its child, one projection is applied. *)
Definition second_projection_state : State :=
  mkState [mkFrame 0 1%N]
    (<[0 := mkNode (mkStep OtherStep 1%N) [1]]> example_plan)
    {["p0"]} true false [].

(** The example settings with [force_use_projection] set. *)
Definition forced_projection_settings : QueryPlanOptimizationSettings :=
  mkSettings true 0%N false 0%N 0%N 0%N 0%N true true true true true true true true
    true 10%N true "" false (λ _, true).

(** An expression step over a local-replica read. *)
Definition replica_plan : Nodes :=
  <[0 := mkNode (mkStep OtherStep 0%N) [1]]>
    (<[1 := mkNode (mkStep ReadFromLocalParallelReplicaStep 5%N) []]> ∅).

(** The node holds a local-replica read. *)
Definition is_local_replica_read (nds : Nodes) (n : NodeId) : bool :=
  bool_decide (step_kind_of nds n = Some ReadFromLocalParallelReplicaStep).

(** Lines 205-219 on one node, when the local plan optimises without error:
    the arena after the read at [n], if it is one, was replaced by its
    optimised plan and the expressions merged. *)
Definition splice_node (ext : Collaborators) (st : QueryPlanOptimizationSettings)
    (n : NodeId) (nds : Nodes) : Nodes :=
  match nds !! n with
  | Some nd =>
    if decide (step_kind (step nd) = ReadFromLocalParallelReplicaStep) then
      match optimize ext st (extractQueryPlan ext (step nd)) with
      | inr local_plan =>
        let nds1 := replaceNodeWithPlan ext n local_plan nds in
        if merge_expressions st then (tryMergeExpressions ext n nds1).2 else nds1
      | inl _ => nds
      end
    else nds
  | None => nds
  end.

(** The arena after the nodes of [l] were spliced in order. *)
Definition spliced_nodes (ext : Collaborators) (st : QueryPlanOptimizationSettings)
    (nds : Nodes) (l : list NodeId) : Nodes :=
  foldl (λ acc n, splice_node ext st n acc) nds l.

(** Each node of [targets] held a local-replica read when its turn came, the
    nodes before it having been spliced. *)
Fixpoint replica_reads_in_turn (ext : Collaborators) (st : QueryPlanOptimizationSettings)
    (nds : Nodes) (targets : list NodeId) : bool :=
  match targets with
  | [] => true
  | n :: rest =>
    is_local_replica_read nds n && replica_reads_in_turn ext st (splice_node ext st n nds) rest
  end.

(** Collaborators as [idle_collaborators], but with a sort removal that
    leaves its mark on the root step (payload 7). *)
Definition sorting_collaborators : Collaborators :=
  mkCollaborators N unit
    (λ _ nds, nds) (λ _ _ nds, nds) (λ stk nds, (stk, nds)) (λ _ nds, nds)
    (λ _ nds _, (tt, nds)) (λ _ nds _ _, (false, nds)) (λ _ nds _, nds)
    (λ _ nds, nds) (λ _ nds, nds)
    step_payload (λ _ p, inr p)
    (λ n p nds, <[n := mkNode (mkStep OtherStep p) []]> nds)
    (λ _ nds, (0%N, nds))
    (λ root nds,
       match nds !! root with
       | Some nd => <[root := mkNode (mkStep (step_kind (step nd)) 7%N) (children nd)]> nds
       | None => nds
       end)
    (λ _ nds _, (None, nds)) (λ _ nds, nds)
    (λ stk nds, (None, stk, nds))
    (λ _ stk nds _, (false, stk, nds))
    (λ _ _ nds, nds) (λ _ nds, nds).

(** The example settings with [remove_redundant_sorting] off. *)
Definition keep_sorting_settings : QueryPlanOptimizationSettings :=
  mkSettings true 0%N false 0%N 0%N 0%N 0%N true true true true false true true true
    true 10%N false "" false (λ _, true).

(** The state in which the second pass starts its projection phase on an
    arena. *)
Definition before_projections (nds : Nodes) : State :=
  mkState [] nds ∅ false false [].

End SecondSpec.

(** ** Vocabulary for further properties of the first pass *)

(** The names of the rules called, in order. *)
Definition called_rules (tr : list Event) : list string :=
  flat_map (λ e, match e with EvVisit _ => [] | EvApply r _ _ => [r] end) tr.

(** What the loop over the registry hands back, however it ends. *)
Definition loop_trace (r : LoopResult) : list Event :=
  match r with
  | LoopDone _ _ _ tr | LoopReturn _ _ tr | LoopThrow _ _ _ tr => tr
  end.

Definition loop_total (r : LoopResult) : N :=
  match r with
  | LoopDone _ _ total _ | LoopReturn _ total _ | LoopThrow _ _ total _ => total
  end.

(** Post-order listing of the layers a frame with depth limit [dl] walks:
    the whole tree for limit 0, the root alone for limit 1, and one layer less
    for each child otherwise. *)
Fixpoint limited_postorder (dl : N) (t : PlanTree) {struct t} : list NodeId :=
  match t with
  | PNode n ts =>
    (if (dl =? 1)%N then []
     else flat_map (limited_postorder (if (dl =? 0)%N then 0%N else (dl - 1)%N)) ts)
    ++ [n]
  end.

Fixpoint limited_events (st : QueryPlanOptimizationSettings)
    (optimizations : list Optimization) (dl : N) (t : PlanTree) {struct t} : list Event :=
  match t with
  | PNode n ts =>
    (if (dl =? 1)%N then []
     else flat_map (limited_events st optimizations
                      (if (dl =? 0)%N then 0%N else (dl - 1)%N)) ts)
    ++ quiet_events st optimizations n
  end.

(** The nodes of a tree down to [depth] layers below the root. *)
Fixpoint nodes_within (depth : nat) (t : PlanTree) {struct t} : list NodeId :=
  match t with
  | PNode n ts =>
    n :: match depth with
         | O => []
         | S depth' => flat_map (nodes_within depth') ts
         end
  end.

(** ** Deferred set-building pass *)

Module BuildSets.
Import Second.

(** State of [addStepsToBuildSets]: the stack, the arena, and the nodes
    handed to [addPlansForSets], in order. *)
Record State := mkState {
  stack : Stack;
  nodes : Nodes;
  visited : list NodeId;
}.

Section Driver.
(** [addPlansForSets] is not among the sources; it is a parameter, a
    transformer of the arena it receives by reference. *)
Context (addPlansForSets : QueryPlanOptimizationSettings → NodeId → Nodes → Nodes).
Context (st : QueryPlanOptimizationSettings).

(** One iteration of the loop of lines 340-357; [None] when the stack is
    empty and the loop is left. *)
Definition step_build_sets (s : State) : option State :=
  match stack s with
  | [] => None
  | frame :: below =>
    match child_at (children_of (nodes s) (node frame)) (next_child frame) with
    | Some child =>
      Some (mkState (mkFrame child 0%N
                      :: mkFrame (node frame) (next_child frame + 1)%N
                      :: below)
                    (nodes s) (visited s))
    | None =>
      Some (mkState below (addPlansForSets st (node frame) (nodes s))
                    (visited s ++ [node frame]))
    end
  end.

(** The loop with fuel: the state in which the stack is empty, if it is
    reached. *)
Fixpoint run (fuel : nat) (s : State) : option State :=
  match step_build_sets s with
  | None => Some s
  | Some s' =>
    match fuel with
    | O => None
    | S fuel' => run fuel' s'
    end
  end.

(** The state after [k] iterations. *)
Fixpoint steps (k : nat) (s : State) : option State :=
  match k with
  | O => Some s
  | S k' =>
    match step_build_sets s with
    | Some s' => steps k' s'
    | None => None
    end
  end.

(** [addStepsToBuildSets]. *)
Definition addStepsToBuildSets (root : NodeId) (nds : Nodes) (fuel : nat) : option State :=
  run fuel (mkState [mkFrame root 0%N] nds []).

(** The arena after [addPlansForSets] was called on the nodes of [l] in
    order. *)
Definition sets_added (nds : Nodes) (l : list NodeId) : Nodes :=
  foldl (λ acc n, addPlansForSets st n acc) nds l.

(** Among the nodes of [protected], a call on [n] changes the children of no
    node but [n]. *)
Definition local_to_node (protected : list NodeId) : Prop :=
  ∀ n nds x, x ∈ protected → x ≠ n →
    children_of (addPlansForSets st n nds) x = children_of nds x.

End Driver.

(** A set-building step that hangs a fresh node under the node it visits. *)
Definition hang_set_below (_ : QueryPlanOptimizationSettings) (n : NodeId) (nds : Nodes)
  : Nodes :=
  match nds !! n with
  | Some nd =>
    <[n := mkNode (step nd) (children nd ++ [100 + n])]>
      (<[100 + n := mkNode (mkStep OtherStep 9%N) []]> nds)
  | None => nds
  end.

End BuildSets.

(** ** Vocabulary for further properties of the second pass *)

Module SecondMore.
Import Second SecondSpec.

(** The state after [k] iterations of a loop that all ended in [continue]. *)
Fixpoint loop_steps (body : State → Outcome) (k : nat) (s : State) : option State :=
  match k with
  | O => Some s
  | S k' =>
    match stack s with
    | [] => None
    | _ :: _ =>
      match body s with
      | Continue s' => loop_steps body k' s'
      | _ => None
      end
    end
  end.


(** The node holds a merge-tree read. *)
Definition is_merge_tree_read (nds : Nodes) (n : NodeId) : bool :=
  bool_decide (step_kind_of nds n = Some ReadFromMergeTree).

(** What the projection phase records on a tree on which no projection
    applies: the aggregate attempt when a node is first met, the normal
    attempt when it is left. *)
Fixpoint projection_events (st : QueryPlanOptimizationSettings) (t : PlanTree) : list Event :=
  match t with
  | PNode n ts =>
    (if optimize_projection st then [EvAggregateProjection n None] else [])
    ++ flat_map (projection_events st) ts
    ++ (if optimize_projection st then [EvNormalProjection None] else [])
  end.

(** No projection applies and nothing is rewritten: the three collaborators
    of the projection phase leave the arena and the stack as they are. *)
Definition no_projection_applies (ext : Collaborators) : Prop :=
  (∀ n nds b, optimizeUseAggregateProjections ext n nds b = (None, nds))
  ∧ (∀ n nds, optimizeAggregationInOrder ext n nds = nds)
  ∧ (∀ stk nds, optimizeUseNormalProjections ext stk nds = (None, stk, nds)).

(** What the lazy-materialization phase records on a tree on which the
    rewrite never applies: one failed attempt per node, parent first. *)
Fixpoint lazy_events (t : PlanTree) : list Event :=
  match t with
  | PNode n ts => EvLazyMaterialization n false :: flat_map lazy_events ts
  end.

(** The nodes on which lazy materialization was attempted, in order. *)
Definition lazy_nodes (tr : list Event) : list NodeId :=
  flat_map (λ e, match e with EvLazyMaterialization n _ => [n] | _ => [] end) tr.

(** Lazy materialization never applies and rewrites nothing. *)
Definition lazy_never_applies (ext : Collaborators) : Prop :=
  ∀ root stk nds limit, optimizeLazyMaterialization ext root stk nds limit = (false, stk, nds).

(** The replacements recorded for the local-replica reads among [l]. *)
Definition replacements (nds : Nodes) (l : list NodeId) : list Event :=
  map EvReplaceNodeWithPlan (List.filter (is_local_replica_read nds) l).

(** Among the nodes of [protected], splicing at [n] touches no node but
    [n]. *)
Definition splice_local_to_node (ext : Collaborators) (st : QueryPlanOptimizationSettings)
    (protected : list NodeId) : Prop :=
  ∀ n nds x, x ∈ protected → x ≠ n → splice_node ext st n nds !! x = nds !! x.

(** No local plan fails to optimise. *)
Definition local_plans_optimize (ext : Collaborators) (st : QueryPlanOptimizationSettings)
  : Prop :=
  ∀ plan, ∃ optimized, optimize ext st plan = inr optimized.

(** The example settings with the projection optimisations off and
    [force_use_projection] set. *)
Definition forced_without_projections : QueryPlanOptimizationSettings :=
  mkSettings true 0%N false 0%N 0%N 0%N 0%N true true true true true false true true
    true 10%N true "" false (λ _, true).

End SecondMore.

(** * Properties of the first pass *)

(** ** The model at work *)

(** Without limit, [mark_once] rewrites the scan, revisits it, rewrites the
    root, revisits it, and the pass ends with both steps rewritten. *)
Example first_pass_marks_both_nodes :
  match optimizeTreeFirstPass [mark_rule] example_settings 0 example_plan 20 with
  | Returned s =>
    stack s = []
    ∧ trace s = [EvVisit 1; EvApply "markOnce" 1 1%N; EvVisit 1; EvApply "markOnce" 1 0%N;
                 EvVisit 0; EvApply "markOnce" 0 1%N; EvVisit 0; EvApply "markOnce" 0 0%N]
    ∧ total_applied_optimizations s = 2%N
    ∧ step_payload ∘ step <$> nodes s !! 0 = Some 1%N
    ∧ step_payload ∘ step <$> nodes s !! 1 = Some 1%N
  | _ => False
  end.
Proof. vm_compute. by split_and!. Qed.

(** Under a limit of one the second application still happens; the budget
    test fires when the root is visited again. *)
Example first_pass_limit_one_throws :
  match optimizeTreeFirstPass [mark_rule] limit_one_settings 0 example_plan 20 with
  | Thrown code s =>
    code = TOO_MANY_QUERY_PLAN_OPTIMIZATIONS
    ∧ total_applied_optimizations s = 2%N
    ∧ stack s = [mkFrame 0 1%N 0%N]
  | _ => False
  end.
Proof. vm_compute. by split_and!. Qed.

Example size_decr_wraps : size_decr 0 = (2 ^ 64 - 1)%N ∧ size_decr 5 = 4%N.
Proof. by vm_compute. Qed.

Example size_incr_wraps : size_incr (2 ^ 64 - 1) = 0%N ∧ size_incr 5 = 6%N.
Proof. by vm_compute. Qed.

(** Induction on a tree with the hypothesis for every subtree. *)
Lemma PlanTree_forall_ind (P : PlanTree → Prop) :
  (∀ n ts, Forall P ts → P (PNode n ts)) → ∀ t, P t.
Proof.
  intros step. fix IH 1. intros [n ts]. apply step.
  induction ts as [|t ts IHts]; constructor; [apply IH | apply IHts].
Qed.

Lemma child_at_lookup (cs : list NodeId) i : child_at cs i = cs !! N.to_nat i.
Proof.
  unfold child_at. destruct (i <? N.of_nat (length cs))%N eqn:Hi; [done|].
  apply N.ltb_ge in Hi. symmetry. apply lookup_ge_None. lia.
Qed.

Lemma represents_PNode nds n ts :
  represents nds (PNode n ts) = true →
  children_of nds n = map tree_root ts ∧ Forall (λ t, represents nds t = true) ts.
Proof.
  cbn [represents]. intros [Hc Hts]%andb_prop. split.
  - by apply bool_decide_eq_true in Hc.
  - apply Forall_forall. intros t Ht.
    rewrite forallb_forall in Hts. apply Hts. by apply list_elem_of_In.
Qed.

Section FirstPassRuns.
Context (st : QueryPlanOptimizationSettings) (opts : list Optimization).

Lemma run_steps_add k1 k2 s s1 :
  run_steps st opts k1 s = Some s1 →
  run_steps st opts (k1 + k2) s = run_steps st opts k2 s1.
Proof.
  revert s. induction k1 as [|k1 IH]; intros s; cbn [run_steps Nat.add].
  - by intros [= ->].
  - destruct (step_first_pass st opts s); try done. apply IH.
Qed.

Lemma run_after_steps k fuel s s1 :
  run_steps st opts k s = Some s1 →
  run_first_pass st opts (k + fuel) s = run_first_pass st opts fuel s1.
Proof.
  revert s. induction k as [|k IH]; intros s; cbn [run_steps run_first_pass Nat.add].
  - by intros [= ->].
  - destruct (step_first_pass st opts s); try done. apply IH.
Qed.

Lemma budget_not_exceeded_at_zero : budget_exceeded st 0%N = false.
Proof.
  unfold budget_exceeded. destruct (max_optimizations_to_apply st); by rewrite ?andb_false_r.
Qed.

(** Entries that are not active are skipped without any effect. *)
Lemma apply_optimizations_inactive l n m nds total tr :
  (∀ o, o ∈ l → active st o = false) →
  apply_optimizations st l n m nds total tr = LoopDone m nds total tr.
Proof.
  induction l as [|o l IH]; intros Hl; cbn [apply_optimizations]; [done|].
  assert (Ho : active st o = false) by (apply Hl; left).
  assert (Hl' : ∀ o', o' ∈ l → active st o' = false) by (intros; apply Hl; by right).
  unfold active in Ho. destruct (read_member st (is_enabled o)); cbn.
  - destruct (apply o); [|by apply IH]. rewrite andb_true_l in Ho.
    apply bool_decide_eq_false in Ho. destruct Ho. by eexists.
  - by apply IH.
Qed.

(** When every active rule reports 0 the loop records the calls and changes
    nothing else. *)
Lemma apply_optimizations_quiet l n m nds tr :
  (∀ o f, o ∈ l → active st o = true → apply o = Some f →
          f n nds (extra_settings_of st) = (0%N, nds)) →
  apply_optimizations st l n m nds 0%N tr
  = LoopDone m nds 0%N
      (tr ++ map (λ o, EvApply (name o) n 0%N) (List.filter (active st) l)).
Proof.
  revert m tr. induction l as [|o l IH]; intros m tr Hl; cbn [apply_optimizations List.filter map].
  - by rewrite app_nil_r.
  - assert (Hl' : ∀ o' f, o' ∈ l → active st o' = true → apply o' = Some f →
                    f n nds (extra_settings_of st) = (0%N, nds)).
    { intros o' f ?. apply Hl. by right. }
    unfold active at 1. destruct (read_member st (is_enabled o)) eqn:Hen; cbn.
    + destruct (apply o) as [f|] eqn:Hap; cbn.
      * rewrite budget_not_exceeded_at_zero.
        rewrite (Hl o f); [|by left| |done].
        2:{ unfold active. rewrite Hen, Hap. done. }
        cbn. rewrite N.max_0_r. rewrite IH by done.
        by rewrite <- app_assoc.
      * by apply IH.
    + by apply IH.
Qed.

(** ** Walking a tree on which the rules are quiet *)

Section Quiet.
Context (nds : Nodes).
Context (Hquiet : all_report_zero st opts nds).

Lemma quiet_visit n below tr :
  next_unvisited_child nds (mkFrame n 0%N (N.of_nat (length (children_of nds n)))) = None →
  step_first_pass st opts
    (mkState (mkFrame n 0%N (N.of_nat (length (children_of nds n))) :: below) nds 0%N tr)
  = Continue (mkState below nds 0%N (tr ++ quiet_events st opts n)).
Proof.
  intros Hnone. unfold step_first_pass. cbn [stack nodes]. rewrite Hnone.
  cbn [node total_applied_optimizations trace].
  rewrite apply_optimizations_quiet.
  - cbn. unfold quiet_events. by rewrite <- app_assoc.
  - intros o f ???. by apply (Hquiet o f n).
Qed.

Lemma traverse_children n below ts :
  children_of nds n = map tree_root ts →
  Forall (λ t, ∀ below tr, ∃ k,
            run_steps st opts k (mkState (mkFrame (tree_root t) 0%N 0%N :: below) nds 0%N tr)
            = Some (mkState below nds 0%N (tr ++ postorder_events st opts t))) ts →
  ∀ ts2 ts1 tr, ts = ts1 ++ ts2 →
    ∃ k, run_steps st opts k
           (mkState (mkFrame n 0%N (N.of_nat (length ts1)) :: below) nds 0%N tr)
         = Some (mkState below nds 0%N
                   (tr ++ flat_map (postorder_events st opts) ts2
                       ++ quiet_events st opts n)).
Proof.
  intros Hch Hsub. induction ts2 as [|t ts2 IH]; intros ts1 tr Hts.
  - exists 1. cbn [run_steps flat_map app].
    rewrite app_nil_r in Hts. subst ts1.
    assert (Hlen : length ts = length (children_of nds n))
      by (by rewrite Hch, length_map).
    rewrite Hlen. rewrite quiet_visit; [done|].
    unfold next_unvisited_child. rewrite child_at_lookup. cbn. rewrite Nat2N.id.
    apply lookup_ge_None. lia.
  - assert (Ht : children_of nds n !! length ts1 = Some (tree_root t)).
    { rewrite Hch, Hts, map_app. rewrite lookup_app_r by (rewrite length_map; lia).
      rewrite length_map, Nat.sub_diag. done. }
    assert (Hin : t ∈ ts) by (rewrite Hts; set_solver).
    rewrite Forall_forall in Hsub.
    destruct (Hsub t Hin (mkFrame n 0%N (N.of_nat (length ts1) + 1)%N :: below) tr)
      as [k1 Hk1].
    destruct (IH (ts1 ++ [t]) (tr ++ postorder_events st opts t)) as [k2 Hk2].
    { rewrite Hts, <- app_assoc. done. }
    exists (S (k1 + k2)). cbn [run_steps].
    unfold step_first_pass. cbn [stack nodes].
    unfold next_unvisited_child. rewrite child_at_lookup. cbn [depth_limit node next_child].
    rewrite Nat2N.id. cbn [N.eqb]. rewrite Ht.
    unfold child_frame. cbn [depth_limit node next_child total_applied_optimizations trace N.eqb].
    rewrite (run_steps_add _ _ _ _ Hk1).
    rewrite length_app in Hk2. cbn [length] in Hk2.
    replace (N.of_nat (length ts1 + 1)) with (N.of_nat (length ts1) + 1)%N in Hk2 by lia.
    rewrite Hk2. cbn [flat_map]. by rewrite <- !app_assoc.
Qed.

(** A whole subtree is walked in post-order and its frame popped. *)
Lemma traverse_tree t :
  represents nds t = true →
  ∀ below tr, ∃ k,
    run_steps st opts k (mkState (mkFrame (tree_root t) 0%N 0%N :: below) nds 0%N tr)
    = Some (mkState below nds 0%N (tr ++ postorder_events st opts t)).
Proof.
  induction t as [n ts IH] using PlanTree_forall_ind.
  intros [Hch Hts]%represents_PNode below tr.
  cbn [tree_root postorder_events].
  apply (traverse_children n below ts Hch) with (ts1 := []); [|done].
  rewrite Forall_forall in IH, Hts |- *.
  intros t Ht. apply IH; [done|]. by apply Hts.
Qed.

Lemma run_quiet_tree t :
  represents nds t = true →
  ∃ fuel, run_first_pass st opts fuel (initial_state (tree_root t) nds)
          = Returned (mkState [] nds 0%N (postorder_events st opts t)).
Proof.
  intros Ht. destruct (traverse_tree t Ht [] []) as [k Hk].
  exists (k + 1). unfold initial_state.
  rewrite (run_after_steps _ _ _ _ Hk). done.
Qed.
End Quiet.

End FirstPassRuns.

(** ** Post-order listings *)

Lemma visits_app tr1 tr2 : visits (tr1 ++ tr2) = visits tr1 ++ visits tr2.
Proof. unfold visits. apply flat_map_app. Qed.

Lemma reported_depths_app tr1 tr2 :
  reported_depths (tr1 ++ tr2) = reported_depths tr1 ++ reported_depths tr2.
Proof. unfold reported_depths. apply flat_map_app. Qed.

Lemma changes_app tr1 tr2 : changes (tr1 ++ tr2) = changes tr1 + changes tr2.
Proof. unfold changes. by rewrite reported_depths_app, List.filter_app, length_app. Qed.

Lemma changes_snoc_apply tr rule n d :
  changes (tr ++ [EvApply rule n d]) = changes tr + (if (d =? 0)%N then 0 else 1).
Proof. rewrite changes_app. unfold changes at 2. cbn. by destruct (d =? 0)%N. Qed.

Lemma changes_snoc_visit tr n : changes (tr ++ [EvVisit n]) = changes tr.
Proof. rewrite changes_app. unfold changes at 2. cbn. lia. Qed.

Lemma visits_quiet_events st opts n : visits (quiet_events st opts n) = [n].
Proof.
  unfold quiet_events. cbn. f_equal.
  induction (List.filter (active st) opts) as [|o l IH]; [done|]. apply IH.
Qed.

Lemma changes_quiet_events st opts n : changes (quiet_events st opts n) = 0.
Proof.
  unfold quiet_events, changes. cbn.
  induction (List.filter (active st) opts) as [|o l IH]; [done|]. apply IH.
Qed.

Lemma visits_postorder_events st opts t :
  visits (postorder_events st opts t) = postorder t.
Proof.
  induction t as [n ts IH] using PlanTree_forall_ind.
  cbn [postorder_events postorder]. rewrite visits_app, visits_quiet_events. f_equal.
  induction IH as [|t ts Ht _ IHts]; [done|].
  cbn [flat_map]. by rewrite visits_app, Ht, IHts.
Qed.

Lemma changes_postorder_events st opts t : changes (postorder_events st opts t) = 0.
Proof.
  induction t as [n ts IH] using PlanTree_forall_ind.
  cbn [postorder_events]. rewrite changes_app, changes_quiet_events, Nat.add_0_r.
  induction IH as [|t ts Ht _ IHts]; [done|].
  cbn [flat_map]. by rewrite changes_app, Ht, IHts.
Qed.

Lemma postorder_tree_nodes t : postorder t ≡ₚ tree_nodes t.
Proof.
  induction t as [n ts IH] using PlanTree_forall_ind.
  cbn [postorder tree_nodes]. rewrite Permutation_app_comm. cbn. constructor.
  induction IH as [|t ts Ht _ IHts]; [done|].
  cbn [flat_map]. by rewrite Ht, IHts.
Qed.

Lemma tree_root_in_postorder t : ∃ l, postorder t = l ++ [tree_root t].
Proof. destruct t as [n ts]. by eexists. Qed.

Lemma flat_map_split {A B} (f : A → list B) (x : A) (l : list A) :
  x ∈ l → ∃ a b, flat_map f l = a ++ f x ++ b.
Proof.
  intros (l1 & l2 & ->)%list_elem_of_split.
  exists (flat_map f l1), (flat_map f l2). by rewrite flat_map_app.
Qed.

Lemma edges_in_postorder t p c :
  (p, c) ∈ tree_edges t → processed_before c p (postorder t).
Proof.
  induction t as [n ts IH] using PlanTree_forall_ind.
  cbn [tree_edges postorder]. rewrite elem_of_app. intros [Hhere|Hbelow].
  - apply list_elem_of_fmap in Hhere as (ti & [= -> ->] & Hti).
    destruct (flat_map_split postorder ti ts Hti) as (a & b & ->).
    destruct (tree_root_in_postorder ti) as [l ->].
    exists (a ++ l), b, []. by rewrite <- !app_assoc.
  - apply list_elem_of_In, in_flat_map in Hbelow
      as (ti & Hti%list_elem_of_In & Hin%list_elem_of_In).
    rewrite Forall_forall in IH.
    destruct (IH ti Hti Hin) as (l1 & l2 & l3 & Hpo).
    destruct (flat_map_split postorder ti ts Hti) as (a & b & ->).
    rewrite Hpo. exists (a ++ l1), l2, (l3 ++ b ++ [n]).
    rewrite <- !app_assoc. cbn. rewrite <- !app_assoc. done.
Qed.

Lemma children_are_edges nds t p c :
  represents nds t = true →
  p ∈ tree_nodes t → c ∈ children_of nds p → (p, c) ∈ tree_edges t.
Proof.
  induction t as [n ts IH] using PlanTree_forall_ind.
  intros [Hch Hts]%represents_PNode. cbn [tree_nodes tree_edges].
  rewrite elem_of_cons, elem_of_app. intros [->|Hp] Hc.
  - left. rewrite Hch in Hc.
    apply list_elem_of_fmap in Hc as (ti & -> & Hti).
    apply list_elem_of_fmap. by exists ti.
  - right. apply list_elem_of_In, in_flat_map in Hp as (ti & Hti & Hin).
    apply list_elem_of_In, in_flat_map. exists ti. split; [done|].
    apply list_elem_of_In. rewrite Forall_forall in IH, Hts.
    apply IH; [by apply list_elem_of_In | apply Hts; by apply list_elem_of_In
              | by apply list_elem_of_In | done].
Qed.

(** ** The master switch *)

(** C10.  With [optimize_plan] false the first pass returns at once, whatever
    the fuel: the arena is the one given, the budget counter was never
    touched, and no node was visited and no rule called (empty trace). *)
Theorem C10_optimize_plan_off opts st root nds fuel :
  optimize_plan st = false →
  optimizeTreeFirstPass opts st root nds fuel = Returned (mkState [] nds 0%N []).
Proof. intros H. unfold optimizeTreeFirstPass. by rewrite H. Qed.

(** ** A registry with nothing enabled *)

Lemma step_disabled_frame st opts s :
  (∀ o, o ∈ opts → read_member st (is_enabled o) = false) →
  match step_first_pass st opts s with
  | Continue s' | Return s' =>
    nodes s' = nodes s
    ∧ total_applied_optimizations s' = total_applied_optimizations s
    ∧ changes (trace s') = changes (trace s)
  | Throw _ _ => False
  end.
Proof.
  intros Hoff. unfold step_first_pass.
  destruct (stack s) as [|frame below]; [done|].
  destruct (next_unvisited_child (nodes s) frame); [done|].
  rewrite apply_optimizations_inactive.
  - assert (Hc : changes (trace s ++ [EvVisit (node frame)]) = changes (trace s))
      by (rewrite changes_app; cbn; lia).
    by destruct (0 =? 0)%N.
  - intros o Ho. unfold active. by rewrite (Hoff o Ho).
Qed.

Lemma run_disabled_frame st opts fuel s :
  (∀ o, o ∈ opts → read_member st (is_enabled o) = false) →
  match run_first_pass st opts fuel s with
  | Returned s' | OutOfFuel s' =>
    nodes s' = nodes s
    ∧ total_applied_optimizations s' = total_applied_optimizations s
    ∧ changes (trace s') = changes (trace s)
  | Thrown _ _ => False
  end.
Proof.
  intros Hoff. revert s. induction fuel as [|fuel IH]; intros s; cbn [run_first_pass]; [done|].
  pose proof (step_disabled_frame st opts s Hoff) as Hstep.
  destruct (step_first_pass st opts s) as [s'|s'|]; [|exact Hstep..].
  specialize (IH s'). destruct (run_first_pass st opts fuel s'); [|exact IH|].
  all: destruct Hstep as (<- & <- & <-); exact IH.
Qed.

(** C7.  With an empty registry, or with every enablement flag false, the
    first pass never throws and, however long it runs, the arena (node count,
    children lists in order, steps) is the one it was given and no change is
    recorded; on a finite tree it returns with the stack empty. *)
Theorem C7_disabled_registry_keeps_tree opts st root nds :
  (∀ o, o ∈ opts → read_member st (is_enabled o) = false) →
  (∀ fuel,
     match optimizeTreeFirstPass opts st root nds fuel with
     | Returned s | OutOfFuel s => nodes s = nds ∧ changes (trace s) = 0
     | Thrown _ _ => False
     end)
  ∧ (∀ t, tree_root t = root → represents nds t = true →
       ∃ fuel s, optimizeTreeFirstPass opts st root nds fuel = Returned s
                 ∧ stack s = [] ∧ nodes s = nds).
Proof.
  intros Hoff. split.
  - intros fuel. unfold optimizeTreeFirstPass.
    destruct (optimize_plan st); cbn [negb]; [|done].
    pose proof (run_disabled_frame st opts fuel (initial_state root nds) Hoff) as Hrun.
    destruct (run_first_pass st opts fuel (initial_state root nds)); [|exact Hrun|].
    all: destruct Hrun as (-> & _ & ->); done.
  - intros t <- Ht. unfold optimizeTreeFirstPass.
    destruct (optimize_plan st); cbn [negb]; [|by exists 0, (mkState [] nds 0%N [])].
    destruct (run_quiet_tree st opts nds) with (t := t) as [fuel Hfuel]; [|done|].
    + intros o f n Ho Hact. unfold active in Hact. by rewrite (Hoff o Ho) in Hact.
    + by exists fuel, (mkState [] nds 0%N (postorder_events st opts t)).
Qed.

(** ** A stable pass *)

(** C2.  On a finite tree whose nodes are pairwise distinct, when every
    active rule reports update depth 0 (and so leaves the plan as it is), the
    first pass returns with the stack empty; the nodes whose rule loop was
    entered are, in order, the post-order listing of the tree, so that every
    node of the tree is processed exactly once and every child of a node is
    processed before the node. *)
Theorem C2_stable_pass_is_postorder opts st root nds t :
  optimize_plan st = true →
  tree_root t = root → represents nds t = true → NoDup (tree_nodes t) →
  all_report_zero st opts nds →
  ∃ fuel s,
    optimizeTreeFirstPass opts st root nds fuel = Returned s
    ∧ stack s = [] ∧ nodes s = nds
    ∧ visits (trace s) = postorder t
    ∧ (∀ n, n ∈ tree_nodes t → count_occ Nat.eq_dec (visits (trace s)) n = 1)
    ∧ (∀ p c, p ∈ tree_nodes t → c ∈ children_of nds p →
              processed_before c p (visits (trace s))).
Proof.
  intros Hon <- Ht Hnodup Hquiet. unfold optimizeTreeFirstPass. rewrite Hon. cbn [negb].
  destruct (run_quiet_tree st opts nds Hquiet t Ht) as [fuel Hfuel].
  exists fuel, (mkState [] nds 0%N (postorder_events st opts t)).
  cbn [stack nodes trace]. rewrite visits_postorder_events.
  split_and!; try done.
  - intros n Hn.
    assert (Hnd : List.NoDup (postorder t)).
    { apply NoDup_ListNoDup. by rewrite postorder_tree_nodes. }
    apply (proj1 (NoDup_count_occ' Nat.eq_dec (postorder t)) Hnd).
    apply list_elem_of_In. by rewrite postorder_tree_nodes.
  - intros p c Hp Hc. apply edges_in_postorder. by apply (children_are_edges nds).
Qed.

(** ** One visit *)

Lemma max_reported_app tr1 tr2 :
  max_reported (tr1 ++ tr2) = N.max (max_reported tr1) (max_reported tr2).
Proof.
  unfold max_reported. rewrite reported_depths_app.
  induction (reported_depths tr1) as [|d l IH]; cbn [foldr app].
  - by rewrite N.max_0_l.
  - by rewrite IH, N.max_assoc.
Qed.

(** The loop returns the largest depth reported in this visit, and records
    only rule calls. *)
Lemma apply_optimizations_done st l n m nds total tr m' nds' total' tr' :
  apply_optimizations st l n m nds total tr = LoopDone m' nds' total' tr' →
  ∃ evs, tr' = tr ++ evs ∧ visits evs = [] ∧ m' = N.max m (max_reported evs).
Proof.
  revert m nds total tr. induction l as [|o l IH]; intros m nds total tr; cbn [apply_optimizations].
  - intros [= <- <- <- <-]. exists []. by rewrite app_nil_r, N.max_0_r.
  - destruct (negb (read_member st (is_enabled o))); [apply IH|].
    destruct (apply o) as [f|]; [|apply IH].
    destruct (budget_exceeded st total); [by destruct (is_explain st)|].
    destruct (f n nds (extra_settings_of st)) as [d nds1].
    intros (evs & -> & Hv & ->)%IH.
    exists (EvApply (name o) n d :: evs). split_and!.
    + by rewrite <- app_assoc.
    + done.
    + change (EvApply (name o) n d :: evs) with ([EvApply (name o) n d] ++ evs).
      rewrite max_reported_app. unfold max_reported at 2. cbn.
      by rewrite N.max_0_r, N.max_assoc.
Qed.

(** An iteration that made the stack taller pushed a child. *)
Lemma step_growth st opts s s' frame below :
  stack s = frame :: below →
  step_first_pass st opts s = Continue s' →
  length (stack s') ≤ length (stack s)
  ∨ ∃ child, next_unvisited_child (nodes s) frame = Some child
             ∧ stack s' = child_frame frame child
                            :: mkFrame (node frame) (depth_limit frame) (next_child frame + 1)%N
                            :: below.
Proof.
  intros Hs. unfold step_first_pass. rewrite Hs.
  destruct (next_unvisited_child (nodes s) frame) as [child|].
  - intros [= <-]. right. by exists child.
  - destruct (apply_optimizations _ _ _ _ _ _ _) as [m nds' total' tr'| |]; try done.
    destruct (m =? 0)%N; intros [= <-]; left; cbn; lia.
Qed.

Lemma run_steps_growth st opts k s s' :
  run_steps st opts k s = Some s' → length (stack s') ≤ length (stack s) + k.
Proof.
  revert s. induction k as [|k IH]; intros s; cbn [run_steps].
  - intros [= ->]. lia.
  - destruct (step_first_pass st opts s) as [s1| |] eqn:Hstep; try done.
    intros Hk%IH. destruct (stack s) as [|frame below] eqn:Hs.
    + unfold step_first_pass in Hstep. by rewrite Hs in Hstep.
    + destruct (step_growth _ _ _ _ _ _ Hs Hstep) as [Hle|(child & _ & Hs1)].
      * rewrite Hs in Hle. cbn [length] in *. lia.
      * rewrite Hs1 in Hk. cbn [length] in *. lia.
Qed.

Lemma descent_bounded st opts k :
  ∀ s s' frame below,
    stack s = frame :: below → depth_limit frame ≠ 0%N →
    run_steps st opts k s = Some s' →
    length (stack s') = length (stack s) + k →
    (N.of_nat k < depth_limit frame)%N.
Proof.
  induction k as [|k IH]; intros s s' frame below Hs Hd; cbn [run_steps].
  - intros _ _. lia.
  - destruct (step_first_pass st opts s) as [s1| |] eqn:Hstep; try done.
    intros Hk Hlen. pose proof (run_steps_growth _ _ _ _ _ Hk) as Hbound.
    destruct (step_growth _ _ _ _ _ _ Hs Hstep) as [Hle|(child & Hchild & Hs1)].
    { rewrite Hs in *. cbn [length] in *. lia. }
    unfold next_unvisited_child in Hchild.
    destruct (depth_limit frame =? 1)%N eqn:Hone; [done|].
    apply N.eqb_neq in Hone.
    assert (Hlt : (N.of_nat k < depth_limit (child_frame frame child))%N).
    { apply (IH s1 s' _ _ Hs1); [| done |].
      - unfold child_frame. cbn. destruct (depth_limit frame =? 0)%N eqn:Hz; [|lia].
        by apply N.eqb_eq in Hz.
      - rewrite Hs1, Hs in *. cbn [length] in *. lia. }
    unfold child_frame in Hlt. cbn in Hlt.
    destruct (depth_limit frame =? 0)%N; lia.
Qed.

(** The loop against the rules themselves: when it completes, it has called
    every active rule in turn, each on the arena the one before left. *)
Lemma apply_optimizations_reports st l n m nds total tr m' nds' total' tr' :
  apply_optimizations st l n m nds total tr = LoopDone m' nds' total' tr' →
  tr' = tr ++ (applied_rules st l n nds).1
  ∧ nds' = (applied_rules st l n nds).2
  ∧ m' = N.max m (max_reported (applied_rules st l n nds).1)
  ∧ total' = counted total (applied_rules st l n nds).1.
Proof.
  revert m nds total tr.
  induction l as [|o l IH]; intros m nds total tr; cbn [apply_optimizations applied_rules].
  - intros [= <- <- <- <-]. by rewrite app_nil_r, N.max_0_r.
  - destruct (read_member st (is_enabled o)); cbn [negb]; [|apply IH].
    destruct (apply o) as [f|]; [|apply IH].
    destruct (budget_exceeded st total); [by destruct (is_explain st)|].
    destruct (f n nds (extra_settings_of st)) as [d nds1]. cbn [fst snd].
    intros (-> & -> & -> & ->)%IH. split_and!.
    + by rewrite <- app_assoc.
    + done.
    + change (EvApply (name o) n d :: (applied_rules st l n nds1).1)
        with ([EvApply (name o) n d] ++ (applied_rules st l n nds1).1).
      rewrite max_reported_app. unfold max_reported at 2. cbn.
      by rewrite N.max_0_r, N.max_assoc.
    + done.
Qed.

(** Without a limit the loop always completes. *)
Lemma apply_optimizations_completes st l n m nds total tr :
  max_optimizations_to_apply st = 0%N →
  apply_optimizations st l n m nds total tr
  = LoopDone (N.max m (max_reported (applied_rules st l n nds).1))
      (applied_rules st l n nds).2
      (counted total (applied_rules st l n nds).1)
      (tr ++ (applied_rules st l n nds).1).
Proof.
  intros Hmax. revert m nds total tr.
  induction l as [|o l IH]; intros m nds total tr; cbn [apply_optimizations applied_rules].
  - by rewrite app_nil_r, N.max_0_r.
  - destruct (read_member st (is_enabled o)); cbn [negb]; [|apply IH].
    destruct (apply o) as [f|]; [|apply IH].
    unfold budget_exceeded at 1. rewrite Hmax. cbn [N.eqb negb andb].
    destruct (f n nds (extra_settings_of st)) as [d nds1]. cbn [fst snd].
    rewrite IH. f_equal.
    + change (EvApply (name o) n d :: (applied_rules st l n nds1).1)
        with ([EvApply (name o) n d] ++ (applied_rules st l n nds1).1).
      rewrite max_reported_app. unfold max_reported at 2. cbn.
      by rewrite N.max_0_r, N.max_assoc.
    + by rewrite <- app_assoc.
Qed.

Lemma visits_applied_rules st l n nds : visits (applied_rules st l n nds).1 = [].
Proof.
  revert nds. induction l as [|o l IH]; intros nds; cbn [applied_rules]; [done|].
  destruct (read_member st (is_enabled o)); [|apply IH].
  destruct (apply o) as [f|]; [|apply IH]. cbn. apply IH.
Qed.

(** C6.  For the frame on top of the stack: (1) when it descends, the child
    is pushed with depth limit 0 if the frame's limit is 0 and the frame's
    limit minus one otherwise, and the frame's cursor advances; (2) a frame
    with depth limit 1 does not descend; (3) when it is processed and the
    rule loop completes, the loop has applied every enabled, initialised rule
    to the node in registry order, each on the arena the one before left
    ([applied_rules]): the trace gains the visit and their reports, the arena
    is the one the last rule left, the counter has one increment per nonzero
    report, and the value the loop returns is the maximum of the update
    depths the rules returned; a zero maximum pops the frame and a nonzero
    maximum [m] leaves the frame on top with depth limit [m] and cursor 0;
    (4) without a limit the loop always completes, so the iteration is that
    pop or that re-descent; (5) below a frame with nonzero depth limit [d],
    fewer than [d] frames are ever pushed in a row. *)
Theorem C6_visit_and_redescent st opts s frame below :
  stack s = frame :: below →
  (∀ child, next_unvisited_child (nodes s) frame = Some child →
     step_first_pass st opts s
     = Continue (mkState
         (mkFrame child
            (if (depth_limit frame =? 0)%N then 0%N else (depth_limit frame - 1)%N) 0%N
          :: mkFrame (node frame) (depth_limit frame) (next_child frame + 1)%N
          :: below)
         (nodes s) (total_applied_optimizations s) (trace s)))
  ∧ (depth_limit frame = 1%N → next_unvisited_child (nodes s) frame = None)
  ∧ (∀ m nds' total' tr',
       next_unvisited_child (nodes s) frame = None →
       apply_optimizations st opts (node frame) 0%N (nodes s)
         (total_applied_optimizations s) (trace s ++ [EvVisit (node frame)])
       = LoopDone m nds' total' tr' →
       (∃ evs, evs = (applied_rules st opts (node frame) (nodes s)).1
               ∧ tr' = trace s ++ EvVisit (node frame) :: evs
               ∧ visits evs = [] ∧ m = max_reported evs
               ∧ total' = counted (total_applied_optimizations s) evs)
       ∧ nds' = (applied_rules st opts (node frame) (nodes s)).2
       ∧ (m = 0%N → step_first_pass st opts s = Continue (mkState below nds' total' tr'))
       ∧ (m ≠ 0%N →
          step_first_pass st opts s
          = Continue (mkState (mkFrame (node frame) m 0%N :: below) nds' total' tr')))
  ∧ (max_optimizations_to_apply st = 0%N →
     next_unvisited_child (nodes s) frame = None →
     step_first_pass st opts s
     = Continue (mkState
         (if (max_reported (applied_rules st opts (node frame) (nodes s)).1 =? 0)%N
          then below
          else mkFrame (node frame)
                 (max_reported (applied_rules st opts (node frame) (nodes s)).1) 0%N
               :: below)
         (applied_rules st opts (node frame) (nodes s)).2
         (counted (total_applied_optimizations s)
            (applied_rules st opts (node frame) (nodes s)).1)
         (trace s ++ EvVisit (node frame)
                     :: (applied_rules st opts (node frame) (nodes s)).1)))
  ∧ (∀ k s', depth_limit frame ≠ 0%N →
       run_steps st opts k s = Some s' →
       length (stack s') = length (stack s) + k →
       (N.of_nat k < depth_limit frame)%N).
Proof.
  intros Hs. split_and!.
  - intros child Hchild. unfold step_first_pass. by rewrite Hs, Hchild.
  - intros Hone. unfold next_unvisited_child. by rewrite Hone.
  - intros m nds' total' tr' Hnone Hloop. split_and!.
    + apply apply_optimizations_reports in Hloop as (-> & _ & -> & ->).
      eexists. split; [done|]. rewrite <- app_assoc, N.max_0_l.
      split_and!; try done. apply visits_applied_rules.
    + by apply apply_optimizations_reports in Hloop as (_ & -> & _).
    + intros ->. unfold step_first_pass. by rewrite Hs, Hnone, Hloop.
    + intros Hm. unfold step_first_pass. rewrite Hs, Hnone, Hloop.
      by apply N.eqb_neq in Hm as ->.
  - intros Hmax Hnone. unfold step_first_pass. rewrite Hs, Hnone.
    rewrite (apply_optimizations_completes st opts _ _ _ _ _ Hmax).
    rewrite N.max_0_l, <- app_assoc. cbn [app].
    by destruct (max_reported _ =? 0)%N.
  - intros k s' Hd Hk Hlen. by apply (descent_bounded st opts k s s' frame below).
Qed.

(** ** The budget *)

Lemma read_member_with_max k st m :
  read_member (with_max_optimizations k st) m = read_member st m.
Proof. by destruct m. Qed.

Lemma active_with_max k st o : active (with_max_optimizations k st) o = active st o.
Proof. unfold active. by rewrite read_member_with_max. Qed.

Lemma budget_unlimited st total :
  max_optimizations_to_apply st = 0%N → budget_exceeded st total = false.
Proof. unfold budget_exceeded. by intros ->. Qed.

(** Without a limit the rule loop never throws nor returns early. *)
Lemma apply_optimizations_unlimited st l n m nds total tr :
  max_optimizations_to_apply st = 0%N →
  ∃ m' nds' total' tr',
    apply_optimizations st l n m nds total tr = LoopDone m' nds' total' tr'.
Proof.
  intros Hmax. revert m nds total tr.
  induction l as [|o l IH]; intros m nds total tr; cbn [apply_optimizations]; [by eauto|].
  destruct (negb (read_member st (is_enabled o))); [apply IH|].
  destruct (apply o) as [f|]; [|apply IH].
  rewrite (budget_unlimited st total Hmax).
  destruct (f n nds (extra_settings_of st)). apply IH.
Qed.

Lemma run_unlimited_never_throws st opts fuel s code s' :
  max_optimizations_to_apply st = 0%N →
  run_first_pass st opts fuel s ≠ Thrown code s'.
Proof.
  intros Hmax. revert s. induction fuel as [|fuel IH]; intros s; cbn [run_first_pass]; [done|].
  unfold step_first_pass. destruct (stack s) as [|frame below]; [done|].
  destruct (next_unvisited_child (nodes s) frame); [apply IH|].
  destruct (apply_optimizations_unlimited st opts (node frame) 0%N (nodes s)
              (total_applied_optimizations s) (trace s ++ [EvVisit (node frame)]) Hmax)
    as (m' & nds' & total' & tr' & ->).
  destruct (m' =? 0)%N; apply IH.
Qed.

Section Budget.
Context (st : QueryPlanOptimizationSettings) (opts : list Optimization).

Local Abbreviation K := (max_optimizations_to_apply st).
Local Abbreviation st0 := (with_max_optimizations 0 st).

Context (Hpos : (0 < K)%N) (Hfit : (K + 1 < size_t_modulus)%N).

Lemma budget_exceeded_iff total : budget_exceeded st total = (K <? total)%N.
Proof.
  unfold budget_exceeded. destruct (K =? 0)%N eqn:HK; [|done].
  apply N.eqb_eq in HK. lia.
Qed.

(** A loop that completes under the limit completes alike without it. *)
Lemma apply_optimizations_done_unlimited l n m nds total tr m' nds' total' tr' :
  apply_optimizations st l n m nds total tr = LoopDone m' nds' total' tr' →
  apply_optimizations st0 l n m nds total tr = LoopDone m' nds' total' tr'.
Proof.
  revert m nds total tr. induction l as [|o l IH]; intros m nds total tr;
    cbn [apply_optimizations]; [done|].
  rewrite read_member_with_max.
  destruct (negb (read_member st (is_enabled o))); [apply IH|].
  destruct (apply o) as [f|]; [|apply IH].
  rewrite (budget_unlimited st0 total) by done.
  destruct (budget_exceeded st total); [by destruct (is_explain st)|].
  change (extra_settings_of st0) with (extra_settings_of st).
  destruct (f n nds (extra_settings_of st)). apply IH.
Qed.

(** With the counter above the limit, the first active entry stops the pass. *)
Lemma apply_optimizations_over_budget l n m nds total tr :
  existsb (active st) l = true → (K < total)%N →
  apply_optimizations st l n m nds total tr
  = if is_explain st then LoopReturn nds total tr
    else LoopThrow TOO_MANY_QUERY_PLAN_OPTIMIZATIONS nds total tr.
Proof.
  intros Hact Hover. induction l as [|o l IH]; cbn [apply_optimizations existsb] in *; [done|].
  unfold active in Hact at 1.
  destruct (read_member st (is_enabled o)); cbn [negb andb orb] in *; [|by apply IH].
  destruct (apply o) as [f|].
  - rewrite budget_exceeded_iff. by apply N.ltb_lt in Hover as ->.
  - cbn in Hact. by apply IH.
Qed.

(** The counter equals the number of recorded changes and stays within one
    of the limit; what the loop returns after a change is nonzero. *)
Lemma apply_optimizations_budget l n m nds total tr :
  total = N.of_nat (changes tr) → (total ≤ K + 1)%N →
  match apply_optimizations st l n m nds total tr with
  | LoopDone m' nds' total' tr' =>
    total' = N.of_nat (changes tr') ∧ (total ≤ total' ≤ K + 1)%N
    ∧ (m ≤ m')%N
    ∧ ((total < total')%N → m' ≠ 0%N ∧ existsb (active st) l = true)
  | LoopReturn _ _ tr' => is_explain st = true ∧ N.of_nat (changes tr') = (K + 1)%N
  | LoopThrow code _ _ tr' =>
    code = TOO_MANY_QUERY_PLAN_OPTIMIZATIONS ∧ is_explain st = false
    ∧ N.of_nat (changes tr') = (K + 1)%N
  end.
Proof.
  revert m nds total tr. induction l as [|o l IH]; intros m nds total tr Htot Hle;
    cbn [apply_optimizations existsb].
  - split_and!; try done; lia.
  - unfold active at 1.
    destruct (read_member st (is_enabled o)); cbn [negb andb orb]; [|by apply IH].
    destruct (apply o) as [f|]; [|by apply IH].
    rewrite budget_exceeded_iff. destruct (K <? total)%N eqn:Hover.
    + apply N.ltb_lt in Hover.
      destruct (is_explain st); split_and!; try done; lia.
    + apply N.ltb_ge in Hover.
      destruct (f n nds (extra_settings_of st)) as [d nds1].
      set (total1 := if (d =? 0)%N then total else size_incr total).
      set (tr1 := tr ++ [EvApply (name o) n d]).
      assert (Htot1 : total1 = N.of_nat (changes tr1)
                      ∧ (total ≤ total1 ≤ K + 1)%N
                      ∧ ((total < total1)%N → d ≠ 0%N)).
      { unfold total1, tr1. rewrite changes_app. unfold changes at 2. cbn.
        destruct (d =? 0)%N eqn:Hd; cbn.
        - split_and!; try done; lia.
        - apply N.eqb_neq in Hd. unfold size_incr.
          rewrite N.mod_small by lia. split_and!; try done; lia. }
      destruct Htot1 as (Ht1 & Hle1 & Hd).
      specialize (IH (N.max m d) nds1 total1 tr1 Ht1 (proj2 Hle1)).
      destruct (apply_optimizations st l n (N.max m d) nds1 total1 tr1)
        as [m' nds' total' tr'| |]; [|done..].
      destruct IH as (? & ? & Hm & Hgrow). split_and!; [done|lia|lia|lia|].
      intros Hlt. destruct (decide (total1 < total')%N) as [Hlt1|Hge].
      * destruct (Hgrow Hlt1) as [? ->]. by rewrite orb_true_r.
      * assert (d ≠ 0%N) by (apply Hd; lia). split; [lia|done].
Qed.

Lemma step_within_budget s :
  within_budget st opts s →
  match step_first_pass st opts s with
  | Continue s' => step_first_pass st0 opts s = Continue s' ∧ within_budget st opts s'
  | Return s' => stack s = [] ∨ stopped_by_budget st (Returned s')
  | Throw code s' => stopped_by_budget st (Thrown code s')
  end.
Proof.
  intros (Htot & Hle & Hfull). unfold step_first_pass.
  destruct (stack s) as [|frame below] eqn:Hs; [by left|].
  destruct (next_unvisited_child (nodes s) frame) as [child|] eqn:Hchild.
  - split; [done|]. split_and!; cbn [total_applied_optimizations trace stack]; [done..|].
    intros [Hact (frame' & below' & [= <- <-] & Hd)]%Hfull. split; [done|].
    eexists _, _. split; [done|].
    unfold next_unvisited_child in Hchild. unfold child_frame. cbn.
    destruct (depth_limit frame =? 1)%N eqn:Hone; [done|]. apply N.eqb_neq in Hone.
    destruct (depth_limit frame =? 0)%N eqn:Hz; [by apply N.eqb_eq in Hz|lia].
  - assert (Htot1 : total_applied_optimizations s
                    = N.of_nat (changes (trace s ++ [EvVisit (node frame)])))
      by (rewrite changes_app; cbn; lia).
    pose proof (apply_optimizations_budget opts (node frame) 0%N (nodes s)
                  _ _ Htot1 Hle) as Hloop.
    destruct (decide (total_applied_optimizations s = (K + 1)%N)) as [Heq|Hne].
    + destruct (Hfull Heq) as [Hact _].
      rewrite apply_optimizations_over_budget in Hloop |- * by (done || lia).
      destruct (is_explain st) eqn:Hex.
      * right. eexists. rewrite Hex. split; [|reflexivity]. by destruct Hloop.
      * eexists. rewrite Hex. split; [|reflexivity]. by destruct Hloop as (_ & _ & ?).
    + destruct (apply_optimizations st opts (node frame) 0%N (nodes s)
                  (total_applied_optimizations s) (trace s ++ [EvVisit (node frame)]))
        as [m' nds' total' tr'|nds' total' tr'|code nds' total' tr'] eqn:Hrun.
      * apply apply_optimizations_done_unlimited in Hrun. rewrite Hrun.
        destruct Hloop as (Ht' & Hle' & _ & Hgrow).
        destruct (m' =? 0)%N eqn:Hm'; (split; [done|]).
        -- split_and!; cbn [total_applied_optimizations trace stack]; [done|lia|].
           intros Hfull'. apply N.eqb_eq in Hm'. destruct Hgrow as [? _]; [lia|done].
        -- split_and!; cbn [total_applied_optimizations trace stack]; [done|lia|].
           intros Hfull'. destruct Hgrow as [? ?]; [lia|]. split; [done|].
           eexists _, _. split; [done|]. done.
      * right. destruct Hloop as [Hex Hch]. eexists. rewrite Hex.
        split; [|reflexivity]. exact Hch.
      * destruct Hloop as (-> & Hex & Hch). eexists. rewrite Hex.
        split; [|reflexivity]. exact Hch.
Qed.

(** Once the counter is above the limit the pass stops within the current
    bounded descent. *)
Lemma full_budget_stops d :
  ∀ s frame below,
    within_budget st opts s → total_applied_optimizations s = (K + 1)%N →
    stack s = frame :: below → N.to_nat (depth_limit frame) ≤ d →
    ∃ fuel, stopped_by_budget st (run_first_pass st opts fuel s).
Proof.
  induction d as [|d IH]; intros s frame below Hinv Hfull Hs Hd.
  - destruct Hinv as (_ & _ & Hinv). destruct (Hinv Hfull) as [_ (? & ? & Hs' & ?)].
    rewrite Hs in Hs'. injection Hs' as <- <-. lia.
  - pose proof (step_within_budget s Hinv) as Hstep.
    pose proof (step_growth st opts s) as Hgrow.
    destruct (step_first_pass st opts s) as [s1|s1|code s1] eqn:Hrun.
    + destruct Hstep as [_ Hinv1].
      destruct (Hgrow s1 frame below Hs eq_refl) as [Hle|(child & Hchild & Hs1)].
      * exfalso. revert Hrun Hle. unfold step_first_pass. rewrite Hs.
        destruct (next_unvisited_child (nodes s) frame); [intros [= <-]; cbn; lia|].
        destruct Hinv as (_ & _ & Hinv). destruct (Hinv Hfull) as [Hact _].
        rewrite apply_optimizations_over_budget by (done || lia).
        by destruct (is_explain st).
      * assert (Htot1 : total_applied_optimizations s1 = (K + 1)%N).
        { revert Hrun. unfold step_first_pass. rewrite Hs, Hchild. by intros [= <-]. }
        destruct (IH s1 _ _ Hinv1 Htot1 Hs1) as [fuel Hfuel].
        { unfold next_unvisited_child in Hchild. unfold child_frame. cbn.
          destruct (depth_limit frame =? 1)%N; [done|].
          destruct (depth_limit frame =? 0)%N; lia. }
        exists (S fuel). cbn [run_first_pass]. by rewrite Hrun.
    + exists 1. cbn [run_first_pass]. rewrite Hrun.
      destruct Hstep as [Hnil|?]; [by rewrite Hs in Hnil|done].
    + exists 1. cbn [run_first_pass]. by rewrite Hrun.
Qed.

(** If the run without limit records more than [K] changes, the run under
    the limit is stopped by the budget test, with [K + 1] changes made. *)
Lemma budget_reached n :
  ∀ s s0,
    within_budget st opts s →
    run_steps st0 opts n s = Some s0 →
    (K + 1 ≤ N.of_nat (changes (trace s0)))%N →
    ∃ fuel, stopped_by_budget st (run_first_pass st opts fuel s).
Proof.
  induction n as [|n IH]; intros s s0 Hinv Hrun Hmany.
  - cbn in Hrun. injection Hrun as <-.
    assert (Hfull : total_applied_optimizations s = (K + 1)%N)
      by (destruct Hinv as (? & ? & _); lia).
    destruct Hinv as (H1 & H2 & H3). destruct (H3 Hfull) as [? (frame & below & Hs & ?)].
    by apply (full_budget_stops (N.to_nat (depth_limit frame)) s frame below).
  - destruct (decide (total_applied_optimizations s = (K + 1)%N)) as [Hfull|Hne].
    { destruct Hinv as (H1 & H2 & H3). destruct (H3 Hfull) as [? (frame & below & Hs & ?)].
      by apply (full_budget_stops (N.to_nat (depth_limit frame)) s frame below). }
    cbn [run_steps] in Hrun.
    pose proof (step_within_budget s Hinv) as Hstep.
    destruct (step_first_pass st opts s) as [s1|s1|code s1] eqn:Hrun1.
    + destruct Hstep as [Hsame Hinv1]. rewrite Hsame in Hrun.
      destruct (IH s1 s0 Hinv1 Hrun Hmany) as [fuel Hfuel].
      exists (S fuel). cbn [run_first_pass]. by rewrite Hrun1.
    + exists 1. cbn [run_first_pass]. rewrite Hrun1.
      destruct Hstep as [Hnil|?]; [|done].
      unfold step_first_pass in Hrun. by rewrite Hnil in Hrun.
    + exists 1. cbn [run_first_pass]. by rewrite Hrun1.
Qed.

End Budget.

Lemma initial_within_budget st opts root nds :
  (0 < max_optimizations_to_apply st)%N →
  within_budget st opts (initial_state root nds).
Proof. intros Hpos. split_and!; cbn; [done|lia|lia]. Qed.

(** C1 (as the code has it).  With limit 0 the first pass never throws.  With
    a limit [K > 0] (and [K + 1] representable), if the run without limit
    records at least [K + 1] changes then the run under the limit is stopped
    by the budget test after exactly [K + 1] changes: in explain mode it
    returns without error, otherwise it throws
    [TOO_MANY_QUERY_PLAN_OPTIMIZATIONS]. *)
Theorem C1_budget_stops_one_past_limit opts st root nds :
  (max_optimizations_to_apply st = 0%N →
   ∀ fuel code s, optimizeTreeFirstPass opts st root nds fuel ≠ Thrown code s)
  ∧ (optimize_plan st = true →
     (0 < max_optimizations_to_apply st)%N →
     (max_optimizations_to_apply st + 1 < size_t_modulus)%N →
     ∀ n s0,
       run_steps (with_max_optimizations 0 st) opts n (initial_state root nds) = Some s0 →
       (max_optimizations_to_apply st + 1 ≤ N.of_nat (changes (trace s0)))%N →
       ∃ fuel s,
         N.of_nat (changes (trace s)) = (max_optimizations_to_apply st + 1)%N
         ∧ optimizeTreeFirstPass opts st root nds fuel
           = if is_explain st then Returned s
             else Thrown TOO_MANY_QUERY_PLAN_OPTIMIZATIONS s).
Proof.
  split.
  - intros Hmax fuel code s. unfold optimizeTreeFirstPass.
    destruct (negb (optimize_plan st)); [done|].
    by apply run_unlimited_never_throws.
  - intros Hon Hpos Hfit n s0 Hrun Hmany. unfold optimizeTreeFirstPass.
    rewrite Hon. cbn [negb].
    destruct (budget_reached st opts Hpos Hfit n (initial_state root nds) s0)
      as [fuel (s & Hs & Hr)]; [by apply initial_within_budget|done|done|].
    by exists fuel, s.
Qed.

Lemma C1_budget_stops_one_past_limit_witness :
  ∃ fuel s,
    N.of_nat (changes (trace s)) = 2%N
    ∧ optimizeTreeFirstPass [mark_rule] limit_one_settings 0 example_plan fuel
      = Thrown TOO_MANY_QUERY_PLAN_OPTIMIZATIONS s.
Proof.
  destruct (C1_budget_stops_one_past_limit [mark_rule] limit_one_settings 0 example_plan)
    as [_ H].
  refine (H eq_refl eq_refl eq_refl 5 _ _ _).
  - vm_compute. reflexivity.
  - vm_compute. discriminate.
Defined.

(** In explain mode with limit 1, on a plan where the rule applies exactly
    twice, the pass returns with two changes in the tree, not at most one. *)
Lemma C1_explain_keeps_one_change_too_many :
  (∃ s0, optimizeTreeFirstPass [mark_rule] example_settings 0 example_plan 20 = Returned s0
         ∧ stack s0 = [] ∧ changes (trace s0) = 2)
  ∧ ∃ s, optimizeTreeFirstPass [mark_rule] limit_one_explain_settings 0 example_plan 20
         = Returned s
         ∧ ¬ (N.of_nat (changes (trace s))
              ≤ max_optimizations_to_apply limit_one_explain_settings)%N.
Proof.
  split.
  - eexists. split; [vm_compute; reflexivity|]. by vm_compute.
  - eexists. split; [vm_compute; reflexivity|]. vm_compute. by intros H.
Qed.

(** ** Termination *)

Section Termination.
Context (st : QueryPlanOptimizationSettings) (opts : list Optimization).
Context (Hrules : rule_contract st opts).

Lemma budget_exceeded_limit total :
  budget_exceeded st total = true → max_optimizations_to_apply st ≠ 0%N.
Proof.
  unfold budget_exceeded. intros [H _]%andb_prop.
  by apply negb_true_iff, N.eqb_neq in H.
Qed.

(** The rule loop leaves everything as it was, or records a change, or is cut
    by the budget test. *)
Lemma apply_optimizations_progress l n m nds total tr :
  (∀ o, o ∈ l → o ∈ opts) → finite_plan nds →
  match apply_optimizations st l n m nds total tr with
  | LoopDone m' nds' total' tr' =>
    finite_plan nds'
    ∧ ((nds' = nds ∧ m' = m ∧ total' = total ∧ changes tr' = changes tr)
       ∨ changes tr < changes tr')
  | LoopReturn _ _ _ => max_optimizations_to_apply st ≠ 0%N ∧ is_explain st = true
  | LoopThrow code _ _ _ =>
    code = TOO_MANY_QUERY_PLAN_OPTIMIZATIONS
    ∧ max_optimizations_to_apply st ≠ 0%N ∧ is_explain st = false
  end.
Proof.
  revert m nds total tr. induction l as [|o l IH]; intros m nds total tr Hsub Hfin;
    cbn [apply_optimizations]; [split; [done|left; by split_and!]|].
  assert (Hsub' : ∀ o', o' ∈ l → o' ∈ opts) by (intros; apply Hsub; by right).
  destruct (negb (read_member st (is_enabled o))); [by apply IH|].
  destruct (apply o) as [f|] eqn:Hf; [|by apply IH].
  destruct (budget_exceeded st total) eqn:Hb.
  { apply budget_exceeded_limit in Hb. by destruct (is_explain st). }
  destruct (Hrules o f n nds) as (Hfin1 & Hzero); [apply Hsub; by left|done..|].
  destruct (f n nds (extra_settings_of st)) as [d nds1]. cbn [fst snd] in *.
  specialize (IH (N.max m d) nds1 (if (d =? 0)%N then total else size_incr total)
                (tr ++ [EvApply (name o) n d]) Hsub' Hfin1).
  destruct (apply_optimizations st l n (N.max m d) nds1 _ _)
    as [m' nds' total' tr'| |]; [|done..].
  destruct IH as [Hfin' Hcase]. split; [done|].
  rewrite changes_snoc_apply in Hcase.
  destruct (decide (d = 0%N)) as [->|Hd].
  - rewrite (Hzero eq_refl) in *. rewrite N.max_0_r in Hcase. cbn in Hcase.
    destruct Hcase as [(-> & -> & -> & ->)|?]; [left; split_and!; try done; lia|right; lia].
  - right. apply N.eqb_neq in Hd. rewrite Hd in Hcase.
    destruct Hcase as [(_ & _ & _ & ->)|?]; lia.
Qed.

Lemma advances_step s s1 target :
  step_first_pass st opts s = Continue s1 →
  nodes s1 = nodes s →
  total_applied_optimizations s1 = total_applied_optimizations s →
  trace s1 = trace s →
  advances st opts s1 target → advances st opts s target.
Proof.
  intros Hstep Hn Ht Htr [k Hk]. exists (S k). cbn [run_steps run_first_pass].
  rewrite Hstep, <- Hn, <- Ht, <- Htr. done.
Qed.

Lemma advances_trans s mid target :
  advances st opts s mid →
  (∀ s1, stack s1 = mid → nodes s1 = nodes s →
         total_applied_optimizations s1 = total_applied_optimizations s →
         changes (trace s1) = changes (trace s) →
         advances st opts s1 target) →
  advances st opts s target.
Proof.
  intros [k [(s1 & Hk & Hs1 & Hn & Ht & Hc)|[Hk|Hk]]] Hnext.
  - destruct (Hnext s1 Hs1 Hn Ht Hc) as [k' Hk']. exists (k + k').
    rewrite (run_steps_add _ _ _ _ _ _ Hk), (run_after_steps _ _ _ _ _ _ Hk).
    by rewrite <- Hn, <- Ht, <- Hc.
  - exists k. right. by left.
  - exists k. right. by right.
Qed.

(** Processing the node of the top frame. *)
Lemma process_advances frame below nds total tr :
  finite_plan nds →
  next_unvisited_child nds frame = None →
  advances st opts (mkState (frame :: below) nds total tr) below.
Proof.
  intros Hfin Hnone. exists 1. cbn [run_steps run_first_pass].
  unfold step_first_pass. cbn [stack nodes total_applied_optimizations trace].
  rewrite Hnone.
  pose proof (apply_optimizations_progress opts (node frame) 0%N nds total
                (tr ++ [EvVisit (node frame)]) (λ _ H, H) Hfin) as Hloop.
  assert (Hvisit : changes (tr ++ [EvVisit (node frame)]) = changes tr)
    by apply changes_snoc_visit.
  rewrite Hvisit in Hloop.
  destruct (apply_optimizations st opts (node frame) 0%N nds total _)
    as [m' nds' total' tr'|nds' total' tr'|code nds' total' tr'].
  - destruct Hloop as [Hfin' [(-> & -> & -> & Hsame)|Hmore]].
    + left. cbn. by eexists.
    + right. left. destruct (m' =? 0)%N; by eexists.
  - right. right. cbn. by right.
  - right. right. done.
Qed.

(** Walking the remaining children of a node and then processing it. *)
Lemma children_advance nds n ts dl below :
  finite_plan nds →
  children_of nds n = map tree_root ts →
  Forall (λ t, ∀ dl nc below total tr,
            advances st opts
              (mkState (mkFrame (tree_root t) dl nc :: below) nds total tr) below) ts →
  ∀ r nc total tr, length ts ≤ N.to_nat nc + r →
    advances st opts (mkState (mkFrame n dl nc :: below) nds total tr) below.
Proof.
  intros Hfin Hch Hsub. induction r as [|r IH]; intros nc total tr Hr.
  - apply process_advances; [done|]. unfold next_unvisited_child.
    rewrite child_at_lookup. cbn.
    destruct (dl =? 1)%N; [done|]. apply lookup_ge_None. rewrite Hch, length_map. lia.
  - destruct (next_unvisited_child nds (mkFrame n dl nc)) as [child|] eqn:Hchild;
      [|by apply process_advances].
    assert (Hin : ∃ t, t ∈ ts ∧ tree_root t = child).
    { unfold next_unvisited_child in Hchild. rewrite child_at_lookup in Hchild.
      cbn in Hchild.
      destruct (dl =? 1)%N; [done|]. rewrite Hch in Hchild.
      apply list_elem_of_lookup_2, list_elem_of_fmap in Hchild as (t & -> & ?). eauto. }
    destruct Hin as (t & Ht & <-). rewrite Forall_forall in Hsub.
    eapply advances_step.
    { unfold step_first_pass. cbn [stack nodes]. by rewrite Hchild. }
    { done. } { done. } { done. }
    eapply advances_trans; [apply (Hsub t Ht)|].
    cbn [stack nodes total_applied_optimizations trace].
    intros [stk nds1 total1 tr1]. cbn. intros -> -> -> _.
    apply IH. lia.
Qed.

Lemma subtree_advances nds t :
  finite_plan nds → represents nds t = true →
  ∀ dl nc below total tr,
    advances st opts (mkState (mkFrame (tree_root t) dl nc :: below) nds total tr) below.
Proof.
  intros Hfin. induction t as [n ts IH] using PlanTree_forall_ind.
  intros [Hch Hts]%represents_PNode dl nc below total tr. cbn [tree_root].
  apply (children_advance nds n ts dl below Hfin Hch) with (r := length ts); [|lia].
  rewrite Forall_forall in IH, Hts |- *. intros t Ht. apply IH; [done|by apply Hts].
Qed.

(** From any stack the pass ends or some rule reports a change. *)
Lemma stack_advances stk :
  ∀ nds total tr, finite_plan nds →
    ∃ k, (∃ s', run_steps st opts k (mkState stk nds total tr) = Some s'
                ∧ finite_plan (nodes s') ∧ changes tr < changes (trace s'))
         ∨ halted st (run_first_pass st opts k (mkState stk nds total tr)).
Proof.
  induction stk as [|frame below IH]; intros nds total tr Hfin.
  - exists 1. right. cbn. by left.
  - destruct (Hfin (node frame)) as (t & Hroot & Ht).
    destruct frame as [n dl nc]. cbn in Hroot. subst n.
    destruct (subtree_advances nds t Hfin Ht dl nc below total tr)
      as [k [(s1 & Hk & Hs1 & Hn & Htot & Hc)|[Hk|Hk]]].
    + destruct s1 as [stk1 nds1 total1 tr1].
      cbn [stack nodes total_applied_optimizations trace] in Hs1, Hn, Htot, Hc. subst.
      destruct (IH nds total tr1 Hfin) as [k' Hk']. exists (k + k').
      rewrite (run_steps_add _ _ _ _ _ _ Hk), (run_after_steps _ _ _ _ _ _ Hk).
      by rewrite <- Hc.
    + exists k. by left.
    + exists k. by right.
Qed.

(** A run in which the changes are bounded comes to an end. *)
Lemma run_terminates root nds0 bound slack :
  changes_bounded st opts root nds0 bound →
  ∀ k0 s,
    run_steps st opts k0 (initial_state root nds0) = Some s →
    finite_plan (nodes s) → bound - changes (trace s) ≤ slack →
    ∃ fuel, halted st (run_first_pass st opts fuel s).
Proof.
  intros Hbound. induction slack as [|slack IH]; intros k0 [stk nds total tr] Hreach Hfin Hslack;
    cbn [nodes trace] in Hfin, Hslack;
    destruct (stack_advances stk nds total tr Hfin) as [k [(s' & Hk & Hfin' & Hlt)|Hk]];
    try (by exists k);
    assert (Hreach' : run_steps st opts (k0 + k) (initial_state root nds0) = Some s')
      by (by rewrite (run_steps_add _ _ _ _ _ _ Hreach));
    pose proof (Hbound _ _ Hreach') as Hle.
  - lia.
  - destruct (IH (k0 + k) s' Hreach' Hfin') as [fuel Hfuel]; [lia|].
    exists (k + fuel). by rewrite (run_after_steps _ _ _ _ _ _ Hk).
Qed.

End Termination.

(** C3.  On a plan that is a finite tree, with rules that keep it one and
    leave the plan alone when they report 0, if in the run the rules report a
    nonzero update depth only a bounded number of times (at every node every
    rule reports 0 from some point on), then the first pass terminates: with
    enough fuel it returns with the stack empty, or is ended by the budget
    test; with no limit it returns with the stack empty. *)
Theorem C3_first_pass_terminates opts st root nds bound :
  finite_plan nds → rule_contract st opts → changes_bounded st opts root nds bound →
  ∃ fuel,
    halted st (optimizeTreeFirstPass opts st root nds fuel)
    ∧ (max_optimizations_to_apply st = 0%N →
       ∃ s, optimizeTreeFirstPass opts st root nds fuel = Returned s ∧ stack s = []).
Proof.
  intros Hfin Hrules Hbound. unfold optimizeTreeFirstPass.
  destruct (negb (optimize_plan st)).
  - exists 0. split; [by left|]. intros _. by eexists.
  - destruct (run_terminates st opts Hrules root nds bound bound Hbound 0
                (initial_state root nds)) as [fuel Hfuel]; [done|done|cbn; lia|].
    exists fuel. split; [done|]. intros Hmax.
    destruct (run_first_pass st opts fuel (initial_state root nds)) as [s|code s|s];
      cbn in Hfuel.
    + exists s. split; [done|]. by destruct Hfuel as [?|[? _]].
    + by destruct Hfuel as (_ & ? & _).
    + done.
Qed.

(** ** Rules with a potential *)

Section Potential.
Context (st : QueryPlanOptimizationSettings) (opts : list Optimization).
Context (mu : Nodes → nat).
Context (Hrules : well_behaved st opts mu).

Lemma well_behaved_contract : rule_contract st opts.
Proof.
  intros o f n nds Ho Hf Hfin. destruct (Hrules o f n nds Ho Hf Hfin) as (? & ? & _). done.
Qed.

Lemma apply_optimizations_potential l n m nds total tr :
  (∀ o, o ∈ l → o ∈ opts) → finite_plan nds →
  match apply_optimizations st l n m nds total tr with
  | LoopDone _ nds' _ tr' | LoopReturn nds' _ tr' | LoopThrow _ nds' _ tr' =>
    finite_plan nds' ∧ changes tr' + mu nds' ≤ changes tr + mu nds
  end.
Proof.
  revert m nds total tr. induction l as [|o l IH]; intros m nds total tr Hsub Hfin;
    cbn [apply_optimizations]; [by auto|].
  assert (Hsub' : ∀ o', o' ∈ l → o' ∈ opts) by (intros; apply Hsub; by right).
  destruct (negb (read_member st (is_enabled o))); [by apply IH|].
  destruct (apply o) as [f|] eqn:Hf; [|by apply IH].
  destruct (budget_exceeded st total); [by destruct (is_explain st)|].
  destruct (Hrules o f n nds) as (Hfin1 & Hzero & Hdown); [apply Hsub; by left|done..|].
  destruct (f n nds (extra_settings_of st)) as [d nds1]. cbn [fst snd] in *.
  specialize (IH (N.max m d) nds1 (if (d =? 0)%N then total else size_incr total)
                (tr ++ [EvApply (name o) n d]) Hsub' Hfin1).
  rewrite changes_snoc_apply in IH.
  assert (Hstep : (if (d =? 0)%N then 0 else 1) + mu nds1 ≤ mu nds).
  { destruct (decide (d = 0%N)) as [->|Hd]; cbn.
    - by rewrite (Hzero eq_refl).
    - specialize (Hdown Hd). apply N.eqb_neq in Hd as ->. lia. }
  destruct (apply_optimizations st l n (N.max m d) nds1 _ _);
    destruct IH as [? IH]; (split; [done|]);
    destruct (d =? 0)%N; lia.
Qed.

Lemma step_potential s :
  finite_plan (nodes s) →
  match step_first_pass st opts s with
  | Continue s' | Return s' | Throw _ s' =>
    finite_plan (nodes s')
    ∧ changes (trace s') + mu (nodes s') ≤ changes (trace s) + mu (nodes s)
  end.
Proof.
  intros Hfin. unfold step_first_pass. destruct (stack s) as [|frame below]; [done|].
  destruct (next_unvisited_child (nodes s) frame); [done|].
  pose proof (apply_optimizations_potential opts (node frame) 0%N (nodes s)
                (total_applied_optimizations s) (trace s ++ [EvVisit (node frame)])
                (λ _ H, H) Hfin) as Hloop.
  assert (Hvisit : changes (trace s ++ [EvVisit (node frame)]) = changes (trace s))
    by apply changes_snoc_visit.
  rewrite Hvisit in Hloop.
  destruct (apply_optimizations st opts (node frame) 0%N (nodes s) _ _)
    as [m' nds' total' tr'| |]; [|done..].
  by destruct (m' =? 0)%N.
Qed.

(** A potential bounds the number of changes of every run. *)
Lemma potential_bounds_changes root nds :
  finite_plan nds → changes_bounded st opts root nds (mu nds).
Proof.
  intros Hfin k s Hrun.
  assert (Hgen : ∀ k s0 s1, finite_plan (nodes s0) →
            run_steps st opts k s0 = Some s1 →
            changes (trace s1) + mu (nodes s1) ≤ changes (trace s0) + mu (nodes s0)).
  { clear Hrun Hfin k s. intros k. induction k as [|k IH]; intros s0 s1 Hfin0; cbn [run_steps].
    - intros [= ->]. lia.
    - pose proof (step_potential s0 Hfin0) as Hstep.
      destruct (step_first_pass st opts s0) as [s'| |]; [|done..].
      destruct Hstep as [Hfin' Hle]. intros Hk. specialize (IH s' s1 Hfin' Hk). lia. }
  specialize (Hgen k (initial_state root nds) s Hfin Hrun).
  cbn [initial_state trace nodes] in Hgen. change (changes []) with 0 in Hgen. lia.
Qed.

End Potential.

(** The rule [mark_once] meets the contract, with the number of nodes not yet
    rewritten as potential. *)
Lemma represents_same_children nds nds' t :
  (∀ n, children_of nds' n = children_of nds n) →
  represents nds' t = represents nds t.
Proof.
  intros Hsame. induction t as [n ts IH] using PlanTree_forall_ind.
  cbn [represents]. rewrite Hsame. f_equal.
  induction IH as [|t ts Ht _ IHts]; [done|]. cbn [forallb]. by rewrite Ht, IHts.
Qed.

Lemma finite_plan_same_children nds nds' :
  (∀ n, children_of nds' n = children_of nds n) → finite_plan nds → finite_plan nds'.
Proof.
  intros Hsame Hfin n. destruct (Hfin n) as (t & Hroot & Ht).
  exists t. split; [done|]. by rewrite (represents_same_children nds).
Qed.

Lemma children_of_restep (nds : Nodes) n nd stp x :
  nds !! n = Some nd →
  children_of (<[n := mkNode stp (children nd)]> nds) x = children_of nds x.
Proof.
  intros Hn. unfold children_of. destruct (decide (n = x)) as [->|Hne].
  - by rewrite lookup_insert_eq, Hn.
  - by rewrite lookup_insert_ne.
Qed.

Lemma unmarked_after_mark (nds : Nodes) n nd :
  nds !! n = Some nd → step_payload (step nd) = 0%N →
  unmarked (<[n := mkNode (mkStep (step_kind (step nd)) 1%N) (children nd)]> nds)
  < unmarked nds.
Proof.
  intros Hn Hzero. unfold unmarked.
  rewrite map_filter_insert_False by (cbn; lia).
  rewrite map_filter_delete.
  assert (Hin : filter (λ kv : NodeId * Node, step_payload (step kv.2) = 0%N) nds !! n
                = Some nd) by (by apply map_lookup_filter_Some).
  rewrite map_size_delete, Hin.
  assert (size (filter (λ kv : NodeId * Node, step_payload (step kv.2) = 0%N) nds) ≠ 0).
  { apply map_size_non_empty_iff. intros Hempty. by rewrite Hempty, lookup_empty in Hin. }
  cbn. lia.
Qed.

Lemma mark_rule_well_behaved st : well_behaved st [mark_rule] unmarked.
Proof.
  intros o f n nds Ho Hf Hfin. apply list_elem_of_singleton in Ho as ->.
  cbn in Hf. injection Hf as <-. unfold mark_once.
  destruct (nds !! n) as [nd|] eqn:Hn; [|by split_and!].
  destruct (step_payload (step nd) =? 0)%N eqn:Hp; [|by split_and!].
  apply N.eqb_eq in Hp. cbn [fst snd]. split_and!.
  - eapply finite_plan_same_children; [|done]. intros x. by apply children_of_restep.
  - done.
  - intros _. by apply unmarked_after_mark.
Qed.

Lemma example_plan_finite : finite_plan example_plan.
Proof.
  intros n. destruct (decide (n = 0)) as [->|H0]; [by exists example_tree|].
  destruct (decide (n = 1)) as [->|H1]; [by exists (PNode 1 [])|].
  exists (PNode n []). split; [done|]. cbn. unfold children_of, example_plan.
  rewrite !lookup_insert_ne by done. by rewrite lookup_empty.
Qed.

Lemma C3_first_pass_terminates_witness :
  ∃ fuel,
    halted example_settings (optimizeTreeFirstPass [mark_rule] example_settings 0 example_plan fuel)
    ∧ (max_optimizations_to_apply example_settings = 0%N →
       ∃ s, optimizeTreeFirstPass [mark_rule] example_settings 0 example_plan fuel = Returned s
            ∧ stack s = []).
Proof.
  apply (C3_first_pass_terminates [mark_rule] example_settings 0 example_plan
           (unmarked example_plan)).
  - apply example_plan_finite.
  - apply (well_behaved_contract _ _ unmarked), mark_rule_well_behaved.
  - apply potential_bounds_changes; [apply mark_rule_well_behaved|apply example_plan_finite].
Defined.

(** ** The theorems at the example plan *)

Lemma C10_optimize_plan_off_witness :
  optimizeTreeFirstPass [mark_rule] plan_off_settings 0 example_plan 7
  = Returned (mkState [] example_plan 0%N []).
Proof.
  apply (C10_optimize_plan_off [mark_rule] plan_off_settings 0 example_plan 7).
  reflexivity.
Defined.

Lemma rules_off_all_disabled :
  ∀ o, o ∈ [mark_rule; idle_rule] → read_member rules_off_settings (is_enabled o) = false.
Proof.
  intros o Ho. repeat (apply elem_of_cons in Ho as [->|Ho]; [reflexivity|]).
  by apply not_elem_of_nil in Ho.
Defined.

Lemma C7_disabled_registry_keeps_tree_witness :
  (∀ fuel,
     match optimizeTreeFirstPass [mark_rule; idle_rule] rules_off_settings 0 example_plan fuel with
     | Returned s | OutOfFuel s => nodes s = example_plan ∧ changes (trace s) = 0
     | Thrown _ _ => False
     end)
  ∧ (∀ t, tree_root t = 0 → represents example_plan t = true →
       ∃ fuel s,
         optimizeTreeFirstPass [mark_rule; idle_rule] rules_off_settings 0 example_plan fuel
         = Returned s
         ∧ stack s = [] ∧ nodes s = example_plan).
Proof.
  apply (C7_disabled_registry_keeps_tree [mark_rule; idle_rule] rules_off_settings 0 example_plan).
  exact rules_off_all_disabled.
Defined.

Lemma idle_rule_reports_zero nds : all_report_zero example_settings [idle_rule] nds.
Proof.
  intros o f n Ho _ Hf. apply list_elem_of_singleton in Ho as ->.
  cbn in Hf. by simplify_eq.
Defined.

Lemma example_tree_distinct : NoDup (tree_nodes example_tree).
Proof.
  cbn. apply NoDup_cons. split; [by intros ?%list_elem_of_singleton|]. apply NoDup_singleton.
Defined.

Lemma C2_stable_pass_is_postorder_witness :
  ∃ fuel s,
    optimizeTreeFirstPass [idle_rule] example_settings 0 example_plan fuel = Returned s
    ∧ stack s = [] ∧ nodes s = example_plan
    ∧ visits (trace s) = [1; 0]
    ∧ (∀ n, n ∈ [0; 1] → count_occ Nat.eq_dec (visits (trace s)) n = 1)
    ∧ (∀ p c, p ∈ [0; 1] → c ∈ children_of example_plan p →
              processed_before c p (visits (trace s))).
Proof.
  apply (C2_stable_pass_is_postorder [idle_rule] example_settings 0 example_plan example_tree).
  - reflexivity.
  - reflexivity.
  - vm_compute. reflexivity.
  - exact example_tree_distinct.
  - exact (idle_rule_reports_zero example_plan).
Defined.

Lemma C6_visit_and_redescent_witness :
  step_first_pass example_settings [mark_rule; deep_rule; idle_rule]
    (initial_state 0 example_plan)
  = Continue (mkState [mkFrame 1 0%N 0%N; mkFrame 0 0%N 1%N] example_plan 0%N [])
  ∧ step_first_pass example_settings [mark_rule; deep_rule; idle_rule]
      (mkState [mkFrame 1 0%N 0%N; mkFrame 0 0%N 1%N] example_plan 0%N [])
    = Continue (mkState [mkFrame 1 3%N 0%N; mkFrame 0 0%N 1%N]
        (<[1 := mkNode (mkStep ReadFromMergeTree 2%N) []]> example_plan) 2%N
        [EvVisit 1; EvApply "markOnce" 1 1%N; EvApply "markDeep" 1 3%N;
         EvApply "idle" 1 0%N])
  ∧ step_first_pass example_settings [mark_rule; deep_rule; idle_rule]
      (mkState [mkFrame 1 3%N 0%N; mkFrame 0 0%N 1%N]
        (<[1 := mkNode (mkStep ReadFromMergeTree 2%N) []]> example_plan) 2%N
        [EvVisit 1; EvApply "markOnce" 1 1%N; EvApply "markDeep" 1 3%N;
         EvApply "idle" 1 0%N])
    = Continue (mkState [mkFrame 0 0%N 1%N]
        (<[1 := mkNode (mkStep ReadFromMergeTree 2%N) []]> example_plan) 2%N
        [EvVisit 1; EvApply "markOnce" 1 1%N; EvApply "markDeep" 1 3%N;
         EvApply "idle" 1 0%N;
         EvVisit 1; EvApply "markOnce" 1 0%N; EvApply "markDeep" 1 0%N;
         EvApply "idle" 1 0%N])
  ∧ step_first_pass example_settings [mark_rule]
      (mkState [mkFrame 0 1%N 0%N] example_plan 0%N [])
    = Continue (mkState [mkFrame 0 1%N 0%N]
        (<[0 := mkNode (mkStep OtherStep 1%N) [1]]> example_plan) 1%N
        [EvVisit 0; EvApply "markOnce" 0 1%N]).
Proof.
  split_and!.
  - destruct (C6_visit_and_redescent example_settings [mark_rule; deep_rule; idle_rule]
                (initial_state 0 example_plan) (mkFrame 0 0%N 0%N) [] eq_refl) as [Hpush _].
    exact (Hpush 1 eq_refl).
  - destruct (C6_visit_and_redescent example_settings [mark_rule; deep_rule; idle_rule]
                (mkState [mkFrame 1 0%N 0%N; mkFrame 0 0%N 1%N] example_plan 0%N [])
                (mkFrame 1 0%N 0%N) [mkFrame 0 0%N 1%N] eq_refl) as (_ & _ & _ & Hvisit & _).
    exact (Hvisit eq_refl eq_refl).
  - destruct (C6_visit_and_redescent example_settings [mark_rule; deep_rule; idle_rule]
                (mkState [mkFrame 1 3%N 0%N; mkFrame 0 0%N 1%N]
                   (<[1 := mkNode (mkStep ReadFromMergeTree 2%N) []]> example_plan) 2%N
                   [EvVisit 1; EvApply "markOnce" 1 1%N; EvApply "markDeep" 1 3%N;
                    EvApply "idle" 1 0%N])
                (mkFrame 1 3%N 0%N) [mkFrame 0 0%N 1%N] eq_refl) as (_ & _ & _ & Hvisit & _).
    exact (Hvisit eq_refl eq_refl).
  - destruct (C6_visit_and_redescent example_settings [mark_rule]
                (mkState [mkFrame 0 1%N 0%N] example_plan 0%N [])
                (mkFrame 0 1%N 0%N) [] eq_refl) as (_ & Hstay & _ & Hvisit & _).
    exact (Hvisit eq_refl (Hstay eq_refl)).
Defined.

(** * Further properties of the first pass *)

(** ** The budget counter *)

Lemma size_incr_mod a : size_incr (a mod size_t_modulus) = ((a + 1) mod size_t_modulus)%N.
Proof. unfold size_incr. by rewrite N.Div0.add_mod_idemp_l. Qed.

Lemma apply_optimizations_counter st l n m nds total tr :
  total = (N.of_nat (changes tr) mod size_t_modulus)%N →
  loop_total (apply_optimizations st l n m nds total tr)
  = (N.of_nat (changes (loop_trace (apply_optimizations st l n m nds total tr)))
     mod size_t_modulus)%N.
Proof.
  revert m nds total tr. induction l as [|o l IH]; intros m nds total tr Htot;
    cbn [apply_optimizations]; [done|].
  destruct (negb (read_member st (is_enabled o))); [by apply IH|].
  destruct (apply o) as [f|]; [|by apply IH].
  destruct (budget_exceeded st total); [by destruct (is_explain st)|].
  destruct (f n nds (extra_settings_of st)) as [d nds1]. apply IH.
  rewrite changes_snoc_apply. destruct (d =? 0)%N.
  - by rewrite Nat.add_0_r.
  - rewrite Htot, size_incr_mod. f_equal. lia.
Qed.

Lemma step_counter st opts s :
  total_applied_optimizations s = (N.of_nat (changes (trace s)) mod size_t_modulus)%N →
  match step_first_pass st opts s with
  | Continue s' | Return s' | Throw _ s' =>
    total_applied_optimizations s' = (N.of_nat (changes (trace s')) mod size_t_modulus)%N
  end.
Proof.
  intros Htot. unfold step_first_pass. destruct (stack s) as [|frame below]; [done|].
  destruct (next_unvisited_child (nodes s) frame); [done|].
  pose proof (apply_optimizations_counter st opts (node frame) 0%N (nodes s)
                (total_applied_optimizations s) (trace s ++ [EvVisit (node frame)])) as Hloop.
  rewrite changes_snoc_visit in Hloop. specialize (Hloop Htot).
  destruct (apply_optimizations st opts (node frame) 0%N (nodes s) _ _)
    as [m' nds' total' tr'| |]; [|done..].
  by destruct (m' =? 0)%N.
Qed.

(** The budget counter is the number of nonzero reports so far, modulo
    2^64: it is incremented exactly when a rule reports a nonzero update
    depth, however the pass ends. *)
Theorem counter_counts_changes opts st root nds fuel :
  total_applied_optimizations (final_state (optimizeTreeFirstPass opts st root nds fuel))
  = (N.of_nat (changes (trace (final_state (optimizeTreeFirstPass opts st root nds fuel))))
     mod size_t_modulus)%N.
Proof.
  unfold optimizeTreeFirstPass. destruct (negb (optimize_plan st)); [done|].
  assert (Hgen : ∀ fuel s,
            total_applied_optimizations s
            = (N.of_nat (changes (trace s)) mod size_t_modulus)%N →
            total_applied_optimizations (final_state (run_first_pass st opts fuel s))
            = (N.of_nat (changes (trace (final_state (run_first_pass st opts fuel s))))
               mod size_t_modulus)%N).
  { clear fuel. induction fuel as [|fuel IH]; intros s Hs; cbn [run_first_pass]; [done|].
    pose proof (step_counter st opts s Hs) as Hstep.
    destruct (step_first_pass st opts s); [by apply IH|done..]. }
  by apply Hgen.
Qed.

Lemma apply_optimizations_bounded st l n m nds total tr :
  (0 < max_optimizations_to_apply st)%N →
  (max_optimizations_to_apply st + 1 < size_t_modulus)%N →
  total = N.of_nat (changes tr) → (total ≤ max_optimizations_to_apply st + 1)%N →
  loop_total (apply_optimizations st l n m nds total tr)
  = N.of_nat (changes (loop_trace (apply_optimizations st l n m nds total tr)))
  ∧ (loop_total (apply_optimizations st l n m nds total tr)
     ≤ max_optimizations_to_apply st + 1)%N.
Proof.
  intros Hpos Hfit. revert m nds total tr.
  induction l as [|o l IH]; intros m nds total tr Htot Hle; cbn [apply_optimizations]; [done|].
  destruct (negb (read_member st (is_enabled o))); [by apply IH|].
  destruct (apply o) as [f|]; [|by apply IH].
  rewrite (budget_exceeded_iff st Hpos Hfit).
  destruct (max_optimizations_to_apply st <? total)%N eqn:Hover;
    [by destruct (is_explain st)|].
  apply N.ltb_ge in Hover.
  destruct (f n nds (extra_settings_of st)) as [d nds1]. apply IH.
  - rewrite changes_snoc_apply. destruct (d =? 0)%N; [lia|].
    unfold size_incr. rewrite N.mod_small by lia. lia.
  - destruct (d =? 0)%N; [lia|]. unfold size_incr. rewrite N.mod_small by lia. lia.
Qed.

(** Under a nonzero limit [K] (with [K + 1] representable) the pass never
    makes more than [K + 1] changes, whatever the rules and the plan, and
    however long it runs; the counter is then the exact number of changes. *)
Theorem changes_never_exceed_limit_plus_one opts st root nds fuel :
  (0 < max_optimizations_to_apply st)%N →
  (max_optimizations_to_apply st + 1 < size_t_modulus)%N →
  total_applied_optimizations (final_state (optimizeTreeFirstPass opts st root nds fuel))
  = N.of_nat (changes (trace (final_state (optimizeTreeFirstPass opts st root nds fuel))))
  ∧ (N.of_nat (changes (trace (final_state (optimizeTreeFirstPass opts st root nds fuel))))
     ≤ max_optimizations_to_apply st + 1)%N.
Proof.
  intros Hpos Hfit. unfold optimizeTreeFirstPass.
  destruct (negb (optimize_plan st)); [cbn; split; [done|lia]|].
  assert (Hgen : ∀ fuel s,
            total_applied_optimizations s = N.of_nat (changes (trace s)) →
            (total_applied_optimizations s ≤ max_optimizations_to_apply st + 1)%N →
            total_applied_optimizations (final_state (run_first_pass st opts fuel s))
            = N.of_nat (changes (trace (final_state (run_first_pass st opts fuel s))))
            ∧ (total_applied_optimizations (final_state (run_first_pass st opts fuel s))
               ≤ max_optimizations_to_apply st + 1)%N).
  { clear fuel. induction fuel as [|fuel IH]; intros s Hs Hle; cbn [run_first_pass]; [done|].
    unfold step_first_pass. destruct (stack s) as [|frame below]; [done|].
    destruct (next_unvisited_child (nodes s) frame); [by apply IH|].
    pose proof (apply_optimizations_bounded st opts (node frame) 0%N (nodes s)
                  (total_applied_optimizations s) (trace s ++ [EvVisit (node frame)])
                  Hpos Hfit) as Hloop.
    rewrite changes_snoc_visit in Hloop. specialize (Hloop Hs Hle).
    destruct (apply_optimizations st opts (node frame) 0%N (nodes s) _ _)
      as [m' nds' total' tr'| |]; cbn in Hloop; [|done..].
    destruct Hloop. destruct (m' =? 0)%N; by apply IH. }
  destruct (Hgen fuel (initial_state root nds)) as [H1 H2]; [done|cbn; lia|].
  split; [done|]. by rewrite <- H1.
Qed.

Lemma changes_never_exceed_limit_plus_one_witness :
  (N.of_nat (changes (trace (final_state
     (optimizeTreeFirstPass [mark_rule] limit_one_settings 0%nat example_plan 20%nat))))
   ≤ 2)%N.
Proof.
  apply (changes_never_exceed_limit_plus_one [mark_rule] limit_one_settings 0 example_plan 20).
  - reflexivity.
  - reflexivity.
Defined.

(** ** How the pass can end *)




(** ** Order of the rules within a visit *)

Lemma called_rules_app tr1 tr2 : called_rules (tr1 ++ tr2) = called_rules tr1 ++ called_rules tr2.
Proof. unfold called_rules. apply flat_map_app. Qed.

(** In one visit of a node the rules called are the entries whose flag is set
    and whose function is not null, in registry order, each once, every one
    on the arena the one before left; when the budget test cuts the loop,
    what was called and reported is a prefix of that.  Every event of the
    visit is a call on the visited node. *)
Theorem rules_called_in_registry_order st l n m nds total tr :
  ∃ evs,
    loop_trace (apply_optimizations st l n m nds total tr) = tr ++ evs
    ∧ evs `prefix_of` (applied_rules st l n nds).1
    ∧ called_rules (applied_rules st l n nds).1 = map name (List.filter (active st) l)
    ∧ (∀ e, e ∈ evs → ∃ rule d, e = EvApply rule n d)
    ∧ called_rules evs `prefix_of` map name (List.filter (active st) l)
    ∧ (∀ m' nds' total' tr',
         apply_optimizations st l n m nds total tr = LoopDone m' nds' total' tr' →
         evs = (applied_rules st l n nds).1
         ∧ called_rules evs = map name (List.filter (active st) l)).
Proof.
  revert m nds total tr. induction l as [|o l IH]; intros m nds total tr;
    cbn [apply_optimizations applied_rules List.filter].
  - exists []. rewrite app_nil_r. split_and!; try done. by intros e ?%not_elem_of_nil.
  - destruct (active st o) eqn:Hact; unfold active in Hact.
    2:{ destruct (read_member st (is_enabled o)); cbn [negb]; [|apply IH].
        destruct (apply o) as [f|]; [|apply IH].
        rewrite andb_true_l in Hact. apply bool_decide_eq_false in Hact.
        destruct Hact. by eexists. }
    apply andb_prop in Hact as [-> [f Hf]%bool_decide_eq_true]. rewrite Hf.
    cbn [negb map].
    destruct (f n nds (extra_settings_of st)) as [d nds1] eqn:Hf1. cbn [fst snd].
    destruct (IH (N.max m d) nds1 (if (d =? 0)%N then total else size_incr total)
                (tr ++ [EvApply (name o) n d]))
      as (evs & Htr & Hreports & Hnames & Hev & Hpre & Hall).
    assert (Hcalled : called_rules (EvApply (name o) n d :: (applied_rules st l n nds1).1)
                      = name o :: map name (List.filter (active st) l)).
    { cbn. by rewrite <- Hnames. }
    destruct (budget_exceeded st total).
    { exists []. rewrite app_nil_r.
      destruct (is_explain st); cbn [loop_trace];
        (split_and!; [done|apply prefix_nil|done| |apply prefix_nil|done]);
        by intros e ?%not_elem_of_nil. }
    exists (EvApply (name o) n d :: evs). split_and!.
    + rewrite Htr. by rewrite <- app_assoc.
    + by apply prefix_cons.
    + done.
    + intros e [->|He]%elem_of_cons; [by eexists _, _|by apply Hev].
    + cbn. by apply prefix_cons.
    + intros m' nds' total' tr' Hdone.
      destruct (Hall _ _ _ _ Hdone) as [-> Hn]. split; [done|]. cbn. f_equal. exact Hn.
Qed.

(** ** The pass ends on a quiet visit of the root *)

(** A loop that returns 0 was given 0 and heard only zero reports, from every
    active entry in turn. *)
Lemma apply_optimizations_zero st l n m nds total tr nds' total' tr' :
  apply_optimizations st l n m nds total tr = LoopDone 0%N nds' total' tr' →
  m = 0%N ∧ total' = total
  ∧ tr' = tr ++ map (λ o, EvApply (name o) n 0%N) (List.filter (active st) l).
Proof.
  revert m nds total tr. induction l as [|o l IH]; intros m nds total tr;
    cbn [apply_optimizations List.filter].
  - intros [= -> _ -> ->]. by rewrite app_nil_r.
  - destruct (active st o) eqn:Hact; unfold active in Hact.
    2:{ destruct (read_member st (is_enabled o)); cbn [negb]; [|apply IH].
        destruct (apply o) as [f|]; [|apply IH].
        rewrite andb_true_l in Hact. apply bool_decide_eq_false in Hact.
        destruct Hact. by eexists. }
    apply andb_prop in Hact as [-> [f Hf]%bool_decide_eq_true]. rewrite Hf.
    cbn [negb].
    destruct (budget_exceeded st total); [by destruct (is_explain st)|].
    destruct (f n nds (extra_settings_of st)) as [d nds1].
    intros (Hmax & -> & ->)%IH.
    assert (d = 0%N ∧ m = 0%N) as [-> ->] by lia.
    cbn. by rewrite <- app_assoc.
Qed.

Lemma root_frame_at_bottom st opts root s :
  match stack s with
  | [] => ∃ tr, trace s = tr ++ quiet_events st opts root
  | _ :: _ => ∃ above dl nc, stack s = above ++ [mkFrame root dl nc]
  end →
  match step_first_pass st opts s with
  | Continue s' | Return s' | Throw _ s' =>
    match stack s' with
    | [] => ∃ tr, trace s' = tr ++ quiet_events st opts root
    | _ :: _ => ∃ above dl nc, stack s' = above ++ [mkFrame root dl nc]
    end
  end.
Proof.
  intros Hs. unfold step_first_pass.
  destruct (stack s) as [|frame below] eqn:Hstack; [by rewrite Hstack|].
  destruct Hs as (above & dl & nc & Habove).
  destruct (next_unvisited_child (nodes s) frame) as [child|]; cbn [stack].
  { destruct above as [|top above]; cbn in Habove; injection Habove as -> ->.
    - by exists [child_frame (mkFrame root dl nc) child], dl, (nc + 1)%N.
    - by eexists (_ :: _ :: above), dl, nc. }
  destruct (apply_optimizations st opts (node frame) 0%N (nodes s) _ _)
    as [m' nds' total' tr'| |] eqn:Hloop; cbn [stack]; rewrite ?Hstack;
    [|by exists above, dl, nc..].
  destruct (m' =? 0)%N eqn:Hm; cbn [stack trace].
  - apply N.eqb_eq in Hm as ->.
    apply apply_optimizations_zero in Hloop as (_ & _ & ->).
    destruct above as [|top above]; cbn in Habove; injection Habove as -> ->.
    + exists (trace s). unfold quiet_events. cbn. by rewrite <- app_assoc.
    + destruct above; by eexists _, dl, nc.
  - destruct above as [|top above]; cbn in Habove; injection Habove as -> ->.
    + by exists [], m', 0%N.
    + by eexists (_ :: above), dl, nc.
Qed.

(** When the first pass returns with the stack empty, the last thing it did
    was a visit of the root in which every active rule was called and
    reported 0: the trace ends with that visit. *)
Theorem pass_ends_with_quiet_root_visit opts st root nds fuel s :
  optimize_plan st = true →
  optimizeTreeFirstPass opts st root nds fuel = Returned s →
  stack s = [] →
  ∃ tr, trace s = tr ++ EvVisit root
                     :: map (λ o, EvApply (name o) root 0%N) (List.filter (active st) opts).
Proof.
  intros Hon. unfold optimizeTreeFirstPass. rewrite Hon. cbn [negb].
  assert (Hgen : ∀ fuel s0,
            match stack s0 with
            | [] => ∃ tr, trace s0 = tr ++ quiet_events st opts root
            | _ :: _ => ∃ above dl nc, stack s0 = above ++ [mkFrame root dl nc]
            end →
            run_first_pass st opts fuel s0 = Returned s → stack s = [] →
            ∃ tr, trace s = tr ++ quiet_events st opts root).
  { clear fuel. induction fuel as [|fuel IH]; intros s0 Hs0; cbn [run_first_pass]; [done|].
    pose proof (root_frame_at_bottom st opts root s0 Hs0) as Hstep.
    destruct (step_first_pass st opts s0) as [s1|s1|code s1]; [by apply IH| |done].
    intros [= ->] Hnil. by rewrite Hnil in Hstep. }
  apply Hgen. cbn. by exists [], 0%N, 0%N.
Qed.

Lemma pass_ends_with_quiet_root_visit_witness :
  ∃ tr, trace (final_state (optimizeTreeFirstPass [mark_rule] example_settings 0 example_plan 20))
        = tr ++ [EvVisit 0; EvApply "markOnce" 0 0%N].
Proof.
  apply (pass_ends_with_quiet_root_visit [mark_rule] example_settings 0 example_plan 20).
  - reflexivity.
  - vm_compute. reflexivity.
  - vm_compute. reflexivity.
Defined.

(** ** Re-descent with a depth limit *)

Section LimitedDescent.
Context (st : QueryPlanOptimizationSettings) (opts : list Optimization).
Context (nds : Nodes) (total : N).
Context (Hquiet : all_report_zero st opts nds).
Context (Hbudget : budget_exceeded st total = false).

Lemma apply_optimizations_quiet_within_budget l n m tr :
  (∀ o, o ∈ l → o ∈ opts) →
  apply_optimizations st l n m nds total tr
  = LoopDone m nds total
      (tr ++ map (λ o, EvApply (name o) n 0%N) (List.filter (active st) l)).
Proof.
  revert m tr. induction l as [|o l IH]; intros m tr Hsub;
    cbn [apply_optimizations List.filter map].
  - by rewrite app_nil_r.
  - assert (Hsub' : ∀ o', o' ∈ l → o' ∈ opts) by (intros; apply Hsub; by right).
    destruct (active st o) eqn:Hact.
    + pose proof Hact as Hact'. unfold active in Hact'.
      apply andb_prop in Hact' as [-> [f Hf]%bool_decide_eq_true]. rewrite Hf.
      cbn [negb map]. rewrite Hbudget.
      rewrite (Hquiet o f n); [|apply Hsub; by left|done..].
      cbn. rewrite N.max_0_r, IH by done. by rewrite <- app_assoc.
    + unfold active in Hact.
      destruct (read_member st (is_enabled o)); cbn [negb]; [|by apply IH].
      destruct (apply o) as [f|]; [|by apply IH].
      rewrite andb_true_l in Hact. apply bool_decide_eq_false in Hact.
      destruct Hact. by eexists.
Qed.

Lemma limited_visit n dl nc below tr :
  next_unvisited_child nds (mkFrame n dl nc) = None →
  step_first_pass st opts (mkState (mkFrame n dl nc :: below) nds total tr)
  = Continue (mkState below nds total (tr ++ quiet_events st opts n)).
Proof.
  intros Hnone. unfold step_first_pass. cbn [stack nodes]. rewrite Hnone.
  cbn [node total_applied_optimizations trace].
  rewrite apply_optimizations_quiet_within_budget by done.
  cbn. unfold quiet_events. by rewrite <- app_assoc.
Qed.

Lemma limited_children n dl below ts :
  dl ≠ 1%N →
  children_of nds n = map tree_root ts →
  Forall (λ t, ∀ dl below tr, ∃ k,
            run_steps st opts k (mkState (mkFrame (tree_root t) dl 0%N :: below) nds total tr)
            = Some (mkState below nds total (tr ++ limited_events st opts dl t))) ts →
  ∀ ts2 ts1 tr, ts = ts1 ++ ts2 →
    ∃ k, run_steps st opts k
           (mkState (mkFrame n dl (N.of_nat (length ts1)) :: below) nds total tr)
         = Some (mkState below nds total
                   (tr ++ flat_map (limited_events st opts
                                      (if (dl =? 0)%N then 0%N else (dl - 1)%N)) ts2
                       ++ quiet_events st opts n)).
Proof.
  intros Hdl Hch Hsub. apply N.eqb_neq in Hdl.
  induction ts2 as [|t ts2 IH]; intros ts1 tr Hts.
  - exists 1. cbn [run_steps flat_map app].
    rewrite app_nil_r in Hts. subst ts1. rewrite limited_visit; [done|].
    unfold next_unvisited_child. cbn. rewrite Hdl, child_at_lookup, Nat2N.id.
    apply lookup_ge_None. rewrite Hch, length_map. lia.
  - assert (Ht : children_of nds n !! length ts1 = Some (tree_root t)).
    { rewrite Hch, Hts, map_app. rewrite lookup_app_r by (rewrite length_map; lia).
      rewrite length_map, Nat.sub_diag. done. }
    assert (Hin : t ∈ ts) by (rewrite Hts; set_solver).
    rewrite Forall_forall in Hsub.
    destruct (Hsub t Hin (if (dl =? 0)%N then 0%N else (dl - 1)%N)
                (mkFrame n dl (N.of_nat (length ts1) + 1)%N :: below) tr) as [k1 Hk1].
    destruct (IH (ts1 ++ [t])
                (tr ++ limited_events st opts (if (dl =? 0)%N then 0%N else (dl - 1)%N) t))
      as [k2 Hk2].
    { rewrite Hts, <- app_assoc. done. }
    exists (S (k1 + k2)). cbn [run_steps].
    unfold step_first_pass. cbn [stack nodes].
    unfold next_unvisited_child. cbn [depth_limit node next_child].
    rewrite Hdl, child_at_lookup, Nat2N.id, Ht.
    unfold child_frame. cbn [depth_limit node next_child total_applied_optimizations trace].
    rewrite (run_steps_add _ _ _ _ _ _ Hk1).
    rewrite length_app in Hk2. cbn [length] in Hk2.
    replace (N.of_nat (length ts1 + 1)) with (N.of_nat (length ts1) + 1)%N in Hk2 by lia.
    rewrite Hk2. cbn [flat_map]. by rewrite <- !app_assoc.
Qed.

Lemma limited_traverse t :
  represents nds t = true →
  ∀ dl below tr, ∃ k,
    run_steps st opts k (mkState (mkFrame (tree_root t) dl 0%N :: below) nds total tr)
    = Some (mkState below nds total (tr ++ limited_events st opts dl t)).
Proof.
  induction t as [n ts IH] using PlanTree_forall_ind.
  intros [Hch Hts]%represents_PNode dl below tr.
  cbn [tree_root limited_events].
  destruct (dl =? 1)%N eqn:Hone.
  - exists 1. cbn [run_steps app]. rewrite limited_visit; [done|].
    unfold next_unvisited_child. cbn. by rewrite Hone.
  - apply N.eqb_neq in Hone.
    destruct (limited_children n dl below ts Hone Hch) with (ts2 := ts) (ts1 := @nil PlanTree)
      (tr := tr) as [k Hk]; [|done|].
    + rewrite Forall_forall in IH, Hts |- *. intros t Ht. apply IH; [done|]. by apply Hts.
    + exists k. change (N.of_nat (length (@nil PlanTree))) with 0%N in Hk.
      by rewrite Hk.
Qed.

End LimitedDescent.

Lemma visits_limited_events st opts t :
  ∀ dl, visits (limited_events st opts dl t) = limited_postorder dl t.
Proof.
  induction t as [n ts IH] using PlanTree_forall_ind. intros dl.
  cbn [limited_events limited_postorder]. rewrite visits_app, visits_quiet_events. f_equal.
  destruct (dl =? 1)%N; [done|].
  induction IH as [|t ts Ht _ IHts]; [done|].
  cbn [flat_map]. by rewrite visits_app, Ht, IHts.
Qed.

Lemma limited_postorder_unlimited t : limited_postorder 0 t = postorder t.
Proof.
  induction t as [n ts IH] using PlanTree_forall_ind.
  cbn [limited_postorder postorder]. cbn [N.eqb]. f_equal.
  induction IH as [|t ts Ht _ IHts]; [done|]. cbn [flat_map]. by rewrite Ht, IHts.
Qed.

Lemma limited_postorder_layers t :
  ∀ depth, limited_postorder (N.of_nat (S depth)) t ≡ₚ nodes_within depth t.
Proof.
  induction t as [n ts IH] using PlanTree_forall_ind. intros depth.
  cbn [limited_postorder nodes_within]. rewrite Permutation_app_comm. cbn [app].
  constructor. destruct depth as [|depth]; [done|].
  replace (N.of_nat (S (S depth)) =? 1)%N with false by (symmetry; apply N.eqb_neq; lia).
  replace (N.of_nat (S (S depth)) =? 0)%N with false by (symmetry; apply N.eqb_neq; lia).
  replace (N.of_nat (S (S depth)) - 1)%N with (N.of_nat (S depth)) by lia.
  induction IH as [|t ts Ht _ IHts]; [done|].
  cbn [flat_map]. by rewrite Ht, IHts.
Qed.

(** On a plan where every active rule reports 0, with the budget test not
    firing, a frame entered with depth limit [dl] and cursor 0 is walked and
    popped without any change, and the nodes processed are the post-order
    listing cut at the limit: the whole subtree for limit 0, and for a limit
    [dl > 0] exactly the nodes less than [dl] layers below the frame's node
    (the node alone for limit 1). *)
Theorem redescent_processes_limited_layers opts st nds total t dl below tr :
  all_report_zero st opts nds →
  budget_exceeded st total = false →
  represents nds t = true →
  (∃ k, run_steps st opts k (mkState (mkFrame (tree_root t) dl 0%N :: below) nds total tr)
        = Some (mkState below nds total (tr ++ limited_events st opts dl t)))
  ∧ visits (limited_events st opts dl t) = limited_postorder dl t
  ∧ (dl = 0%N → limited_postorder dl t = postorder t)
  ∧ (dl ≠ 0%N → limited_postorder dl t ≡ₚ nodes_within (N.to_nat dl - 1) t).
Proof.
  intros Hquiet Hbudget Ht. split_and!.
  - by apply limited_traverse.
  - apply visits_limited_events.
  - intros ->. apply limited_postorder_unlimited.
  - intros Hdl. rewrite <- limited_postorder_layers.
    replace (N.of_nat (S (N.to_nat dl - 1))) with dl by lia. done.
Qed.

Lemma redescent_processes_limited_layers_witness :
  (∃ k, run_steps example_settings [idle_rule] k
          (mkState [mkFrame 0 1%N 0%N] example_plan 3%N [])
        = Some (mkState [] example_plan 3%N
                  (limited_events example_settings [idle_rule] 1%N example_tree)))
  ∧ visits (limited_events example_settings [idle_rule] 1%N example_tree) = [0].
Proof.
  destruct (redescent_processes_limited_layers [idle_rule] example_settings example_plan 3%N
              example_tree 1%N [] []) as (Hrun & Hvisits & _).
  - exact (idle_rule_reports_zero example_plan).
  - reflexivity.
  - vm_compute. reflexivity.
  - split; [exact Hrun|exact Hvisits].
Defined.

(** ** What one change costs *)

(** A visit in which some rule reports a change, seen through to the pop of
    the frame: with no limit, when the rules are quiet on the arena the visit
    leaves, the frame is walked again with the largest reported depth [m] as
    its limit and popped; the nodes processed again are the post-order
    listing cut at [m] layers, the arena is the one the visit left and the
    counter has gone up by the number of nonzero reports of the visit. *)
Theorem change_costs_one_bounded_rewalk opts st s frame below t :
  max_optimizations_to_apply st = 0%N →
  stack s = frame :: below →
  next_unvisited_child (nodes s) frame = None →
  max_reported (applied_rules st opts (node frame) (nodes s)).1 ≠ 0%N →
  all_report_zero st opts (applied_rules st opts (node frame) (nodes s)).2 →
  tree_root t = node frame →
  represents (applied_rules st opts (node frame) (nodes s)).2 t = true →
  (∃ k,
     run_steps st opts (S k) s
     = Some (mkState below (applied_rules st opts (node frame) (nodes s)).2
               (counted (total_applied_optimizations s)
                  (applied_rules st opts (node frame) (nodes s)).1)
               (trace s ++ EvVisit (node frame)
                  :: (applied_rules st opts (node frame) (nodes s)).1
                  ++ limited_events st opts
                       (max_reported (applied_rules st opts (node frame) (nodes s)).1) t)))
  ∧ visits (limited_events st opts
              (max_reported (applied_rules st opts (node frame) (nodes s)).1) t)
    = limited_postorder (max_reported (applied_rules st opts (node frame) (nodes s)).1) t.
Proof.
  intros Hmax Hs Hnone Hm Hquiet Hroot Ht. split; [|apply visits_limited_events].
  destruct (limited_traverse st opts _
              (counted (total_applied_optimizations s)
                 (applied_rules st opts (node frame) (nodes s)).1)
              Hquiet ltac:(unfold budget_exceeded; by rewrite Hmax) t Ht
              (max_reported (applied_rules st opts (node frame) (nodes s)).1) below
              (trace s ++ EvVisit (node frame)
                 :: (applied_rules st opts (node frame) (nodes s)).1)) as [k Hk].
  rewrite Hroot in Hk.
  exists k. cbn [run_steps]. unfold step_first_pass. rewrite Hs, Hnone.
  rewrite (apply_optimizations_completes st opts _ _ _ _ _ Hmax).
  rewrite N.max_0_l. apply N.eqb_neq in Hm as ->.
  rewrite <- app_assoc. cbn [app]. rewrite Hk.
  by rewrite <- app_assoc.
Qed.

(** Neither example rule touches a node whose payload is 2. *)
Lemma marked_twice_is_quiet st nds :
  map_Forall (λ _ nd, step_payload (step nd) = 2%N) nds →
  all_report_zero st [mark_rule; deep_rule] nds.
Proof.
  intros Hall o f n Ho _ Hf.
  assert (Hn : ∀ nd, nds !! n = Some nd → step_payload (step nd) = 2%N)
    by (intros nd Hnd; exact (Hall n nd Hnd)).
  apply elem_of_cons in Ho as [->|Ho]; [|apply list_elem_of_singleton in Ho as ->];
    injection Hf as <-; unfold mark_once, mark_deep;
    (destruct (nds !! n) as [nd|]; [|done]); by rewrite (Hn nd eq_refl).
Qed.

Lemma change_costs_one_bounded_rewalk_witness :
  (∃ k,
     run_steps example_settings [mark_rule; deep_rule] (S k)
       (mkState [mkFrame 0 0%N 1%N]
          (<[1 := mkNode (mkStep ReadFromMergeTree 2%N) []]> example_plan) 2%N [])
     = Some (mkState []
               (<[0 := mkNode (mkStep OtherStep 2%N) [1]]>
                  (<[1 := mkNode (mkStep ReadFromMergeTree 2%N) []]> example_plan))
               4%N
               [EvVisit 0; EvApply "markOnce" 0 1%N; EvApply "markDeep" 0 3%N;
                EvVisit 1; EvApply "markOnce" 1 0%N; EvApply "markDeep" 1 0%N;
                EvVisit 0; EvApply "markOnce" 0 0%N; EvApply "markDeep" 0 0%N]))
  ∧ [1; 0] = limited_postorder 3%N example_tree.
Proof.
  refine (change_costs_one_bounded_rewalk [mark_rule; deep_rule] example_settings
            (mkState [mkFrame 0 0%N 1%N]
               (<[1 := mkNode (mkStep ReadFromMergeTree 2%N) []]> example_plan) 2%N [])
            (mkFrame 0 0%N 1%N) [] example_tree _ _ _ _ _ _ _).
  - reflexivity.
  - reflexivity.
  - vm_compute. reflexivity.
  - vm_compute. discriminate.
  - apply marked_twice_is_quiet.
    apply (bool_decide_eq_true_1
             (map_Forall (λ (_ : NodeId) (nd : Node), step_payload (step nd) = 2%N) _)).
    vm_compute. reflexivity.
  - reflexivity.
  - vm_compute. reflexivity.
Defined.

(** * Properties of the second pass *)

Import Second SecondSpec.

(** The second pass on the replica plan: the read at node 1 is replaced by its
    plan and the extra sort removal runs. *)
Example second_pass_splices_replica :
  match optimizeTreeSecondPass idle_collaborators example_settings 0 replica_plan 20 with
  | Finished s =>
    trace s = [EvReplaceNodeWithPlan 1; EvRemoveRedundantSorting 0;
               EvAggregateProjection 0 None; EvAggregateProjection 1 None;
               EvNormalProjection None; EvNormalProjection None;
               EvLazyMaterialization 0 false; EvLazyMaterialization 1 false]
    ∧ nodes s !! 1 = Some (mkNode (mkStep OtherStep 5%N) [])
  | _ => False
  end.
Proof. vm_compute. by split. Qed.

(** An invariant [P] of the iterations, with what holds after a [break]
    ([B]) and after a throw ([Q]). *)
Lemma run_loop_invariant_break (P B Q : State → Prop) (body : State → Outcome) :
  (∀ s, P s → match body s with
              | Continue s' => P s'
              | Break s' => B s'
              | Throw _ s' => Q s'
              end) →
  ∀ fuel s, P s →
    match run_loop body fuel s with
    | Finished s' => (P s' ∧ stack s' = []) ∨ B s'
    | OutOfFuel s' => P s'
    | Thrown _ s' => Q s'
    end.
Proof.
  intros Hbody. induction fuel as [|fuel IH]; intros s HP; cbn [run_loop].
  - destruct (stack s) eqn:Hs; [by left|done].
  - destruct (stack s) eqn:Hs; [by left|].
    specialize (Hbody s HP). destruct (body s) as [s'|s'|code s']; [|by right|done].
    by apply IH.
Qed.

Lemma run_loop_invariant (P Q : State → Prop) (body : State → Outcome) :
  (∀ s, P s → match body s with
              | Continue s' | Break s' => P s'
              | Throw _ s' => Q s'
              end) →
  ∀ fuel s, P s →
    match run_loop body fuel s with
    | Finished s' | OutOfFuel s' => P s'
    | Thrown _ s' => Q s'
    end.
Proof.
  intros Hbody fuel s HP.
  pose proof (run_loop_invariant_break P P Q body) as Hinv.
  assert (Hstep : ∀ s0, P s0 → match body s0 with
                                | Continue s' => P s'
                                | Break s' => P s'
                                | Throw _ s' => Q s'
                                end).
  { intros s0 Hs0. specialize (Hbody s0 Hs0). by destruct (body s0). }
  specialize (Hinv Hstep fuel s HP).
  destruct (run_loop body fuel s); [by destruct Hinv as [[? _]|?]|done..].
Qed.

Lemma run_loop_same_body (body1 body2 : State → Outcome) :
  (∀ s, body1 s = body2 s) →
  ∀ fuel s, run_loop body1 fuel s = run_loop body2 fuel s.
Proof.
  intros Hsame. induction fuel as [|fuel IH]; intros s; cbn [run_loop]; [done|].
  destruct (stack s); [done|]. rewrite Hsame. destruct (body2 s); [apply IH|done..].
Qed.

Lemma and_then_cases (G : Result → Prop) r k :
  (∀ s, r = Finished s → G (k s)) →
  (∀ code s, r = Thrown code s → G (Thrown code s)) →
  (∀ s, r = OutOfFuel s → G (OutOfFuel s)) →
  G (and_then r k).
Proof. destruct r; cbn; eauto. Qed.

Lemma and_then_finished r k s :
  and_then r k = Finished s → ∃ s', r = Finished s' ∧ k s' = Finished s.
Proof. destruct r; cbn; [eauto|done..]. Qed.

(** ** What each phase records *)

Lemma push_next_child_trace s s' : push_next_child s = Some s' → trace s' = trace s.
Proof.
  unfold push_next_child. destruct (stack s); [done|].
  destruct (child_at _ _); [|done]. by intros [= <-].
Qed.

Lemma push_next_child_frame s s' :
  push_next_child s = Some s' →
  nodes s' = nodes s ∧ applied_projection_names s' = applied_projection_names s
  ∧ has_reading_from_mt s' = has_reading_from_mt s
  ∧ read_from_local_parallel_replica_plan s' = read_from_local_parallel_replica_plan s.
Proof.
  unfold push_next_child. destruct (stack s); [done|].
  destruct (child_at _ _); [|done]. by intros [= <-].
Qed.

Lemma insert_name_trace o s : trace (insert_name o s) = trace s.
Proof. by destruct o. Qed.

Lemma decrement_back_trace s : trace (decrement_back s) = trace s.
Proof. unfold decrement_back. by destruct (stack s). Qed.

(** Events appended to a trace, all of one phase. *)
Lemma extends_refl phase (tr : list Event) :
  ∃ evs, tr = tr ++ evs ∧ Forall (λ e, phase_of e = phase) evs.
Proof. exists []. by rewrite app_nil_r. Qed.

Lemma extends_one phase (tr : list Event) e :
  phase_of e = phase →
  ∃ evs, tr ++ [e] = tr ++ evs ∧ Forall (λ e, phase_of e = phase) evs.
Proof. intros He. exists [e]. split; [done|]. by constructor. Qed.

Lemma extends_trans phase (tr0 tr1 tr2 : list Event) :
  (∃ evs, tr1 = tr0 ++ evs ∧ Forall (λ e, phase_of e = phase) evs) →
  (∃ evs, tr2 = tr1 ++ evs ∧ Forall (λ e, phase_of e = phase) evs) →
  ∃ evs, tr2 = tr0 ++ evs ∧ Forall (λ e, phase_of e = phase) evs.
Proof.
  intros (evs1 & -> & H1) (evs2 & -> & H2). exists (evs1 ++ evs2).
  split; [by rewrite app_assoc|]. by apply Forall_app.
Qed.

Section SecondPassTraces.
Context (ext : Collaborators) (st : QueryPlanOptimizationSettings) (root : NodeId).

Lemma body_primary_key_trace s :
  trace (outcome_state (body_primary_key ext st s)) = trace s.
Proof.
  unfold body_primary_key.
  destruct (optimize_prewhere st); [destruct (optimizePrewhere ext _ _)|].
  all: destruct (push_next_child _) eqn:Hpush; cbn;
    [by apply push_next_child_trace in Hpush as ->|done].
Qed.

Lemma body_joins_trace s :
  trace (outcome_state (body_joins ext st s)) = trace s.
Proof.
  unfold body_joins. destruct (stack s) as [|frame below]; [done|].
  destruct (next_child frame =? 0)%N.
  - destruct (optimizeJoinLogical ext _ _ _) as [rhs nds1].
    destruct (convertLogicalJoinToPhysical ext _ _ _ _) as [has nds2].
    destruct (push_next_child _) eqn:Hpush; cbn;
      [by apply push_next_child_trace in Hpush as ->|done].
  - destruct (push_next_child _) eqn:Hpush; cbn;
      [by apply push_next_child_trace in Hpush as ->|done].
Qed.

Lemma body_local_replica_trace s :
  ∃ evs, trace (outcome_state (body_local_replica ext st s)) = trace s ++ evs
         ∧ Forall (λ e, phase_of e = 4) evs.
Proof.
  unfold body_local_replica.
  destruct (push_next_child s) eqn:Hpush; cbn.
  { apply push_next_child_trace in Hpush as ->. apply extends_refl. }
  destruct (stack s) as [|frame below]; [apply extends_refl|].
  destruct (nodes s !! node frame) as [nd|]; [|apply extends_refl].
  destruct (decide _); [|apply extends_refl].
  destruct (optimize ext st _); [apply extends_refl|].
  destruct (merge_expressions st); cbn; by apply extends_one.
Qed.

Lemma first_visit_projections_trace frame s :
  ∃ evs, trace (first_visit_projections ext st frame s) = trace s ++ evs
         ∧ Forall (λ e, phase_of e = 5) evs.
Proof.
  unfold first_visit_projections.
  destruct (optimize_projection st).
  - destruct (optimizeUseAggregateProjections ext _ _ _) as [applied nds].
    destruct (aggregation_in_order st); cbn; rewrite insert_name_trace; cbn;
      by apply extends_one.
  - destruct (aggregation_in_order st); cbn; apply extends_refl.
Qed.

Lemma body_projections_trace s :
  ∃ evs, trace (outcome_state (body_projections ext st s)) = trace s ++ evs
         ∧ Forall (λ e, phase_of e = 5) evs.
Proof.
  unfold body_projections. destruct (stack s) as [|frame below]; [apply extends_refl|].
  set (s1 := if (next_child frame =? 0)%N then first_visit_projections ext st frame s else s).
  assert (H1 : ∃ evs, trace s1 = trace s ++ evs ∧ Forall (λ e, phase_of e = 5) evs).
  { unfold s1. destruct (next_child frame =? 0)%N;
      [apply first_visit_projections_trace|apply extends_refl]. }
  eapply extends_trans; [exact H1|]. clearbody s1.
  destruct (push_next_child s1) eqn:Hpush; cbn.
  { apply push_next_child_trace in Hpush as ->. apply extends_refl. }
  destruct (optimize_projection st); [|apply extends_refl].
  destruct (optimizeUseNormalProjections ext _ _) as [[applied stk] nds].
  destruct applied as [nm|]; [|by apply extends_one].
  destruct (projection_budget_exceeded st _); [destruct (negb (is_explain st))|]; cbn;
    rewrite ?decrement_back_trace; cbn; by apply extends_one.
Qed.

Lemma body_lazy_materialization_trace s :
  ∃ evs, trace (outcome_state (body_lazy_materialization ext st root s)) = trace s ++ evs
         ∧ Forall (λ e, phase_of e = 6) evs.
Proof.
  unfold body_lazy_materialization. destruct (stack s) as [|frame below]; [apply extends_refl|].
  destruct (next_child frame =? 0)%N.
  - destruct (optimizeLazyMaterialization ext _ _ _ _) as [[applied stk] nds].
    cbn [fst snd]. destruct applied; cbn; [by apply extends_one|].
    destruct (push_next_child _) eqn:Hpush; cbn;
      [apply push_next_child_trace in Hpush as ->|]; cbn; by apply extends_one.
  - cbn [fst snd]. destruct (push_next_child _) eqn:Hpush; cbn;
      [apply push_next_child_trace in Hpush as ->|]; apply extends_refl.
Qed.

(** A loop records what its iterations record. *)
Lemma run_loop_trace phase (body : State → Outcome) :
  (∀ s, ∃ evs, trace (outcome_state (body s)) = trace s ++ evs
               ∧ Forall (λ e, phase_of e = phase) evs) →
  ∀ fuel s, ∃ evs, trace (final_state (run_loop body fuel s)) = trace s ++ evs
                   ∧ Forall (λ e, phase_of e = phase) evs.
Proof.
  intros Hbody fuel s.
  pose proof (run_loop_invariant
    (λ s', ∃ evs, trace s' = trace s ++ evs ∧ Forall (λ e, phase_of e = phase) evs)
    (λ s', ∃ evs, trace s' = trace s ++ evs ∧ Forall (λ e, phase_of e = phase) evs)
    body) as Hinv.
  cbn beta in Hinv.
  assert (Hstep : ∀ s0,
            (∃ evs, trace s0 = trace s ++ evs ∧ Forall (λ e, phase_of e = phase) evs) →
            match body s0 with
            | Continue s' | Break s' | Throw _ s' =>
              ∃ evs, trace s' = trace s ++ evs ∧ Forall (λ e, phase_of e = phase) evs
            end).
  { intros s0 Hs0. specialize (Hbody s0).
    destruct (body s0); cbn in Hbody; by eapply extends_trans. }
  specialize (Hinv Hstep fuel s (extends_refl phase (trace s))).
  by destruct (run_loop body fuel s).
Qed.

End SecondPassTraces.

Lemma run_loop_keeps_trace (body : State → Outcome) :
  (∀ s, trace (outcome_state (body s)) = trace s) →
  ∀ fuel s, trace (final_state (run_loop body fuel s)) = trace s.
Proof.
  intros Hbody fuel s.
  pose proof (run_loop_invariant (λ s', trace s' = trace s) (λ s', trace s' = trace s) body)
    as Hinv. cbn beta in Hinv.
  assert (Hstep : ∀ s0, trace s0 = trace s →
            match body s0 with
            | Continue s' | Break s' | Throw _ s' => trace s' = trace s
            end).
  { intros s0 Hs0. specialize (Hbody s0). destruct (body s0); cbn in Hbody; congruence. }
  specialize (Hinv Hstep fuel s eq_refl). by destruct (run_loop body fuel s).
Qed.

Lemma lazy_attempts_app tr1 tr2 :
  lazy_attempts (tr1 ++ tr2) = lazy_attempts tr1 ++ lazy_attempts tr2.
Proof. unfold lazy_attempts. apply flat_map_app. Qed.

Lemma lazy_applications_app tr1 tr2 :
  lazy_applications (tr1 ++ tr2) = lazy_applications tr1 + lazy_applications tr2.
Proof. unfold lazy_applications. by rewrite lazy_attempts_app, List.filter_app, length_app. Qed.

Lemma spliced_app tr1 tr2 : spliced (tr1 ++ tr2) = spliced tr1 || spliced tr2.
Proof. unfold spliced. apply existsb_app. Qed.

Lemma sorting_removed_app tr1 tr2 :
  sorting_removed (tr1 ++ tr2) = sorting_removed tr1 || sorting_removed tr2.
Proof. unfold sorting_removed. apply existsb_app. Qed.

Lemma other_phase_no_lazy phase evs :
  phase ≠ 6 → Forall (λ e, phase_of e = phase) evs → lazy_applications evs = 0.
Proof.
  intros Hp. induction 1 as [|e evs He _ IH]; [done|].
  change (e :: evs) with ([e] ++ evs). rewrite lazy_applications_app, IH.
  destruct e; cbn in *; done.
Qed.

Lemma other_phase_no_splice phase evs :
  phase ≠ 4 → Forall (λ e, phase_of e = phase) evs →
  spliced evs = false ∧ sorting_removed evs = false.
Proof.
  intros Hp. induction 1 as [|e evs He _ [IH1 IH2]]; [done|].
  change (e :: evs) with ([e] ++ evs). rewrite spliced_app, sorting_removed_app, IH1, IH2.
  destruct e; cbn in *; done.
Qed.

(** ** Splicing local plans and the extra sort removal *)

Section LocalReplica.
Context (ext : Collaborators) (st : QueryPlanOptimizationSettings) (root : NodeId).

Lemma body_local_replica_flag s :
  read_from_local_parallel_replica_plan s = spliced (trace s)
  ∧ sorting_removed (trace s) = false →
  match body_local_replica ext st s with
  | Continue s' | Break s' =>
    read_from_local_parallel_replica_plan s' = spliced (trace s')
    ∧ sorting_removed (trace s') = false
  | Throw _ _ => True
  end.
Proof.
  intros [Hflag Hsort]. unfold body_local_replica.
  destruct (push_next_child s) as [s1|] eqn:Hpush.
  { pose proof (push_next_child_trace _ _ Hpush) as ->.
    by apply push_next_child_frame in Hpush as (_ & _ & _ & ->). }
  destruct (stack s) as [|frame below]; [done|].
  destruct (nodes s !! node frame) as [nd|]; [|done].
  destruct (decide _); [|done].
  destruct (optimize ext st _); [done|].
  destruct (merge_expressions st); cbn;
    rewrite spliced_app, sorting_removed_app, Hsort; cbn; by rewrite orb_true_r.
Qed.

Lemma phase_local_replica_sorting fuel s s' :
  spliced (trace s) = false → sorting_removed (trace s) = false →
  phase_local_replica ext st root fuel s = Finished s' →
  sorting_removed (trace s') = spliced (trace s') && remove_redundant_sorting st.
Proof.
  intros Hsp Hsort. unfold phase_local_replica.
  intros (s1 & Hloop & Hfin)%and_then_finished.
  pose proof (run_loop_invariant
    (λ s0, read_from_local_parallel_replica_plan s0 = spliced (trace s0)
           ∧ sorting_removed (trace s0) = false)
    (λ _, True) (body_local_replica ext st) body_local_replica_flag fuel) as Hinv.
  cbn beta in Hinv.
  match type of Hloop with run_loop _ _ ?s0 = _ =>
    specialize (Hinv s0 (conj (eq_sym Hsp) Hsort)) end.
  rewrite Hloop in Hinv. destruct Hinv as [Hflag Hsort1].
  injection Hfin as <-. unfold remove_redundant_sorting_after_splice.
  rewrite Hflag.
  destruct (spliced (trace s1) && remove_redundant_sorting st) eqn:Hboth; cbn.
  - rewrite sorting_removed_app, spliced_app. cbn.
    apply andb_prop in Hboth as [-> ->]. by rewrite orb_true_r.
  - rewrite Hsort1. by rewrite Hboth.
Qed.

Lemma spliced_nodes_snoc nds l n :
  spliced_nodes ext st nds (l ++ [n]) = splice_node ext st n (spliced_nodes ext st nds l).
Proof. unfold spliced_nodes. by rewrite foldl_app. Qed.

Lemma replica_reads_in_turn_snoc nds l n :
  replica_reads_in_turn ext st nds (l ++ [n])
  = replica_reads_in_turn ext st nds l
    && is_local_replica_read (spliced_nodes ext st nds l) n.
Proof.
  revert nds. induction l as [|x l IH]; intros nds; cbn [app replica_reads_in_turn].
  - by rewrite andb_true_r.
  - by rewrite IH, andb_assoc.
Qed.

(** What the traversal has done to the state [s0] it started from: it has
    spliced the nodes of some list [targets], each a local-replica read when
    its turn came, and touched nothing else. *)
Local Abbreviation splices_so_far s0 s :=
  (∃ targets,
     replica_reads_in_turn ext st (nodes s0) targets = true
     ∧ nodes s = spliced_nodes ext st (nodes s0) targets
     ∧ read_from_local_parallel_replica_plan s = bool_decide (targets ≠ [])
     ∧ trace s = trace s0 ++ map EvReplaceNodeWithPlan targets).

Lemma body_local_replica_splices s0 s :
  splices_so_far s0 s →
  match body_local_replica ext st s with
  | Continue s' => splices_so_far s0 s'
  | Break s' => splices_so_far s0 s' ∧ stack s' = []
  | Throw _ _ => True
  end.
Proof.
  intros (targets & Hreads & Hnodes & Hflag & Htrace). unfold body_local_replica.
  destruct (push_next_child s) as [s1|] eqn:Hpush.
  { pose proof (push_next_child_trace _ _ Hpush) as Htr.
    apply push_next_child_frame in Hpush as (Hn & _ & _ & Hf).
    exists targets. by rewrite Hn, Hf, Htr. }
  destruct (stack s) as [|frame below] eqn:Hs; [split; [by exists targets|done]|].
  destruct (nodes s !! node frame) as [nd|] eqn:Hnd; [|by exists targets].
  destruct (decide _) as [Hkind|]; [|by exists targets].
  destruct (optimize ext st _) as [code|local_plan] eqn:Hopt; [done|].
  assert (Hsplice : splice_node ext st (node frame) (nodes s)
                    = if merge_expressions st then
                        (tryMergeExpressions ext (node frame)
                           (replaceNodeWithPlan ext (node frame) local_plan (nodes s))).2
                      else replaceNodeWithPlan ext (node frame) local_plan (nodes s)).
  { unfold splice_node. rewrite Hnd. destruct (decide _); [|done]. by rewrite Hopt. }
  exists (targets ++ [node frame]). split_and!.
  - rewrite replica_reads_in_turn_snoc, Hreads, <- Hnodes. cbn [andb].
    unfold is_local_replica_read, step_kind_of. rewrite Hnd. cbn.
    apply bool_decide_eq_true. by rewrite Hkind.
  - rewrite spliced_nodes_snoc, <- Hnodes, Hsplice.
    by destruct (merge_expressions st).
  - rewrite bool_decide_true by (by destruct targets).
    by destruct (merge_expressions st).
  - rewrite map_app, app_assoc, <- Htrace. by destruct (merge_expressions st).
Qed.

(** The arena and the trace after the local-replica phase. *)
Lemma phase_local_replica_arena fuel s s' :
  phase_local_replica ext st root fuel s = Finished s' →
  ∃ targets,
    replica_reads_in_turn ext st (nodes s) targets = true
    ∧ read_from_local_parallel_replica_plan s' = bool_decide (targets ≠ [])
    ∧ if bool_decide (targets ≠ []) && remove_redundant_sorting st then
        nodes s'
        = tryRemoveRedundantSorting ext root (spliced_nodes ext st (nodes s) targets)
        ∧ trace s' = trace s ++ map EvReplaceNodeWithPlan targets
                             ++ [EvRemoveRedundantSorting root]
      else
        nodes s' = spliced_nodes ext st (nodes s) targets
        ∧ trace s' = trace s ++ map EvReplaceNodeWithPlan targets.
Proof.
  unfold phase_local_replica. intros (s1 & Hloop & Hfin)%and_then_finished.
  pose proof (run_loop_invariant_break
    (λ s2, splices_so_far s s2) (λ s2, splices_so_far s s2 ∧ stack s2 = [])
    (λ _, True) (body_local_replica ext st) (body_local_replica_splices s) fuel) as Hinv.
  cbn beta in Hinv.
  match type of Hloop with run_loop _ _ ?s0 = _ => specialize (Hinv s0) end.
  rewrite Hloop in Hinv.
  destruct Hinv as [[(targets & Hreads & Hnodes & Hflag & Htrace) _]
                   |[(targets & Hreads & Hnodes & Hflag & Htrace) _]].
  { exists []. cbn. by rewrite app_nil_r. }
  all: exists targets; injection Hfin as <-;
    unfold remove_redundant_sorting_after_splice; rewrite Hflag;
    destruct (bool_decide (targets ≠ []) && remove_redundant_sorting st) eqn:Hboth; cbn;
    rewrite ?Hnodes, ?Htrace, ?Hflag, <- ?app_assoc; done.
Qed.

End LocalReplica.

(** ** The traces of the phases, and of the whole pass *)

Section WholePass.
Context (ext : Collaborators) (st : QueryPlanOptimizationSettings) (root : NodeId).

Lemma phase_local_replica_trace fuel s :
  ∃ evs, trace (final_state (phase_local_replica ext st root fuel s)) = trace s ++ evs
         ∧ Forall (λ e, phase_of e = 4) evs.
Proof.
  unfold phase_local_replica.
  match goal with |- context [run_loop ?b fuel ?s0] =>
    pose proof (run_loop_trace 4 b (body_local_replica_trace ext st) fuel s0) as Hloop;
    destruct (run_loop b fuel s0) as [s1| |]; cbn in Hloop |- *; [|done..]
  end.
  eapply extends_trans; [exact Hloop|].
  unfold remove_redundant_sorting_after_splice.
  destruct (_ && _); cbn; [by apply extends_one|apply extends_refl].
Qed.

Lemma phase_projections_trace fuel s :
  ∃ evs, trace (final_state (phase_projections ext st root fuel s)) = trace s ++ evs
         ∧ Forall (λ e, phase_of e = 5) evs.
Proof.
  unfold phase_projections.
  apply (run_loop_trace 5 _ (body_projections_trace ext st) fuel (push_root root s)).
Qed.

Lemma phase_lazy_materialization_trace fuel s :
  ∃ evs, trace (final_state (phase_lazy_materialization ext st root fuel s)) = trace s ++ evs
         ∧ Forall (λ e, phase_of e = 6) evs.
Proof.
  unfold phase_lazy_materialization.
  destruct (optimize_lazy_materialization st); [|apply extends_refl].
  apply (run_loop_trace 6 _ (body_lazy_materialization_trace ext st root) fuel
           (push_root root s)).
Qed.

Lemma finish_second_pass_trace s :
  trace (final_state (finish_second_pass ext st root s)) = trace s.
Proof.
  unfold finish_second_pass. destruct (check_forced_projection st s); [done|].
  cbn. unfold apply_order_and_shards. by destruct (query_plan_join_shard_by_pk_ranges st).
Qed.

(** The first three traversals record nothing. *)
Lemma first_phases_trace nds fuel (G : Result → Prop) (k : State → Result) :
  (∀ r, trace (final_state r) = [] → (∀ s, r ≠ Finished s) → G r) →
  (∀ s3, trace s3 = [] → G (k s3)) →
  G (and_then (run_loop (body_primary_key ext st) fuel
                 (mkState [mkFrame root 0%N] nds ∅ false false []))
       (λ s1, and_then
                (run_loop (body_joins ext st) fuel
                   (push_root root
                      (set_nodes (calculateHashTableCacheKeys ext root (nodes s1)) s1)))
                k)).
Proof.
  intros Hstop Hnext.
  pose proof (run_loop_keeps_trace _ (body_primary_key_trace ext st) fuel
                (mkState [mkFrame root 0%N] nds ∅ false false [])) as H1.
  apply and_then_cases.
  - intros s1 Hr1. rewrite Hr1 in H1. cbn in H1.
    pose proof (run_loop_keeps_trace _ (body_joins_trace ext st) fuel
                  (push_root root
                     (set_nodes (calculateHashTableCacheKeys ext root (nodes s1)) s1)))
      as H3. cbn in H3. rewrite H1 in H3.
    apply and_then_cases.
    + intros s3 Hr3. rewrite Hr3 in H3. by apply Hnext.
    + intros code s3 Hr3. rewrite Hr3 in H3. by apply Hstop.
    + intros s3 Hr3. rewrite Hr3 in H3. by apply Hstop.
  - intros code s1 Hr1. rewrite Hr1 in H1. by apply Hstop.
  - intros s1 Hr1. rewrite Hr1 in H1. by apply Hstop.
Qed.

Lemma traversal_phases_finished nds fuel s :
  traversal_phases ext st root nds fuel = Finished s →
  ∃ s3 s4 s5,
    trace s3 = []
    ∧ phase_local_replica ext st root fuel s3 = Finished s4
    ∧ phase_projections ext st root fuel s4 = Finished s5
    ∧ phase_lazy_materialization ext st root fuel s5 = Finished s.
Proof.
  unfold traversal_phases. revert s.
  apply (first_phases_trace nds fuel
           (λ r, ∀ s, r = Finished s → ∃ s3 s4 s5, trace s3 = [] ∧ _ ∧ _ ∧ _)).
  - intros r _ Hr s Hs. by destruct (Hr s).
  - intros s3 Hs3 s (s4 & H4 & (s5 & H5 & H6)%and_then_finished)%and_then_finished.
    by exists s3, s4, s5.
Qed.

Lemma traversal_phases_lazy_bound nds fuel :
  (∀ s5, lazy_applications (trace s5) = 0 →
         lazy_applications
           (trace (final_state (phase_lazy_materialization ext st root fuel s5))) ≤ 1) →
  lazy_applications (trace (final_state (traversal_phases ext st root nds fuel))) ≤ 1.
Proof.
  intros Hlazy. unfold traversal_phases.
  apply (first_phases_trace nds fuel
           (λ r, lazy_applications (trace (final_state r)) ≤ 1)).
  { intros r -> _. unfold lazy_applications. cbn. lia. }
  intros s3 Hs3.
  destruct (phase_local_replica_trace fuel s3) as (evs4 & H4 & Hk4).
  rewrite Hs3 in H4. cbn in H4.
  pose proof (other_phase_no_lazy 4 evs4 ltac:(done) Hk4) as Hz4.
  apply and_then_cases; [|intros code s4 Hr4; rewrite Hr4 in H4; cbn in *; rewrite H4; lia
                         |intros s4 Hr4; rewrite Hr4 in H4; cbn in *; rewrite H4; lia].
  intros s4 Hr4. rewrite Hr4 in H4. cbn in H4.
  destruct (phase_projections_trace fuel s4) as (evs5 & H5 & Hk5).
  pose proof (other_phase_no_lazy 5 evs5 ltac:(done) Hk5) as Hz5.
  assert (Hz : lazy_applications (trace s4 ++ evs5) = 0)
    by (rewrite lazy_applications_app, H4, Hz4, Hz5; done).
  apply and_then_cases; [|intros code s5 Hr5; rewrite Hr5 in H5; cbn in *; rewrite H5; lia
                         |intros s5 Hr5; rewrite Hr5 in H5; cbn in *; rewrite H5; lia].
  intros s5 Hr5. rewrite Hr5 in H5. cbn in H5. apply Hlazy. by rewrite H5.
Qed.

End WholePass.

(** C9.  When the local-replica phase finishes, the extra pass of
    [tryRemoveRedundantSorting] over the whole tree has run exactly if some
    node holding a [ReadFromLocalParallelReplicaStep] was replaced by its
    optimised plan and [remove_redundant_sorting] is set; the same holds of
    the trace of a second pass that finishes, no other phase recording either
    event.  On the arena: the phase has spliced the nodes of a list
    [targets], each holding a local-replica read when its turn came
    ([splice_node]: the read replaced by its optimised plan, the expressions
    merged if enabled); the flag is set exactly if [targets] is not empty;
    if it is and the setting is on, the arena the phase leaves is
    [tryRemoveRedundantSorting] of the root on the spliced arena and the
    trace ends with that call; otherwise the arena is the spliced arena, left
    alone, and no such call is recorded. *)
Theorem C9_sort_removal_iff_spliced ext st root :
  (∀ fuel s s',
     spliced (trace s) = false → sorting_removed (trace s) = false →
     phase_local_replica ext st root fuel s = Finished s' →
     sorting_removed (trace s') = spliced (trace s') && remove_redundant_sorting st)
  ∧ (∀ nds fuel s,
       optimizeTreeSecondPass ext st root nds fuel = Finished s →
       sorting_removed (trace s) = spliced (trace s) && remove_redundant_sorting st)
  ∧ (∀ fuel s s',
       phase_local_replica ext st root fuel s = Finished s' →
       ∃ targets,
         replica_reads_in_turn ext st (nodes s) targets = true
         ∧ read_from_local_parallel_replica_plan s' = bool_decide (targets ≠ [])
         ∧ if bool_decide (targets ≠ []) && remove_redundant_sorting st then
             nodes s'
             = tryRemoveRedundantSorting ext root (spliced_nodes ext st (nodes s) targets)
             ∧ trace s' = trace s ++ map EvReplaceNodeWithPlan targets
                                  ++ [EvRemoveRedundantSorting root]
           else
             nodes s' = spliced_nodes ext st (nodes s) targets
             ∧ trace s' = trace s ++ map EvReplaceNodeWithPlan targets).
Proof.
  split_and!; [apply phase_local_replica_sorting| |apply phase_local_replica_arena].
  intros nds fuel s. unfold optimizeTreeSecondPass.
  intros (s6 & Hphases & Hfin)%and_then_finished.
  apply traversal_phases_finished in Hphases as (s3 & s4 & s5 & Hs3 & H4 & H5 & H6).
  pose proof (phase_local_replica_sorting ext st root fuel s3 s4) as Hsort.
  rewrite Hs3 in Hsort. specialize (Hsort eq_refl eq_refl H4).
  destruct (phase_projections_trace ext st root fuel s4) as (evs5 & Ht5 & Hk5).
  rewrite H5 in Ht5. cbn in Ht5.
  destruct (other_phase_no_splice 5 evs5 ltac:(done) Hk5) as [Hsp5 Hso5].
  destruct (phase_lazy_materialization_trace ext st root fuel s5) as (evs6 & Ht6 & Hk6).
  rewrite H6 in Ht6. cbn in Ht6.
  destruct (other_phase_no_splice 6 evs6 ltac:(done) Hk6) as [Hsp6 Hso6].
  pose proof (finish_second_pass_trace ext st root s6) as Ht. rewrite Hfin in Ht. cbn in Ht.
  rewrite Ht, Ht6, Ht5, !spliced_app, !sorting_removed_app, Hsp5, Hso5, Hsp6, Hso6.
  by rewrite !orb_false_r.
Qed.

Lemma C9_sort_removal_iff_spliced_witness :
  sorting_removed
    (trace (final_state
       (optimizeTreeSecondPass idle_collaborators example_settings 0 replica_plan 20)))
  = spliced
      (trace (final_state
         (optimizeTreeSecondPass idle_collaborators example_settings 0 replica_plan 20)))
    && remove_redundant_sorting example_settings
  ∧ (∃ targets,
       replica_reads_in_turn sorting_collaborators example_settings replica_plan targets = true
       ∧ true = bool_decide (targets ≠ [])
       ∧ if bool_decide (targets ≠ []) && remove_redundant_sorting example_settings then
           <[0 := mkNode (mkStep OtherStep 7%N) [1]]>
             (<[1 := mkNode (mkStep OtherStep 5%N) []]> replica_plan)
           = tryRemoveRedundantSorting sorting_collaborators 0
               (spliced_nodes sorting_collaborators example_settings replica_plan targets)
           ∧ [EvReplaceNodeWithPlan 1; EvRemoveRedundantSorting 0]
             = [] ++ map EvReplaceNodeWithPlan targets ++ [EvRemoveRedundantSorting 0]
         else
           <[0 := mkNode (mkStep OtherStep 7%N) [1]]>
             (<[1 := mkNode (mkStep OtherStep 5%N) []]> replica_plan)
           = spliced_nodes sorting_collaborators example_settings replica_plan targets
           ∧ [EvReplaceNodeWithPlan 1; EvRemoveRedundantSorting 0]
             = [] ++ map EvReplaceNodeWithPlan targets)
  ∧ (∃ targets,
       replica_reads_in_turn sorting_collaborators keep_sorting_settings replica_plan targets
       = true
       ∧ true = bool_decide (targets ≠ [])
       ∧ if bool_decide (targets ≠ []) && remove_redundant_sorting keep_sorting_settings then
           <[1 := mkNode (mkStep OtherStep 5%N) []]> replica_plan
           = tryRemoveRedundantSorting sorting_collaborators 0
               (spliced_nodes sorting_collaborators keep_sorting_settings replica_plan targets)
           ∧ [EvReplaceNodeWithPlan 1]
             = [] ++ map EvReplaceNodeWithPlan targets ++ [EvRemoveRedundantSorting 0]
         else
           <[1 := mkNode (mkStep OtherStep 5%N) []]> replica_plan
           = spliced_nodes sorting_collaborators keep_sorting_settings replica_plan targets
           ∧ [EvReplaceNodeWithPlan 1] = [] ++ map EvReplaceNodeWithPlan targets).
Proof.
  split_and!.
  - apply (proj1 (proj2 (C9_sort_removal_iff_spliced idle_collaborators example_settings 0))
             replica_plan 20).
    vm_compute. reflexivity.
  - refine (proj2 (proj2 (C9_sort_removal_iff_spliced sorting_collaborators
                            example_settings 0))
              20 (before_projections replica_plan)
              (mkState []
                 (<[0 := mkNode (mkStep OtherStep 7%N) [1]]>
                    (<[1 := mkNode (mkStep OtherStep 5%N) []]> replica_plan))
                 ∅ false true [EvReplaceNodeWithPlan 1; EvRemoveRedundantSorting 0]) _).
    vm_compute. reflexivity.
  - refine (proj2 (proj2 (C9_sort_removal_iff_spliced sorting_collaborators
                            keep_sorting_settings 0))
              20 (before_projections replica_plan)
              (mkState [] (<[1 := mkNode (mkStep OtherStep 5%N) []]> replica_plan)
                 ∅ false true [EvReplaceNodeWithPlan 1]) _).
    vm_compute. reflexivity.
Defined.

(** ** Lazy materialization *)

Section Lazy.
Context (ext : Collaborators) (st : QueryPlanOptimizationSettings) (root : NodeId).

Lemma body_lazy_materialization_once s :
  lazy_applications (trace s) = 0 →
  match body_lazy_materialization ext st root s with
  | Continue s' => lazy_applications (trace s') = 0
  | Break s' =>
    lazy_applications (trace s') = 0
    ∨ ∃ tr n, trace s' = tr ++ [EvLazyMaterialization n true] ∧ lazy_applications tr = 0
  | Throw _ _ => False
  end.
Proof.
  intros Hzero. unfold body_lazy_materialization.
  destruct (stack s) as [|frame below]; [by left|].
  destruct (next_child frame =? 0)%N.
  - destruct (optimizeLazyMaterialization ext _ _ _ _) as [[applied stk] nds].
    cbn [fst snd]. destruct applied.
    + right. by exists (trace s), (node frame).
    + destruct (push_next_child _) eqn:Hpush; cbn;
        [apply push_next_child_trace in Hpush; rewrite Hpush; cbn|];
        rewrite lazy_applications_app, Hzero; done.
  - cbn [fst snd]. destruct (push_next_child _) eqn:Hpush; cbn;
      [apply push_next_child_trace in Hpush; rewrite Hpush|]; done.
Qed.

Lemma phase_lazy_materialization_once fuel s :
  lazy_applications (trace s) = 0 →
  match phase_lazy_materialization ext st root fuel s with
  | Finished s' =>
    lazy_applications (trace s') = 0
    ∨ ∃ tr n, trace s' = tr ++ [EvLazyMaterialization n true] ∧ lazy_applications tr = 0
  | OutOfFuel s' => lazy_applications (trace s') = 0
  | Thrown _ _ => False
  end.
Proof.
  intros Hzero. unfold phase_lazy_materialization.
  destruct (optimize_lazy_materialization st); [|by left].
  pose proof (run_loop_invariant_break
    (λ s', lazy_applications (trace s') = 0)
    (λ s', lazy_applications (trace s') = 0
           ∨ ∃ tr n, trace s' = tr ++ [EvLazyMaterialization n true]
                     ∧ lazy_applications tr = 0)
    (λ _, False) (body_lazy_materialization ext st root)
    body_lazy_materialization_once fuel (push_root root s) Hzero) as Hinv.
  cbn beta in Hinv.
  destruct (run_loop _ fuel (push_root root s)); [|done..].
  destruct Hinv as [[? _]|?]; [by left|done].
Qed.

End Lazy.

(** C8.  Lazy materialization is applied at most once in a second pass,
    however the pass ends.  In its phase the rewrite is attempted when a frame
    is first on top with [next_child = 0], and not on later visits of that
    frame; an attempt that succeeds leaves the loop at once, so that a
    successful attempt is the last event of the phase and the phase finishes
    there. *)
Theorem C8_lazy_materialization_at_most_once ext st root :
  (∀ nds fuel,
     lazy_applications (trace (final_state (optimizeTreeSecondPass ext st root nds fuel))) ≤ 1)
  ∧ (∀ fuel s,
       lazy_applications (trace s) = 0 →
       match phase_lazy_materialization ext st root fuel s with
       | Finished s' =>
         lazy_applications (trace s') = 0
         ∨ ∃ tr n, trace s' = tr ++ [EvLazyMaterialization n true] ∧ lazy_applications tr = 0
       | OutOfFuel s' => lazy_applications (trace s') = 0
       | Thrown _ _ => False
       end)
  ∧ (∀ s frame below,
       stack s = frame :: below →
       (next_child frame = 0%N →
        ∃ applied stk nds,
          optimizeLazyMaterialization ext root (stack s) (nodes s)
            (max_limit_for_lazy_materialization st) = (applied, stk, nds)
          ∧ trace (outcome_state (body_lazy_materialization ext st root s))
            = trace s ++ [EvLazyMaterialization (node frame) applied]
          ∧ (applied = true →
             body_lazy_materialization ext st root s
             = Break (add_event (EvLazyMaterialization (node frame) true)
                        (set_nodes nds (set_stack stk s)))))
       ∧ (next_child frame ≠ 0%N →
          trace (outcome_state (body_lazy_materialization ext st root s)) = trace s)).
Proof.
  split_and!.
  - intros nds fuel. unfold optimizeTreeSecondPass.
    pose proof (traversal_phases_lazy_bound ext st root nds fuel) as Hbound.
    assert (Hphase : ∀ s5, lazy_applications (trace s5) = 0 →
              lazy_applications
                (trace (final_state (phase_lazy_materialization ext st root fuel s5))) ≤ 1).
    { intros s5 Hs5. pose proof (phase_lazy_materialization_once ext st root fuel s5 Hs5) as H.
      destruct (phase_lazy_materialization ext st root fuel s5); cbn; [|done|lia].
      destruct H as [->|(tr & n & -> & Htr)]; [lia|].
      rewrite lazy_applications_app, Htr. unfold lazy_applications. cbn. lia. }
    specialize (Hbound Hphase).
    destruct (traversal_phases ext st root nds fuel) as [s6| |]; cbn in *; [|done..].
    by rewrite finish_second_pass_trace.
  - apply phase_lazy_materialization_once.
  - intros s frame below Hs. split.
    + intros Hzero. unfold body_lazy_materialization. rewrite Hs, Hzero. cbn [N.eqb].
      rewrite <- Hs.
      destruct (optimizeLazyMaterialization ext root (stack s) (nodes s) _)
        as [[applied stk] nds].
      exists applied, stk, nds. split; [done|]. cbn [fst snd]. split.
      * destruct applied; [done|].
        destruct (push_next_child _) eqn:Hpush; cbn;
          [apply push_next_child_trace in Hpush; rewrite Hpush|]; done.
      * by intros ->.
    + intros Hnz. unfold body_lazy_materialization. rewrite Hs.
      apply N.eqb_neq in Hnz as ->. cbn [fst snd].
      destruct (push_next_child _) eqn:Hpush; cbn;
        [apply push_next_child_trace in Hpush; rewrite Hpush|]; done.
Qed.

Lemma C8_lazy_materialization_at_most_once_witness :
  match phase_lazy_materialization lazy_collaborators example_settings 0 20
          (before_projections example_plan) with
  | Finished s' =>
    lazy_applications (trace s') = 0
    ∨ ∃ tr n, trace s' = tr ++ [EvLazyMaterialization n true] ∧ lazy_applications tr = 0
  | OutOfFuel s' => lazy_applications (trace s') = 0
  | Thrown _ _ => False
  end.
Proof.
  apply (proj1 (proj2 (C8_lazy_materialization_at_most_once lazy_collaborators
                         example_settings 0))).
  reflexivity.
Defined.

(** ** The projection budget *)

Lemma projection_budget_unlimited st names :
  projection_budget_exceeded (with_max_optimizations 0 st) names = false.
Proof. done. Qed.

Lemma body_projections_explain ext st s :
  is_explain st = true →
  body_projections ext st s = body_projections ext (with_max_optimizations 0 st) s.
Proof.
  intros Hex. unfold body_projections. destruct (stack s) as [|frame below]; [done|].
  change (first_visit_projections ext (with_max_optimizations 0 st) frame s)
    with (first_visit_projections ext st frame s).
  destruct (push_next_child _); [done|].
  change (optimize_projection (with_max_optimizations 0 st)) with (optimize_projection st).
  destruct (optimize_projection st); [|done].
  destruct (optimizeUseNormalProjections ext _ _) as [[applied stk] nds].
  destruct applied as [nm|]; [|done].
  rewrite projection_budget_unlimited.
  change (is_explain (with_max_optimizations 0 st)) with (is_explain st).
  rewrite Hex. cbn [negb]. by destruct (projection_budget_exceeded st _).
Qed.

Lemma body_projections_explain_no_throw ext st s code s' :
  is_explain st = true → body_projections ext st s ≠ Throw code s'.
Proof.
  intros Hex. unfold body_projections. destruct (stack s) as [|frame below]; [done|].
  destruct (push_next_child _); [done|].
  destruct (optimize_projection st); [|done].
  destruct (optimizeUseNormalProjections ext _ _) as [[applied stk] nds].
  destruct applied as [nm|]; [|done].
  rewrite Hex. cbn [negb]. by destruct (projection_budget_exceeded st _).
Qed.

(** C5 (as the code has it).  The projection phase counts the distinct names
    in [applied_projection_names] against [max_optimizations_to_apply].  When
    a normal projection is applied and the count then exceeds a nonzero limit,
    the iteration throws [TOO_MANY_QUERY_PLAN_OPTIMIZATIONS] in normal mode; in
    explain mode it goes on as without limit: the frame is kept with its
    cursor decremented, the phase never throws, and the whole phase is the
    one run with limit 0. *)
Theorem C5_projection_budget ext st root :
  (∀ s frame below nm stk nds,
     stack s = frame :: below →
     push_next_child
       (if (next_child frame =? 0)%N then first_visit_projections ext st frame s else s)
     = None →
     optimize_projection st = true →
     optimizeUseNormalProjections ext
       (stack (if (next_child frame =? 0)%N then first_visit_projections ext st frame s else s))
       (nodes (if (next_child frame =? 0)%N then first_visit_projections ext st frame s else s))
     = (Some nm, stk, nds) →
     max_optimizations_to_apply st ≠ 0%N →
     (max_optimizations_to_apply st
      < N.of_nat (size ({[nm]} ∪ applied_projection_names
           (if (next_child frame =? 0)%N then first_visit_projections ext st frame s else s))))%N →
     body_projections ext st s
     = (if is_explain st then λ s3, Continue (decrement_back s3)
        else Throw TOO_MANY_QUERY_PLAN_OPTIMIZATIONS)
         (insert_name (Some nm)
            (add_event (EvNormalProjection (Some nm))
               (set_nodes nds (set_stack stk
                  (if (next_child frame =? 0)%N then first_visit_projections ext st frame s
                   else s))))))
  ∧ (is_explain st = true →
     (∀ fuel s,
        phase_projections ext st root fuel s
        = phase_projections ext (with_max_optimizations 0 st) root fuel s)
     ∧ (∀ fuel s code s', phase_projections ext st root fuel s ≠ Thrown code s')).
Proof.
  split.
  - intros s frame below nm stk nds Hs Hpush Hon Hnormal Hlimit Hover.
    unfold body_projections. rewrite Hs, Hpush, Hon, Hnormal.
    unfold projection_budget_exceeded.
    apply N.eqb_neq in Hlimit as ->. cbn [negb andb].
    cbn [insert_name applied_projection_names add_event set_nodes set_stack].
    apply N.ltb_lt in Hover as ->. by destruct (is_explain st).
  - intros Hex. split.
    + intros fuel s. unfold phase_projections.
      apply run_loop_same_body. intros s0. by apply body_projections_explain.
    + intros fuel s code s' Hthrown. unfold phase_projections in Hthrown.
      pose proof (run_loop_invariant (λ _, True) (λ _, False) (body_projections ext st)) as Hinv.
      assert (Hstep : ∀ s0, True → match body_projections ext st s0 with
                                      | Continue _ | Break _ => True
                                      | Throw _ _ => False
                                      end).
      { intros s0 _. pose proof (body_projections_explain_no_throw ext st s0) as Hno.
        destruct (body_projections ext st s0) as [| |c s1]; [done..|].
        by destruct (Hno c s1 Hex). }
      specialize (Hinv Hstep fuel (push_root root s) I). by rewrite Hthrown in Hinv.
Qed.

Lemma C5_projection_budget_witness :
  body_projections projecting_collaborators limit_one_settings second_projection_state
  = Throw TOO_MANY_QUERY_PLAN_OPTIMIZATIONS
      (insert_name (Some "p1")
         (add_event (EvNormalProjection (Some "p1"))
            (set_nodes (<[0 := mkNode (mkStep OtherStep 2%N) [1]]> (nodes second_projection_state))
               second_projection_state)))
  ∧ (∀ fuel s,
       phase_projections projecting_collaborators limit_one_explain_settings 0 fuel s
       = phase_projections projecting_collaborators
           (with_max_optimizations 0 limit_one_explain_settings) 0 fuel s).
Proof.
  split.
  - refine (proj1 (C5_projection_budget projecting_collaborators limit_one_settings 0)
              second_projection_state (mkFrame 0 1%N) [] "p1" [mkFrame 0 1%N] _
              eq_refl eq_refl eq_refl eq_refl _ _).
    + vm_compute. discriminate.
    + vm_compute. reflexivity.
  - apply (proj2 (C5_projection_budget projecting_collaborators limit_one_explain_settings 0)).
    reflexivity.
Defined.

(** With limit 1 in explain mode the projection phase is not cut short: it
    finishes with three projections applied, in the state the phase reaches
    without limit, where normal mode throws after the second. *)
Lemma C5_explain_is_not_truncated :
  (∃ s, phase_projections projecting_collaborators limit_one_explain_settings 0 50
          (before_projections example_plan) = Finished s
        ∧ stack s = []
        ∧ normal_projections (trace s) = ["p0"; "p1"; "p2"]
        ∧ size (applied_projection_names s) = 3
        ∧ phase_projections projecting_collaborators
            (with_is_explain true example_settings) 0 50
            (before_projections example_plan) = Finished s)
  ∧ (∃ s, phase_projections projecting_collaborators limit_one_settings 0 50
            (before_projections example_plan)
          = Thrown TOO_MANY_QUERY_PLAN_OPTIMIZATIONS s
          ∧ normal_projections (trace s) = ["p0"; "p1"]).
Proof.
  split.
  - eexists. split; [vm_compute; reflexivity|]. split_and!; by vm_compute.
  - eexists. split; [vm_compute; reflexivity|]. by vm_compute.
Qed.

(** ** The forced-projection requirements *)

Lemma check_forced_projection_any_mode b st s :
  check_forced_projection (with_is_explain b st) s = check_forced_projection st s.
Proof. done. Qed.

(** C4.  When the traversals of the second pass finish with the scan flag
    set: if [force_use_projection] is set and no projection name was applied,
    the pass throws [PROJECTION_NOT_USED]; if [force_projection_name] is not
    empty and is not among the applied names, the pass throws
    ([INCORRECT_DATA], or [PROJECTION_NOT_USED] when the first test fires
    before it).  The two tests do not read [is_explain]. *)
Theorem C4_forced_projection_errors ext st root nds fuel s :
  traversal_phases ext st root nds fuel = Finished s →
  has_reading_from_mt s = true →
  (force_use_projection st = true → applied_projection_names s = ∅ →
   optimizeTreeSecondPass ext st root nds fuel = Thrown PROJECTION_NOT_USED s)
  ∧ (force_projection_name st ≠ "" →
     force_projection_name st ∉ applied_projection_names s →
     optimizeTreeSecondPass ext st root nds fuel
     = Thrown (if force_use_projection st && bool_decide (applied_projection_names s = ∅)
               then PROJECTION_NOT_USED else INCORRECT_DATA) s)
  ∧ (∀ b, check_forced_projection (with_is_explain b st) s = check_forced_projection st s).
Proof.
  intros Hphases Hmt. unfold optimizeTreeSecondPass. rewrite Hphases. cbn [and_then].
  unfold finish_second_pass, check_forced_projection. rewrite Hmt. split_and!.
  - intros -> ->. by rewrite bool_decide_eq_true_2.
  - intros Hname Hnotin. rewrite andb_true_r.
    destruct (force_use_projection st && bool_decide (applied_projection_names s = ∅));
      [done|].
    apply String.eqb_neq in Hname as ->. cbn [negb andb].
    by rewrite bool_decide_eq_false_2.
  - done.
Qed.

Lemma C4_forced_projection_errors_witness :
  optimizeTreeSecondPass idle_collaborators forced_projection_settings 0 example_plan 20
  = Thrown PROJECTION_NOT_USED
      (final_state
         (traversal_phases idle_collaborators forced_projection_settings 0 example_plan 20)).
Proof.
  refine (proj1 (C4_forced_projection_errors idle_collaborators forced_projection_settings
                   0 example_plan 20 _ _ _) eq_refl _).
  - vm_compute. reflexivity.
  - vm_compute. reflexivity.
  - vm_compute. reflexivity.
Defined.

(** * The deferred set-building pass *)

Lemma represents_on_tree_nodes nds nds' t :
  (∀ x, x ∈ tree_nodes t → children_of nds' x = children_of nds x) →
  represents nds' t = represents nds t.
Proof.
  induction t as [n ts IH] using PlanTree_forall_ind. intros Hsame.
  cbn [represents]. rewrite Hsame by (cbn; left). f_equal.
  assert (Hts : ∀ t x, t ∈ ts → x ∈ tree_nodes t → children_of nds' x = children_of nds x).
  { intros t x Ht Hx. apply Hsame. cbn. right.
    apply list_elem_of_In, in_flat_map. exists t. by rewrite <- !list_elem_of_In. }
  clear Hsame. induction IH as [|t ts Ht _ IHts]; [done|]. cbn [forallb].
  rewrite Ht by (intros x; apply Hts; left). rewrite IHts; [done|].
  intros t' x Ht'. apply Hts. by right.
Qed.

Section BuildSetsWalk.
Context (addPlansForSets : QueryPlanOptimizationSettings → NodeId → Nodes → Nodes).
Context (st : QueryPlanOptimizationSettings).
Context (protected : list NodeId).
Context (Hlocal : BuildSets.local_to_node addPlansForSets st protected).

Local Abbreviation steps := (BuildSets.steps addPlansForSets st).
Local Abbreviation added := (BuildSets.sets_added addPlansForSets st).

Lemma build_sets_steps_add k1 k2 s s1 :
  steps k1 s = Some s1 → steps (k1 + k2) s = steps k2 s1.
Proof.
  revert s. induction k1 as [|k1 IH]; intros s; cbn [BuildSets.steps Nat.add].
  - by intros [= ->].
  - destruct (BuildSets.step_build_sets addPlansForSets st s); [apply IH|done].
Qed.

Lemma build_sets_run_after_steps k fuel s s1 :
  steps k s = Some s1 →
  BuildSets.run addPlansForSets st (k + fuel) s = BuildSets.run addPlansForSets st fuel s1.
Proof.
  revert s. induction k as [|k IH]; intros s; cbn [BuildSets.steps Nat.add].
  - by intros [= ->].
  - cbn [BuildSets.run].
    destruct (BuildSets.step_build_sets addPlansForSets st s); [apply IH|done].
Qed.

Lemma sets_added_app nds l1 l2 : added nds (l1 ++ l2) = added (added nds l1) l2.
Proof. unfold BuildSets.sets_added. apply foldl_app. Qed.

(** Calls on other nodes leave the children of a protected node alone. *)
Lemma sets_added_keeps_children l :
  ∀ nds x, x ∈ protected → x ∉ l → children_of (added nds l) x = children_of nds x.
Proof.
  induction l as [|n l IH]; intros nds x Hx Hnot; [done|].
  apply not_elem_of_cons in Hnot as [Hne Hnot].
  cbn. change (foldl _ ?a l) with (added a l). rewrite IH by done. by apply Hlocal.
Qed.

Lemma walk_children n below ts :
  n ∈ protected →
  (∀ x, x ∈ flat_map tree_nodes ts → x ∈ protected) →
  n ∉ flat_map tree_nodes ts →
  NoDup (flat_map tree_nodes ts) →
  Forall (λ t, ∀ nds, represents nds t = true → ∀ below vis, ∃ k,
            steps k (BuildSets.mkState (mkFrame (tree_root t) 0%N :: below) nds vis)
            = Some (BuildSets.mkState below (added nds (postorder t))
                      (vis ++ postorder t))) ts →
  ∀ ts2 ts1 nds vis,
    ts = ts1 ++ ts2 →
    children_of nds n = map tree_root ts →
    Forall (λ t, represents nds t = true) ts2 →
    ∃ k, steps k (BuildSets.mkState (mkFrame n (N.of_nat (length ts1)) :: below) nds vis)
         = Some (BuildSets.mkState below
                   (addPlansForSets st n (added nds (flat_map postorder ts2)))
                   (vis ++ flat_map postorder ts2 ++ [n])).
Proof.
  intros Hn Hprot Hnotin Hnodup Hsub.
  induction ts2 as [|t ts2 IH]; intros ts1 nds vis Hts Hch Hrep.
  - exists 1. cbn [BuildSets.steps BuildSets.step_build_sets BuildSets.stack
                    BuildSets.nodes BuildSets.visited node next_child flat_map app].
    rewrite app_nil_r in Hts. subst ts1.
    rewrite child_at_lookup, Nat2N.id.
    rewrite (proj2 (lookup_ge_None _ _)) by (rewrite Hch, length_map; lia). done.
  - assert (Ht : children_of nds n !! length ts1 = Some (tree_root t)).
    { rewrite Hch, Hts, map_app. rewrite lookup_app_r by (rewrite length_map; lia).
      rewrite length_map, Nat.sub_diag. done. }
    assert (Hin : t ∈ ts) by (rewrite Hts, elem_of_app; right; left).
    apply Forall_cons in Hrep as [Hrept Hrep].
    rewrite Forall_forall in Hsub.
    destruct (Hsub t Hin nds Hrept (mkFrame n (N.of_nat (length ts1) + 1)%N :: below) vis)
      as [k1 Hk1].
    (* the nodes of [t] are apart from [n] and from the later siblings *)
    assert (Hsplit : flat_map tree_nodes ts
                     = flat_map tree_nodes ts1 ++ tree_nodes t ++ flat_map tree_nodes ts2).
    { rewrite Hts, flat_map_app. done. }
    assert (Hapart : ∀ x, x ∈ tree_nodes t → x ∉ flat_map tree_nodes ts2).
    { rewrite Hsplit in Hnodup. apply NoDup_app in Hnodup as (_ & _ & Hnodup).
      apply NoDup_app in Hnodup as (_ & Hdisj & _). exact Hdisj. }
    assert (Hnt : n ∉ postorder t).
    { rewrite postorder_tree_nodes. intros Hc. apply Hnotin. rewrite Hsplit.
      rewrite !elem_of_app. right. by left. }
    destruct (IH (ts1 ++ [t]) (added nds (postorder t)) (vis ++ postorder t)) as [k2 Hk2].
    + rewrite Hts, <- app_assoc. done.
    + rewrite sets_added_keeps_children by done. done.
    + rewrite Forall_forall in Hrep |- *. intros t' Ht'.
      rewrite <- (Hrep t' Ht'). apply represents_on_tree_nodes.
      intros x Hx. apply sets_added_keeps_children.
      * apply Hprot. rewrite Hsplit. rewrite !elem_of_app. right. right.
        apply list_elem_of_In, in_flat_map. exists t'. by rewrite <- !list_elem_of_In.
      * rewrite postorder_tree_nodes. intros Hc. apply (Hapart x Hc).
        apply list_elem_of_In, in_flat_map. exists t'. by rewrite <- !list_elem_of_In.
    + exists (S (k1 + k2)).
      cbn [BuildSets.steps BuildSets.step_build_sets BuildSets.stack BuildSets.nodes
           BuildSets.visited node next_child].
      rewrite child_at_lookup, Nat2N.id, Ht.
      rewrite (build_sets_steps_add _ _ _ _ Hk1).
      rewrite length_app in Hk2. cbn [length] in Hk2.
      replace (N.of_nat (length ts1 + 1)) with (N.of_nat (length ts1) + 1)%N in Hk2 by lia.
      rewrite Hk2. cbn [flat_map]. by rewrite sets_added_app, <- !app_assoc.
Qed.

Lemma walk_tree t :
  (∀ x, x ∈ tree_nodes t → x ∈ protected) →
  NoDup (tree_nodes t) →
  ∀ nds, represents nds t = true →
  ∀ below vis, ∃ k,
    steps k (BuildSets.mkState (mkFrame (tree_root t) 0%N :: below) nds vis)
    = Some (BuildSets.mkState below (added nds (postorder t)) (vis ++ postorder t)).
Proof.
  induction t as [n ts IH] using PlanTree_forall_ind.
  intros Hprot Hnodup nds [Hch Hts]%represents_PNode below vis.
  cbn [tree_nodes] in Hprot, Hnodup. apply NoDup_cons in Hnodup as [Hnotin Hnodup].
  cbn [tree_root postorder]. rewrite sets_added_app. cbn [BuildSets.sets_added foldl].
  apply (walk_children n below ts) with (ts1 := []); try done.
  - apply Hprot. by left.
  - intros x Hx. apply Hprot. by right.
  - rewrite Forall_forall in IH |- *. intros t Ht. apply IH; [done| |].
    + intros x Hx. apply Hprot. right.
      apply list_elem_of_In, in_flat_map. exists t. by rewrite <- !list_elem_of_In.
    + apply list_elem_of_split in Ht as (l1 & l2 & ->).
      rewrite flat_map_app in Hnodup. cbn [flat_map] in Hnodup.
      apply NoDup_app in Hnodup as (_ & _ & Hnodup).
      by apply NoDup_app in Hnodup as (? & _ & _).
Qed.

End BuildSetsWalk.

(** On a plan that is a finite tree with pairwise distinct nodes, when a call
    of [addPlansForSets] on a node changes the children of no other node of
    the tree (it may restructure under the node it is given and add nodes to
    the arena), [addStepsToBuildSets] ends with the stack empty after calling
    it exactly on the nodes of the tree as the plan stood at the start, each
    once, children before parents; the arena is the one these calls produce
    in that order. *)
Theorem build_sets_visits_postorder addPlansForSets st root nds t :
  tree_root t = root → represents nds t = true → NoDup (tree_nodes t) →
  BuildSets.local_to_node addPlansForSets st (tree_nodes t) →
  ∃ fuel s,
    BuildSets.addStepsToBuildSets addPlansForSets st root nds fuel = Some s
    ∧ BuildSets.stack s = []
    ∧ BuildSets.visited s = postorder t
    ∧ BuildSets.nodes s = BuildSets.sets_added addPlansForSets st nds (postorder t)
    ∧ (∀ n, n ∈ tree_nodes t → count_occ Nat.eq_dec (BuildSets.visited s) n = 1).
Proof.
  intros <- Ht Hnodup Hlocal.
  destruct (walk_tree addPlansForSets st (tree_nodes t) Hlocal t (λ _ H, H) Hnodup nds Ht [] [])
    as [k Hk].
  exists (k + 0). eexists. unfold BuildSets.addStepsToBuildSets.
  rewrite (build_sets_run_after_steps _ _ _ _ _ _ Hk). cbn.
  split_and!; try done.
  intros n Hn.
  assert (Hnd : List.NoDup (postorder t)).
  { apply NoDup_ListNoDup. by rewrite postorder_tree_nodes. }
  apply (proj1 (NoDup_count_occ' Nat.eq_dec (postorder t)) Hnd).
  apply list_elem_of_In. by rewrite postorder_tree_nodes.
Qed.

Lemma hang_set_below_local st :
  BuildSets.local_to_node BuildSets.hang_set_below st (tree_nodes example_tree).
Proof.
  intros n nds x Hx Hne. unfold BuildSets.hang_set_below.
  destruct (nds !! n) as [nd|]; [|done].
  unfold children_of. rewrite lookup_insert_ne by done.
  rewrite lookup_insert_ne; [done|].
  cbn in Hx. repeat (apply elem_of_cons in Hx as [->|Hx]; [lia|]).
  by apply not_elem_of_nil in Hx.
Qed.

Lemma build_sets_visits_postorder_witness :
  ∃ fuel s,
    BuildSets.addStepsToBuildSets BuildSets.hang_set_below example_settings 0 example_plan fuel
    = Some s
    ∧ BuildSets.stack s = []
    ∧ BuildSets.visited s = [1; 0]
    ∧ BuildSets.nodes s
      = BuildSets.sets_added BuildSets.hang_set_below example_settings example_plan [1; 0]
    ∧ (∀ n, n ∈ [0; 1] → count_occ Nat.eq_dec (BuildSets.visited s) n = 1).
Proof.
  apply (build_sets_visits_postorder BuildSets.hang_set_below example_settings 0
           example_plan example_tree).
  - reflexivity.
  - vm_compute. reflexivity.
  - exact example_tree_distinct.
  - apply hang_set_below_local.
Defined.

(** * Further properties of the second pass *)

Import SecondMore.

(** ** The errors of the second pass *)



Section SecondPassErrors.
Context (ext : Collaborators) (st : QueryPlanOptimizationSettings) (root : NodeId).







End SecondPassErrors.



(** ** Invariants of the traversals *)

Section TraversalInvariant.
Context (ext : Collaborators) (st : QueryPlanOptimizationSettings) (root : NodeId).
Context (P : State → Prop).
Context (Hstack : ∀ stk s, P s → P (set_stack stk s)).
Context (Hnodes : ∀ nds s, P s → P (set_nodes nds s)).
Context (Hflag : ∀ b s,
           P s → P (mkState (stack s) (nodes s) (applied_projection_names s)
                      (has_reading_from_mt s) b (trace s))).
Context (Hevent : ∀ e s, phase_of e ≠ 5 → P s → P (add_event e s)).
Context (Hprojections : ∀ s, P s → P (outcome_state (body_projections ext st s))).

Lemma push_next_child_invariant s s' : push_next_child s = Some s' → P s → P s'.
Proof.
  unfold push_next_child. destruct (stack s); [done|].
  destruct (child_at _ _); [|done]. intros [= <-]. apply Hstack.
Qed.

Lemma push_or_pop_invariant s :
  P s →
  P (outcome_state match push_next_child s with
                   | Some s' => Continue s'
                   | None => Continue (pop_back s)
                   end).
Proof.
  intros HP. destruct (push_next_child s) eqn:Hpush; cbn.
  - by apply (push_next_child_invariant s).
  - by apply Hstack.
Qed.

Lemma body_primary_key_invariant s : P s → P (outcome_state (body_primary_key ext st s)).
Proof.
  intros HP. unfold body_primary_key. apply push_or_pop_invariant.
  destruct (optimize_prewhere st); [destruct (optimizePrewhere ext _ _)|]; auto.
Qed.

Lemma body_joins_invariant s : P s → P (outcome_state (body_joins ext st s)).
Proof.
  intros HP. unfold body_joins. destruct (stack s) as [|frame below]; [done|].
  apply push_or_pop_invariant. destruct (next_child frame =? 0)%N; [|done].
  destruct (optimizeJoinLogical ext _ _ _) as [rhs nds1].
  destruct (convertLogicalJoinToPhysical ext _ _ _ _) as [has nds2]. auto.
Qed.

Lemma body_local_replica_invariant s :
  P s → P (outcome_state (body_local_replica ext st s)).
Proof.
  intros HP. unfold body_local_replica.
  destruct (push_next_child s) eqn:Hpush; [by apply (push_next_child_invariant s)|].
  destruct (stack s) as [|frame below] eqn:Hs; [done|].
  destruct (nodes s !! node frame) as [nd|]; [|by apply Hstack].
  destruct (decide _); [|by apply Hstack].
  assert (HP1 : P (mkState (frame :: below) (nodes s) (applied_projection_names s)
                     (has_reading_from_mt s) true (trace s))).
  { rewrite <- Hs. by apply Hflag. }
  destruct (optimize ext st _); [done|].
  destruct (merge_expressions st); cbn; apply Hstack; repeat apply Hnodes;
    apply (Hevent (EvReplaceNodeWithPlan (node frame))); auto.
Qed.

Lemma body_lazy_materialization_invariant s :
  P s → P (outcome_state (body_lazy_materialization ext st root s)).
Proof.
  intros HP. unfold body_lazy_materialization. destruct (stack s) as [|frame below]; [done|].
  destruct (next_child frame =? 0)%N; cbn [fst snd].
  - destruct (optimizeLazyMaterialization ext _ _ _ _) as [[applied stk] nds].
    cbn [fst snd].
    assert (HP1 : P (add_event (EvLazyMaterialization (node frame) applied)
                       (set_nodes nds (set_stack stk s)))).
    { apply Hevent; [done|]. auto. }
    destruct applied; [done|]. by apply push_or_pop_invariant.
  - by apply push_or_pop_invariant.
Qed.

Lemma run_loop_keeps (body : State → Outcome) :
  (∀ s, P s → P (outcome_state (body s))) →
  ∀ fuel s, P s → P (final_state (run_loop body fuel s)).
Proof.
  intros Hbody fuel s HP.
  pose proof (run_loop_invariant P P body) as Hinv.
  assert (Hstep : ∀ s0, P s0 → match body s0 with
                                | Continue s' | Break s' => P s'
                                | Throw _ s' => P s'
                                end).
  { intros s0 Hs0. specialize (Hbody s0 Hs0). by destruct (body s0). }
  specialize (Hinv Hstep fuel s HP). by destruct (run_loop body fuel s).
Qed.

(** A property of the state that does not look at the stack, the arena or
    the splice flag, that the events of the other phases do not disturb and
    that an iteration of the projection phase keeps, holds of the state in
    which the traversals end, however they end, if it holds at the start. *)
Lemma traversal_phases_invariant nds fuel :
  P (mkState [mkFrame root 0%N] nds ∅ false false []) →
  P (final_state (traversal_phases ext st root nds fuel)).
Proof.
  intros HP0. unfold traversal_phases.
  pose proof (run_loop_keeps _ body_primary_key_invariant fuel _ HP0) as H1.
  apply (and_then_cases (λ r, P (final_state r)));
    [|by intros c s1 Hr; rewrite Hr in H1|by intros s1 Hr; rewrite Hr in H1].
  intros s1 Hr1. rewrite Hr1 in H1. cbn in H1.
  pose proof (run_loop_keeps _ body_joins_invariant fuel
                (push_root root
                   (set_nodes (calculateHashTableCacheKeys ext root (nodes s1)) s1))) as H3.
  apply (and_then_cases (λ r, P (final_state r)));
    [|intros c s3 Hr; rewrite Hr in H3; apply H3; unfold push_root; auto
     |intros s3 Hr; rewrite Hr in H3; apply H3; unfold push_root; auto].
  intros s3 Hr3. rewrite Hr3 in H3. cbn in H3.
  assert (HP3 : P s3) by (apply H3; unfold push_root; auto).
  assert (H4 : P (final_state (phase_local_replica ext st root fuel s3))).
  { unfold phase_local_replica.
    match goal with |- context [run_loop ?b fuel ?s0] =>
      pose proof (run_loop_keeps b body_local_replica_invariant fuel s0) as Hloop;
      destruct (run_loop b fuel s0) as [s4| |]; cbn in Hloop |- *
    end.
    - unfold remove_redundant_sorting_after_splice.
      destruct (_ && _); [apply Hevent; [done|]; apply Hnodes|];
        apply Hloop; unfold push_root; auto.
    - apply Hloop; unfold push_root; auto.
    - apply Hloop; unfold push_root; auto. }
  apply (and_then_cases (λ r, P (final_state r)));
    [|by intros c s4 Hr; rewrite Hr in H4|by intros s4 Hr; rewrite Hr in H4].
  intros s4 Hr4. rewrite Hr4 in H4. cbn in H4.
  assert (H5 : P (final_state (phase_projections ext st root fuel s4))).
  { unfold phase_projections. apply (run_loop_keeps _ Hprojections).
    unfold push_root. auto. }
  apply (and_then_cases (λ r, P (final_state r)));
    [|by intros c s5 Hr; rewrite Hr in H5|by intros s5 Hr; rewrite Hr in H5].
  intros s5 Hr5. rewrite Hr5 in H5. cbn in H5.
  unfold phase_lazy_materialization. destruct (optimize_lazy_materialization st); [|done].
  apply (run_loop_keeps _ body_lazy_materialization_invariant). unfold push_root. auto.
Qed.

End TraversalInvariant.

(** ** Projection names *)



Lemma push_next_child_names s s' :
  push_next_child s = Some s' →
  applied_projection_names s' = applied_projection_names s ∧ trace s' = trace s.
Proof.
  intros Hpush. split; [by apply push_next_child_frame in Hpush as (_ & -> & _)|].
  by apply push_next_child_trace.
Qed.





Lemma body_projections_disabled ext st s :
  optimize_projection st = false →
  applied_projection_names (outcome_state (body_projections ext st s))
  = applied_projection_names s.
Proof.
  intros Hoff. unfold body_projections. destruct (stack s) as [|frame below]; [done|].
  set (s1 := if (next_child frame =? 0)%N then first_visit_projections ext st frame s else s).
  assert (H1 : applied_projection_names s1 = applied_projection_names s).
  { unfold s1. destruct (next_child frame =? 0)%N; [|done].
    unfold first_visit_projections. rewrite Hoff.
    by destruct (aggregation_in_order st). }
  clearbody s1. rewrite Hoff.
  destruct (push_next_child s1) eqn:Hpush; cbn; [|done].
  by apply push_next_child_names in Hpush as [-> _].
Qed.

(** With [optimize_projection] off no projection name is ever applied; so
    with [force_use_projection] set the pass cannot finish once a merge-tree
    read was seen: a pass that finishes saw none. *)
Theorem no_projection_without_optimize_projection ext st root :
  optimize_projection st = false →
  (∀ nds fuel,
     applied_projection_names (final_state (optimizeTreeSecondPass ext st root nds fuel)) = ∅)
  ∧ (force_use_projection st = true →
     ∀ nds fuel s,
       optimizeTreeSecondPass ext st root nds fuel = Finished s →
       has_reading_from_mt s = false).
Proof.
  intros Hoff.
  assert (Hempty : ∀ nds fuel,
            applied_projection_names (final_state (traversal_phases ext st root nds fuel)) = ∅).
  { intros nds fuel.
    apply (traversal_phases_invariant ext st root (λ s, applied_projection_names s = ∅));
      try done.
    intros s Hs. by rewrite body_projections_disabled. }
  split.
  - intros nds fuel. specialize (Hempty nds fuel). unfold optimizeTreeSecondPass.
    destruct (traversal_phases ext st root nds fuel) as [s6| |]; cbn in Hempty |- *; [|done..].
    unfold finish_second_pass. destruct (check_forced_projection st s6); [done|].
    cbn. unfold apply_order_and_shards.
    by destruct (query_plan_join_shard_by_pk_ranges st).
  - intros Hforce nds fuel s. specialize (Hempty nds fuel). unfold optimizeTreeSecondPass.
    destruct (traversal_phases ext st root nds fuel) as [s6| |]; cbn in Hempty |- *; [|done..].
    unfold finish_second_pass, check_forced_projection. rewrite Hforce, Hempty.
    rewrite bool_decide_eq_true_2 by done.
    destruct (has_reading_from_mt s6) eqn:Hmt; cbn [andb]; [done|].
    destruct (_ && _); [done|]. intros [= <-].
    unfold apply_order_and_shards.
    by destruct (query_plan_join_shard_by_pk_ranges st).
Qed.

Lemma no_projection_without_optimize_projection_witness :
  applied_projection_names
    (final_state (optimizeTreeSecondPass projecting_collaborators forced_without_projections
                    0 example_plan 20)) = ∅.
Proof.
  apply (proj1 (no_projection_without_optimize_projection projecting_collaborators
                  forced_without_projections 0 eq_refl)).
Defined.

(** ** The projection phase on a plan where no projection applies *)

Lemma loop_steps_add body k1 k2 s s1 :
  loop_steps body k1 s = Some s1 →
  loop_steps body (k1 + k2) s = loop_steps body k2 s1.
Proof.
  revert s. induction k1 as [|k1 IH]; intros s; cbn [loop_steps Nat.add].
  - by intros [= ->].
  - destruct (stack s); [done|]. destruct (body s); [apply IH|done..].
Qed.

Lemma run_loop_after_steps body k fuel s s1 :
  loop_steps body k s = Some s1 →
  run_loop body (k + fuel) s = run_loop body fuel s1.
Proof.
  revert s. induction k as [|k IH]; intros s; cbn [loop_steps Nat.add].
  - by intros [= ->].
  - cbn [run_loop]. destruct (stack s); [done|]. destruct (body s); [apply IH|done..].
Qed.

Section InertProjections.
Context (ext : Collaborators) (st : QueryPlanOptimizationSettings).
Context (Hinert : no_projection_applies ext).
Context (nds : Nodes) (names : gset string) (rl : bool).

Local Abbreviation at_stack stk mt tr := (mkState stk nds names mt rl tr).
Local Abbreviation aggregate_event n :=
  (if optimize_projection st then [EvAggregateProjection n None] else []).
Local Abbreviation normal_event :=
  (if optimize_projection st then [EvNormalProjection None] else []).

Lemma first_visit_projections_inert frame stk mt tr :
  first_visit_projections ext st frame (at_stack stk mt tr)
  = at_stack stk (mt || is_merge_tree_read nds (node frame))
      (tr ++ aggregate_event (node frame)).
Proof.
  destruct Hinert as (Hagg & Hord & _). unfold first_visit_projections.
  cbn [stack nodes applied_projection_names has_reading_from_mt
       read_from_local_parallel_replica_plan trace].
  destruct (optimize_projection st).
  - rewrite Hagg. cbn. destruct (aggregation_in_order st); [rewrite Hord|]; done.
  - rewrite app_nil_r. destruct (aggregation_in_order st); [cbn; rewrite Hord|]; done.
Qed.

(** Leaving a node: no child is left, the normal projection is tried and the
    frame popped. *)
Lemma leave_node_inert n nc below mt tr :
  nc ≠ 0%N →
  child_at (children_of nds n) nc = None →
  body_projections ext st (at_stack (mkFrame n nc :: below) mt tr)
  = Continue (at_stack below mt (tr ++ normal_event)).
Proof.
  intros Hnc Hnone. destruct Hinert as (_ & _ & Hnorm).
  unfold body_projections. cbn [stack next_child].
  apply N.eqb_neq in Hnc as ->.
  unfold push_next_child. cbn [stack nodes node next_child]. rewrite Hnone.
  destruct (optimize_projection st); [|by rewrite app_nil_r].
  rewrite Hnorm. done.
Qed.

(** Meeting a leaf: first visit and leave in one iteration. *)
Lemma visit_leaf_inert n below mt tr :
  children_of nds n = [] →
  body_projections ext st (at_stack (mkFrame n 0%N :: below) mt tr)
  = Continue (at_stack below (mt || is_merge_tree_read nds n)
                (tr ++ aggregate_event n ++ normal_event)).
Proof.
  intros Hleaf. destruct Hinert as (_ & _ & Hnorm).
  unfold body_projections. cbn [stack next_child N.eqb].
  rewrite first_visit_projections_inert. cbn [node].
  unfold push_next_child. cbn [stack nodes node next_child]. rewrite Hleaf.
  change (child_at [] 0%N) with (@None NodeId).
  cbn. destruct (optimize_projection st); [|by rewrite !app_nil_r].
  rewrite Hnorm. unfold pop_back, add_event, set_nodes, set_stack. cbn.
  by rewrite <- app_assoc.
Qed.

(** Descending into child number [nc]. *)
Lemma descend_inert n nc child below mt tr :
  child_at (children_of nds n) nc = Some child →
  body_projections ext st (at_stack (mkFrame n nc :: below) mt tr)
  = Continue (at_stack (mkFrame child 0%N :: mkFrame n (nc + 1)%N :: below)
                (if (nc =? 0)%N then mt || is_merge_tree_read nds n else mt)
                (tr ++ if (nc =? 0)%N then aggregate_event n else [])).
Proof.
  intros Hchild. unfold body_projections. cbn [stack next_child].
  destruct (nc =? 0)%N.
  - rewrite first_visit_projections_inert. cbn [node].
    unfold push_next_child. cbn [stack nodes node next_child]. by rewrite Hchild.
  - unfold push_next_child. cbn [stack nodes node next_child]. rewrite Hchild.
    by rewrite app_nil_r.
Qed.

Lemma walk_later_children n below ts :
  children_of nds n = map tree_root ts →
  Forall (λ t, ∀ below mt tr, ∃ k,
            loop_steps (body_projections ext st) k
              (at_stack (mkFrame (tree_root t) 0%N :: below) mt tr)
            = Some (at_stack below
                      (mt || existsb (is_merge_tree_read nds) (tree_nodes t))
                      (tr ++ projection_events st t))) ts →
  ∀ ts2 ts1 mt tr, ts = ts1 ++ ts2 → ts1 ≠ [] →
    ∃ k, loop_steps (body_projections ext st) k
           (at_stack (mkFrame n (N.of_nat (length ts1)) :: below) mt tr)
         = Some (at_stack below
                   (mt || existsb (is_merge_tree_read nds) (flat_map tree_nodes ts2))
                   (tr ++ flat_map (projection_events st) ts2 ++ normal_event)).
Proof.
  intros Hch Hsub. induction ts2 as [|t ts2 IH]; intros ts1 mt tr Hts Hne.
  - exists 1. cbn [loop_steps stack flat_map existsb app].
    rewrite app_nil_r in Hts. subst ts1.
    rewrite leave_node_inert.
    + by rewrite orb_false_r.
    + destruct ts; [done|]. cbn. lia.
    + rewrite child_at_lookup, Nat2N.id. apply lookup_ge_None.
      rewrite Hch, length_map. lia.
  - assert (Ht : child_at (children_of nds n) (N.of_nat (length ts1)) = Some (tree_root t)).
    { rewrite child_at_lookup, Nat2N.id, Hch, Hts, map_app.
      rewrite lookup_app_r by (rewrite length_map; lia).
      rewrite length_map, Nat.sub_diag. done. }
    assert (Hin : t ∈ ts) by (rewrite Hts, elem_of_app; right; left).
    rewrite Forall_forall in Hsub.
    assert (Hnz : (N.of_nat (length ts1) =? 0)%N = false).
    { apply N.eqb_neq. destruct ts1; [done|]. cbn [length]. lia. }
    destruct (Hsub t Hin (mkFrame n (N.of_nat (length ts1) + 1)%N :: below) mt tr)
      as [k1 Hk1].
    destruct (IH (ts1 ++ [t])
                (mt || existsb (is_merge_tree_read nds) (tree_nodes t))
                (tr ++ projection_events st t)) as [k2 Hk2].
    { rewrite Hts, <- app_assoc. done. }
    { by destruct ts1. }
    exists (S (k1 + k2)). cbn [loop_steps stack].
    rewrite (descend_inert _ _ _ _ _ _ Ht), Hnz, app_nil_r.
    rewrite (loop_steps_add _ _ _ _ _ Hk1).
    rewrite length_app in Hk2. cbn [length] in Hk2.
    replace (N.of_nat (length ts1 + 1)) with (N.of_nat (length ts1) + 1)%N in Hk2 by lia.
    rewrite Hk2. cbn [flat_map]. rewrite existsb_app, orb_assoc. by rewrite <- !app_assoc.
Qed.

Lemma walk_projections t :
  represents nds t = true →
  ∀ below mt tr, ∃ k,
    loop_steps (body_projections ext st) k
      (at_stack (mkFrame (tree_root t) 0%N :: below) mt tr)
    = Some (at_stack below
              (mt || existsb (is_merge_tree_read nds) (tree_nodes t))
              (tr ++ projection_events st t)).
Proof.
  induction t as [n ts IH] using PlanTree_forall_ind.
  intros [Hch Hts]%represents_PNode below mt tr.
  cbn [tree_root tree_nodes projection_events existsb].
  assert (Hsub : Forall (λ t, ∀ below mt tr, ∃ k,
            loop_steps (body_projections ext st) k
              (at_stack (mkFrame (tree_root t) 0%N :: below) mt tr)
            = Some (at_stack below
                      (mt || existsb (is_merge_tree_read nds) (tree_nodes t))
                      (tr ++ projection_events st t))) ts).
  { rewrite Forall_forall in IH, Hts |- *. intros t Ht. apply IH; [done|]. by apply Hts. }
  destruct ts as [|t ts].
  - exists 1. cbn [loop_steps stack flat_map existsb app].
    rewrite visit_leaf_inert by done. by rewrite orb_false_r.
  - apply Forall_cons in Hsub as Hsub'. destruct Hsub' as [Ht _].
    destruct (Ht (mkFrame n 1%N :: below) (mt || is_merge_tree_read nds n)
                (tr ++ aggregate_event n)) as [k1 Hk1].
    destruct (walk_later_children n below (t :: ts) Hch Hsub ts [t]
                (mt || is_merge_tree_read nds n
                 || existsb (is_merge_tree_read nds) (tree_nodes t))
                (tr ++ aggregate_event n ++ projection_events st t)) as [k2 Hk2];
      [done..|].
    exists (S (k1 + k2)). cbn [loop_steps stack].
    rewrite (descend_inert n 0%N (tree_root t)) by (by rewrite child_at_lookup, Hch).
    cbn [N.eqb]. change (0 + 1)%N with 1%N.
    rewrite (loop_steps_add _ _ _ _ _ Hk1). rewrite <- app_assoc.
    change (N.of_nat (length [t])) with 1%N in Hk2. rewrite Hk2.
    cbn [flat_map]. rewrite existsb_app, !orb_assoc. by rewrite <- !app_assoc.
Qed.

End InertProjections.

(** On a plan that is a finite tree, when no projection applies and the
    three collaborators of the phase rewrite nothing, the projection phase
    ends with the stack empty and the plan and the applied names as they
    were; it tries the aggregate projection on every node when it first meets
    it and the normal projection when it leaves it, and the scan flag is set
    exactly if it was set before or some node of the tree holds a merge-tree
    read. *)
Theorem projection_phase_walks_whole_plan ext st root nds t names mt rl tr :
  no_projection_applies ext →
  tree_root t = root → represents nds t = true →
  ∃ fuel,
    phase_projections ext st root fuel (mkState [] nds names mt rl tr)
    = Finished (mkState [] nds names
                  (mt || existsb (is_merge_tree_read nds) (tree_nodes t)) rl
                  (tr ++ projection_events st t)).
Proof.
  intros Hinert <- Ht.
  destruct (walk_projections ext st Hinert nds names rl t Ht [] mt tr) as [k Hk].
  exists (k + 0). unfold phase_projections, push_root. cbn [stack set_stack nodes
    applied_projection_names has_reading_from_mt read_from_local_parallel_replica_plan trace].
  rewrite (run_loop_after_steps _ _ _ _ _ Hk). done.
Qed.

Lemma idle_collaborators_inert : no_projection_applies idle_collaborators.
Proof. by split_and!. Qed.

Lemma projection_phase_walks_whole_plan_witness :
  ∃ fuel,
    phase_projections idle_collaborators example_settings 0 fuel
      (mkState [] example_plan ∅ false false [])
    = Finished (mkState [] example_plan ∅ true false
                  [EvAggregateProjection 0 None; EvAggregateProjection 1 None;
                   EvNormalProjection None; EvNormalProjection None]).
Proof.
  apply (projection_phase_walks_whole_plan idle_collaborators example_settings 0
           example_plan example_tree ∅ false false []).
  - exact idle_collaborators_inert.
  - reflexivity.
  - vm_compute. reflexivity.
Defined.

(** ** The lazy-materialization phase on a plan where it never applies *)

Section InertLazy.
Context (ext : Collaborators) (st : QueryPlanOptimizationSettings) (root : NodeId).
Context (Hinert : lazy_never_applies ext).
Context (nds : Nodes) (names : gset string) (mt rl : bool).

Local Abbreviation lazy_at stk tr := (mkState stk nds names mt rl tr).
Local Abbreviation lazy_body := (body_lazy_materialization ext st root).

(** Descending into child number [nc]; the attempt is made when [nc] is 0. *)
Lemma lazy_descend n nc child below tr :
  child_at (children_of nds n) nc = Some child →
  lazy_body (lazy_at (mkFrame n nc :: below) tr)
  = Continue (lazy_at (mkFrame child 0%N :: mkFrame n (nc + 1)%N :: below)
                (tr ++ if (nc =? 0)%N then [EvLazyMaterialization n false] else [])).
Proof.
  intros Hchild. unfold body_lazy_materialization. cbn [stack next_child].
  destruct (nc =? 0)%N.
  - rewrite Hinert. cbn [fst snd]. unfold push_next_child, add_event, set_nodes, set_stack.
    cbn [stack nodes node next_child applied_projection_names has_reading_from_mt
         read_from_local_parallel_replica_plan trace]. by rewrite Hchild.
  - cbn [fst snd]. unfold push_next_child, set_stack.
    cbn [stack nodes node next_child applied_projection_names has_reading_from_mt
         read_from_local_parallel_replica_plan trace]. rewrite Hchild. by rewrite app_nil_r.
Qed.

(** Leaving a node: no child is left and the frame is popped. *)
Lemma lazy_leave n nc below tr :
  child_at (children_of nds n) nc = None →
  lazy_body (lazy_at (mkFrame n nc :: below) tr)
  = Continue (lazy_at below
                (tr ++ if (nc =? 0)%N then [EvLazyMaterialization n false] else [])).
Proof.
  intros Hnone. unfold body_lazy_materialization. cbn [stack next_child].
  destruct (nc =? 0)%N.
  - rewrite Hinert. cbn [fst snd].
    unfold push_next_child, pop_back, add_event, set_nodes, set_stack.
    cbn [stack nodes node next_child applied_projection_names has_reading_from_mt
         read_from_local_parallel_replica_plan trace tail]. by rewrite Hnone.
  - cbn [fst snd]. unfold push_next_child, pop_back, set_stack.
    cbn [stack nodes node next_child applied_projection_names has_reading_from_mt
         read_from_local_parallel_replica_plan trace tail]. rewrite Hnone.
    by rewrite app_nil_r.
Qed.

Lemma lazy_walk_children n below ts :
  children_of nds n = map tree_root ts →
  Forall (λ t, ∀ below tr, ∃ k,
            loop_steps lazy_body k (lazy_at (mkFrame (tree_root t) 0%N :: below) tr)
            = Some (lazy_at below (tr ++ lazy_events t))) ts →
  ∀ ts2 ts1 tr, ts = ts1 ++ ts2 →
    ∃ k, loop_steps lazy_body k (lazy_at (mkFrame n (N.of_nat (length ts1)) :: below) tr)
         = Some (lazy_at below
                   (tr ++ (if (N.of_nat (length ts1) =? 0)%N
                           then [EvLazyMaterialization n false] else [])
                       ++ flat_map lazy_events ts2)).
Proof.
  intros Hch Hsub. induction ts2 as [|t ts2 IH]; intros ts1 tr Hts.
  - exists 1. cbn [loop_steps stack flat_map].
    rewrite app_nil_r in Hts. subst ts1.
    rewrite lazy_leave; [by rewrite app_nil_r|].
    rewrite child_at_lookup, Nat2N.id. apply lookup_ge_None.
    rewrite Hch, length_map. lia.
  - assert (Ht : child_at (children_of nds n) (N.of_nat (length ts1)) = Some (tree_root t)).
    { rewrite child_at_lookup, Nat2N.id, Hch, Hts, map_app.
      rewrite lookup_app_r by (rewrite length_map; lia).
      rewrite length_map, Nat.sub_diag. done. }
    assert (Hin : t ∈ ts) by (rewrite Hts, elem_of_app; right; left).
    rewrite Forall_forall in Hsub.
    destruct (Hsub t Hin (mkFrame n (N.of_nat (length ts1) + 1)%N :: below)
                (tr ++ if (N.of_nat (length ts1) =? 0)%N
                       then [EvLazyMaterialization n false] else [])) as [k1 Hk1].
    destruct (IH (ts1 ++ [t])
                ((tr ++ if (N.of_nat (length ts1) =? 0)%N
                        then [EvLazyMaterialization n false] else [])
                 ++ lazy_events t)) as [k2 Hk2].
    { rewrite Hts, <- app_assoc. done. }
    exists (S (k1 + k2)). cbn [loop_steps stack].
    rewrite (lazy_descend _ _ _ _ _ Ht).
    rewrite (loop_steps_add _ _ _ _ _ Hk1).
    rewrite length_app in Hk2. cbn [length] in Hk2.
    replace (N.of_nat (length ts1 + 1)) with (N.of_nat (length ts1) + 1)%N in Hk2 by lia.
    rewrite Hk2.
    replace (N.of_nat (length ts1) + 1 =? 0)%N with false by (symmetry; apply N.eqb_neq; lia).
    cbn [flat_map app]. by rewrite <- !app_assoc.
Qed.

Lemma lazy_walk t :
  represents nds t = true →
  ∀ below tr, ∃ k,
    loop_steps lazy_body k (lazy_at (mkFrame (tree_root t) 0%N :: below) tr)
    = Some (lazy_at below (tr ++ lazy_events t)).
Proof.
  induction t as [n ts IH] using PlanTree_forall_ind.
  intros [Hch Hts]%represents_PNode below tr.
  cbn [tree_root lazy_events].
  apply (lazy_walk_children n below ts Hch) with (ts1 := []); [|done].
  rewrite Forall_forall in IH, Hts |- *. intros t Ht. apply IH; [done|]. by apply Hts.
Qed.

End InertLazy.

Lemma lazy_nodes_events t : lazy_nodes (lazy_events t) = tree_nodes t.
Proof.
  induction t as [n ts IH] using PlanTree_forall_ind.
  cbn [lazy_events tree_nodes]. unfold lazy_nodes. cbn [flat_map app]. f_equal.
  induction IH as [|t ts Ht _ IHts]; [done|].
  cbn [flat_map]. rewrite flat_map_app. f_equal; [exact Ht|exact IHts].
Qed.

(** On a plan that is a finite tree, when lazy materialization is enabled
    but the rewrite never applies (and rewrites nothing), the phase ends with
    the stack empty and the plan as it was, after attempting the rewrite
    exactly once on every node of the tree, each node before its children. *)
Theorem lazy_phase_tries_every_node ext st root nds t names mt rl tr :
  lazy_never_applies ext →
  optimize_lazy_materialization st = true →
  tree_root t = root → represents nds t = true →
  (∃ fuel,
     phase_lazy_materialization ext st root fuel (mkState [] nds names mt rl tr)
     = Finished (mkState [] nds names mt rl (tr ++ lazy_events t)))
  ∧ lazy_nodes (lazy_events t) = tree_nodes t
  ∧ lazy_applications (lazy_events t) = 0.
Proof.
  intros Hinert Hon <- Ht. split_and!.
  - destruct (lazy_walk ext st (tree_root t) Hinert nds names mt rl t Ht [] tr) as [k Hk].
    exists (k + 0). unfold phase_lazy_materialization, push_root. rewrite Hon.
    cbn [stack set_stack nodes applied_projection_names has_reading_from_mt
         read_from_local_parallel_replica_plan trace].
    rewrite (run_loop_after_steps _ _ _ _ _ Hk). done.
  - apply lazy_nodes_events.
  - clear. induction t as [n ts IH] using PlanTree_forall_ind.
    cbn [lazy_events]. change (?e :: ?l) with ([e] ++ l).
    rewrite lazy_applications_app. unfold lazy_applications at 1. cbn.
    induction IH as [|t ts Ht _ IHts]; [done|].
    cbn [flat_map]. by rewrite lazy_applications_app, Ht, IHts.
Qed.

Lemma idle_collaborators_never_lazy : lazy_never_applies idle_collaborators.
Proof. done. Qed.

Lemma lazy_phase_tries_every_node_witness :
  (∃ fuel,
     phase_lazy_materialization idle_collaborators example_settings 0 fuel
       (mkState [] example_plan ∅ false false [])
     = Finished (mkState [] example_plan ∅ false false
                   [EvLazyMaterialization 0 false; EvLazyMaterialization 1 false]))
  ∧ lazy_nodes [EvLazyMaterialization 0 false; EvLazyMaterialization 1 false] = [0; 1]
  ∧ lazy_applications [EvLazyMaterialization 0 false; EvLazyMaterialization 1 false] = 0.
Proof.
  apply (lazy_phase_tries_every_node idle_collaborators example_settings 0
           example_plan example_tree ∅ false false []).
  - exact idle_collaborators_never_lazy.
  - reflexivity.
  - reflexivity.
  - vm_compute. reflexivity.
Defined.

(** ** The local-replica phase on a finite plan *)

Lemma replacements_app nds l1 l2 :
  replacements nds (l1 ++ l2) = replacements nds l1 ++ replacements nds l2.
Proof. unfold replacements. by rewrite List.filter_app, map_app. Qed.

Lemma local_replica_reads_same nds nds' l :
  (∀ x, x ∈ l → nds' !! x = nds !! x) →
  existsb (is_local_replica_read nds') l = existsb (is_local_replica_read nds) l
  ∧ replacements nds' l = replacements nds l.
Proof.
  unfold replacements. induction l as [|x l IH]; intros Hsame; [done|].
  destruct IH as [IH1 IH2]; [intros y Hy; apply Hsame; by right|].
  assert (Hx : is_local_replica_read nds' x = is_local_replica_read nds x).
  { unfold is_local_replica_read, step_kind_of. rewrite Hsame by left. done. }
  cbn [existsb List.filter]. rewrite Hx, IH1. split; [done|].
  destruct (is_local_replica_read nds x); cbn [map]; by rewrite IH2.
Qed.

Lemma spliced_nodes_app ext st nds l1 l2 :
  spliced_nodes ext st nds (l1 ++ l2)
  = spliced_nodes ext st (spliced_nodes ext st nds l1) l2.
Proof. unfold spliced_nodes. apply foldl_app. Qed.

Section SpliceWalk.
Context (ext : Collaborators) (st : QueryPlanOptimizationSettings).
Context (Hoptimize : local_plans_optimize ext st).
Context (protected : list NodeId).
Context (Hlocal : splice_local_to_node ext st protected).
Context (names : gset string) (mt : bool).

Local Abbreviation splice_at stk nds flag tr := (mkState stk nds names mt flag tr).
Local Abbreviation splice_body := (body_local_replica ext st).
Local Abbreviation spliced_arena := (spliced_nodes ext st).

(** Splices at other nodes leave a protected node alone. *)
Lemma spliced_nodes_keeps l :
  ∀ nds x, x ∈ protected → x ∉ l → spliced_arena nds l !! x = nds !! x.
Proof.
  induction l as [|n l IH]; intros nds x Hx Hnot; [done|].
  apply not_elem_of_cons in Hnot as [Hne Hnot].
  cbn. change (foldl _ ?a l) with (spliced_arena a l). rewrite IH by done. by apply Hlocal.
Qed.

Lemma spliced_nodes_keeps_children l nds x :
  x ∈ protected → x ∉ l → children_of (spliced_arena nds l) x = children_of nds x.
Proof. intros Hx Hnot. unfold children_of. by rewrite spliced_nodes_keeps. Qed.

(** Leaving a node: no child is left; a local-replica read is replaced by
    its plan. *)
Lemma splice_leave n nc below nds flag tr :
  child_at (children_of nds n) nc = None →
  splice_body (splice_at (mkFrame n nc :: below) nds flag tr)
  = Continue (splice_at below (splice_node ext st n nds)
                (flag || is_local_replica_read nds n) (tr ++ replacements nds [n])).
Proof.
  intros Hnone. unfold body_local_replica, push_next_child.
  cbn [stack nodes node next_child]. rewrite Hnone.
  unfold replacements, is_local_replica_read, step_kind_of, splice_node. cbn [List.filter].
  destruct (nds !! n) as [nd|] eqn:Hnd; cbn [fmap option_fmap option_map].
  2:{ rewrite bool_decide_false by done. cbn. unfold pop_back, set_stack. cbn.
      by rewrite orb_false_r, app_nil_r. }
  destruct (decide (step_kind (step nd) = ReadFromLocalParallelReplicaStep)) as [Hkind|Hkind].
  - destruct (Hoptimize (extractQueryPlan ext (step nd))) as [plan ->].
    rewrite bool_decide_true by (cbn; by rewrite Hkind). rewrite orb_true_r.
    unfold pop_back, add_event, set_nodes, set_stack.
    destruct (merge_expressions st); cbn; done.
  - rewrite bool_decide_false by (cbn; by intros [= ?]).
    unfold pop_back, set_stack. cbn. by rewrite orb_false_r, app_nil_r.
Qed.

Lemma splice_descend n nc child below nds flag tr :
  child_at (children_of nds n) nc = Some child →
  splice_body (splice_at (mkFrame n nc :: below) nds flag tr)
  = Continue (splice_at (mkFrame child 0%N :: mkFrame n (nc + 1)%N :: below) nds flag tr).
Proof.
  intros Hchild. unfold body_local_replica, push_next_child.
  cbn [stack nodes node next_child]. by rewrite Hchild.
Qed.

Lemma splice_children n below ts :
  n ∈ protected →
  (∀ x, x ∈ flat_map tree_nodes ts → x ∈ protected) →
  n ∉ flat_map tree_nodes ts →
  NoDup (flat_map tree_nodes ts) →
  Forall (λ t, ∀ nds, represents nds t = true → ∀ below flag tr, ∃ k,
            loop_steps splice_body k
              (splice_at (mkFrame (tree_root t) 0%N :: below) nds flag tr)
            = Some (splice_at below (spliced_arena nds (postorder t))
                      (flag || existsb (is_local_replica_read nds) (postorder t))
                      (tr ++ replacements nds (postorder t)))) ts →
  ∀ ts2 ts1 nds flag tr,
    ts = ts1 ++ ts2 →
    children_of nds n = map tree_root ts →
    Forall (λ t, represents nds t = true) ts2 →
    ∃ k, loop_steps splice_body k
           (splice_at (mkFrame n (N.of_nat (length ts1)) :: below) nds flag tr)
         = Some (splice_at below (spliced_arena nds (flat_map postorder ts2 ++ [n]))
                   (flag || existsb (is_local_replica_read nds)
                              (flat_map postorder ts2 ++ [n]))
                   (tr ++ replacements nds (flat_map postorder ts2 ++ [n]))).
Proof.
  intros Hn Hprot Hnotin Hnodup Hsub.
  induction ts2 as [|t ts2 IH]; intros ts1 nds flag tr Hts Hch Hrep.
  - exists 1. cbn [loop_steps stack flat_map app].
    rewrite app_nil_r in Hts. subst ts1.
    rewrite splice_leave.
    + cbn [existsb]. by rewrite orb_false_r.
    + rewrite child_at_lookup, Nat2N.id. apply lookup_ge_None.
      rewrite Hch, length_map. lia.
  - assert (Ht : child_at (children_of nds n) (N.of_nat (length ts1)) = Some (tree_root t)).
    { rewrite child_at_lookup, Nat2N.id, Hch, Hts, map_app.
      rewrite lookup_app_r by (rewrite length_map; lia).
      rewrite length_map, Nat.sub_diag. done. }
    assert (Hin : t ∈ ts) by (rewrite Hts, elem_of_app; right; left).
    apply Forall_cons in Hrep as [Hrept Hrep].
    rewrite Forall_forall in Hsub.
    destruct (Hsub t Hin nds Hrept (mkFrame n (N.of_nat (length ts1) + 1)%N :: below)
                flag tr) as [k1 Hk1].
    (* the nodes of [t] are apart from [n] and from the later siblings *)
    assert (Hsplit : flat_map tree_nodes ts
                     = flat_map tree_nodes ts1 ++ tree_nodes t ++ flat_map tree_nodes ts2).
    { rewrite Hts, flat_map_app. done. }
    assert (Hapart : ∀ x, x ∈ tree_nodes t → x ∉ flat_map tree_nodes ts2).
    { rewrite Hsplit in Hnodup. apply NoDup_app in Hnodup as (_ & _ & Hnodup).
      apply NoDup_app in Hnodup as (_ & Hdisj & _). exact Hdisj. }
    assert (Hnt : n ∉ postorder t).
    { rewrite postorder_tree_nodes. intros Hc. apply Hnotin. rewrite Hsplit.
      rewrite !elem_of_app. right. by left. }
    assert (Hlater : ∀ t' x, t' ∈ ts2 → x ∈ tree_nodes t' →
                       x ∈ protected ∧ x ∉ postorder t).
    { intros t' x Ht' Hx.
      assert (Hx2 : x ∈ flat_map tree_nodes ts2).
      { apply list_elem_of_In, in_flat_map. exists t'. by rewrite <- !list_elem_of_In. }
      split.
      - apply Hprot. rewrite Hsplit, !elem_of_app. by right; right.
      - rewrite postorder_tree_nodes. intros Hc. by apply (Hapart x Hc). }
    destruct (IH (ts1 ++ [t]) (spliced_arena nds (postorder t))
                (flag || existsb (is_local_replica_read nds) (postorder t))
                (tr ++ replacements nds (postorder t))) as [k2 Hk2].
    + rewrite Hts, <- app_assoc. done.
    + rewrite spliced_nodes_keeps_children by done. done.
    + rewrite Forall_forall in Hrep |- *. intros t' Ht'.
      rewrite <- (Hrep t' Ht'). apply represents_on_tree_nodes.
      intros x Hx. destruct (Hlater t' x Ht' Hx).
      by apply spliced_nodes_keeps_children.
    + exists (S (k1 + k2)). cbn [loop_steps stack].
      rewrite (splice_descend _ _ _ _ _ _ _ Ht).
      rewrite (loop_steps_add _ _ _ _ _ Hk1).
      rewrite length_app in Hk2. cbn [length] in Hk2.
      replace (N.of_nat (length ts1 + 1)) with (N.of_nat (length ts1) + 1)%N in Hk2 by lia.
      rewrite Hk2. cbn [flat_map].
      destruct (local_replica_reads_same nds (spliced_arena nds (postorder t))
                  (flat_map postorder ts2 ++ [n])) as [Hex Hre].
      { intros x [Hx| ->%list_elem_of_singleton]%elem_of_app.
        - apply list_elem_of_In, in_flat_map in Hx as (t' & Ht' & Hx).
          apply list_elem_of_In in Ht', Hx. rewrite postorder_tree_nodes in Hx.
          destruct (Hlater t' x Ht' Hx). by apply spliced_nodes_keeps.
        - by apply spliced_nodes_keeps. }
      rewrite Hex, Hre. rewrite <- ?app_assoc.
      rewrite (spliced_nodes_app ext st nds (postorder t)).
      rewrite (replacements_app nds (postorder t)).
      rewrite (existsb_app _ (postorder t)), orb_assoc. done.
Qed.

Lemma splice_walk t :
  (∀ x, x ∈ tree_nodes t → x ∈ protected) →
  NoDup (tree_nodes t) →
  ∀ nds, represents nds t = true →
  ∀ below flag tr, ∃ k,
    loop_steps splice_body k (splice_at (mkFrame (tree_root t) 0%N :: below) nds flag tr)
    = Some (splice_at below (spliced_arena nds (postorder t))
              (flag || existsb (is_local_replica_read nds) (postorder t))
              (tr ++ replacements nds (postorder t))).
Proof.
  induction t as [n ts IH] using PlanTree_forall_ind.
  intros Hprot Hnodup nds [Hch Hts]%represents_PNode below flag tr.
  cbn [tree_nodes] in Hprot, Hnodup. apply NoDup_cons in Hnodup as [Hnotin Hnodup].
  cbn [tree_root postorder].
  apply (splice_children n below ts) with (ts1 := []); try done.
  - apply Hprot. by left.
  - intros x Hx. apply Hprot. by right.
  - rewrite Forall_forall in IH |- *. intros t Ht. apply IH; [done| |].
    + intros x Hx. apply Hprot. right.
      apply list_elem_of_In, in_flat_map. exists t. by rewrite <- !list_elem_of_In.
    + apply list_elem_of_split in Ht as (l1 & l2 & ->).
      rewrite flat_map_app in Hnodup. cbn [flat_map] in Hnodup.
      apply NoDup_app in Hnodup as (_ & _ & Hnodup).
      by apply NoDup_app in Hnodup as (? & _ & _).
Qed.

End SpliceWalk.

(** On a plan that is a finite tree with pairwise distinct nodes, when every
    local plan optimises without error and a splice touches no other node of
    the tree, the local-replica phase ends with the stack empty after
    replacing every node of the tree that holds a local-replica read by its
    optimised plan, children before parents; the flag is set exactly if the
    tree holds such a read, and with it and [remove_redundant_sorting] the
    arena left is [tryRemoveRedundantSorting] of the root on the spliced
    arena, the spliced arena itself otherwise. *)
Theorem local_replica_phase_splices_every_read ext st root nds t names mt rl tr :
  local_plans_optimize ext st →
  tree_root t = root → represents nds t = true → NoDup (tree_nodes t) →
  splice_local_to_node ext st (tree_nodes t) →
  ∃ fuel,
    phase_local_replica ext st root fuel (mkState [] nds names mt rl tr)
    = Finished
        (if existsb (is_local_replica_read nds) (postorder t) && remove_redundant_sorting st
         then
           mkState [] (tryRemoveRedundantSorting ext root
                         (spliced_nodes ext st nds (postorder t)))
             names mt true
             (tr ++ replacements nds (postorder t) ++ [EvRemoveRedundantSorting root])
         else
           mkState [] (spliced_nodes ext st nds (postorder t)) names mt
             (existsb (is_local_replica_read nds) (postorder t))
             (tr ++ replacements nds (postorder t))).
Proof.
  intros Hopt <- Ht Hnodup Hlocal.
  destruct (splice_walk ext st Hopt (tree_nodes t) Hlocal names mt t (λ _ H, H) Hnodup
              nds Ht [] false tr) as [k Hk].
  exists (k + 0). unfold phase_local_replica, push_root.
  cbn [stack set_stack nodes applied_projection_names has_reading_from_mt
       read_from_local_parallel_replica_plan trace].
  rewrite (run_loop_after_steps _ _ _ _ _ Hk). cbn [run_loop stack and_then orb].
  unfold remove_redundant_sorting_after_splice.
  cbn [read_from_local_parallel_replica_plan].
  destruct (existsb (is_local_replica_read nds) (postorder t)) eqn:Hfound; cbn [andb]; [|done].
  destruct (remove_redundant_sorting st); [|done].
  unfold add_event, set_nodes. cbn. by rewrite <- app_assoc.
Qed.

Lemma sorting_collaborators_splice_local st protected :
  splice_local_to_node sorting_collaborators st protected.
Proof.
  intros n nds x _ Hne. unfold splice_node. destruct (nds !! n) as [nd|]; [|done].
  destruct (decide _); [|done]. cbn.
  destruct (merge_expressions st); cbn; by rewrite lookup_insert_ne.
Qed.

Lemma local_replica_phase_splices_every_read_witness :
  ∃ fuel,
    phase_local_replica sorting_collaborators example_settings 0 fuel
      (mkState [] replica_plan ∅ false false [])
    = Finished
        (mkState []
           (<[0 := mkNode (mkStep OtherStep 7%N) [1]]>
              (<[1 := mkNode (mkStep OtherStep 5%N) []]> replica_plan))
           ∅ false true [EvReplaceNodeWithPlan 1; EvRemoveRedundantSorting 0]).
Proof.
  refine (local_replica_phase_splices_every_read sorting_collaborators example_settings 0
            replica_plan example_tree ∅ false false [] _ _ _ _ _).
  - intros plan. by exists plan.
  - reflexivity.
  - vm_compute. reflexivity.
  - exact example_tree_distinct.
  - apply sorting_collaborators_splice_local.
Defined.
